(** * traefik-playground: the experiment-execution pipeline

    A shallow embedding of the Go sources of the playground's core
    (internal/header, internal/experiment, internal/command,
    internal/traefik/command.go and the run-bundle codec of app/app.go)
    together with the properties of its specification.

    Conventions.  A Go [string] is a Rocq [string]: a sequence of 8-bit
    [ascii] values, that is, of bytes.  A Go [byte] used arithmetically is
    its value in [Z]; fixed-width arithmetic is written with its wrap-around.
    A Go [map] is a [gmap]; a multiple-value return [(v, err)] is a pair
    whose second component is an [option] of the error. *)

From Stdlib Require Import ZArith NArith Ascii String List Lia.
From Stdlib Require OrderedTypeEx.
From stdpp Require Import base decidable option list strings gmap pretty sorting.

Open Scope Z_scope.

(** ** Bytes and Go strings *)

Module GoBytes.

(** The value of a byte. *)
Definition byteZ (a : ascii) : Z := Z.of_N (N_of_ascii a).

(** The byte of a value (taken modulo 256, as a Go conversion [byte(x)]). *)
Definition byteOf (z : Z) : ascii := ascii_of_N (Z.to_N (z mod 256)).

(** [[]byte(s)]. *)
Definition bytes (s : string) : list ascii := list_ascii_of_string s.

(** [string(b)]. *)
Definition str (b : list ascii) : string := string_of_list_ascii b.

(** [len(s)] for a string: its number of bytes. *)
Definition len (s : string) : Z := Z.of_nat (String.length s).

Lemma byteZ_range a : 0 <= byteZ a < 256.
Proof.
  unfold byteZ. pose proof (N_ascii_bounded a) as H.
  split; [apply N2Z.is_nonneg|]. change 256 with (Z.of_N 256). lia.
Qed.

Lemma byteOf_byteZ a : byteOf (byteZ a) = a.
Proof.
  unfold byteOf. rewrite Z.mod_small by apply byteZ_range.
  unfold byteZ. rewrite N2Z.id. apply ascii_N_embedding.
Qed.

Lemma byteZ_byteOf z : 0 <= z < 256 -> byteZ (byteOf z) = z.
Proof.
  intros Hz. unfold byteOf, byteZ. rewrite Z.mod_small by done.
  rewrite N_ascii_embedding; [apply Z2N.id; lia|].
  change 256%N with (Z.to_N 256). apply Z2N.inj_lt; lia.
Qed.

Lemma str_bytes s : str (bytes s) = s.
Proof. apply string_of_list_ascii_of_string. Qed.

Lemma bytes_str b : bytes (str b) = b.
Proof. apply list_ascii_of_string_of_list_ascii. Qed.

(** Every byte value is one of the 256 listed by [all_bytes]; a property of
    a byte that is decided by computation can be checked on the list. *)
Definition all_bytes : list ascii := map (fun n => ascii_of_nat n) (seq 0 256).

Lemma all_bytes_complete a : In a all_bytes.
Proof.
  unfold all_bytes. apply in_map_iff. exists (nat_of_ascii a).
  split; [apply ascii_nat_embedding|].
  apply in_seq. pose proof (nat_ascii_bounded a). lia.
Qed.

Lemma forall_bytes (P : ascii -> bool) :
  forallb P all_bytes = true -> forall a, P a = true.
Proof.
  intros H a. rewrite forallb_forall in H. apply H, all_bytes_complete.
Qed.

End GoBytes.

(** ** internal/header/header.go *)

Module Header.
Import GoBytes.

(** Conversion to [uint64]. *)
Definition uint64 (z : Z) : Z := z mod 2 ^ 64.

(** [uint64(x) << c]: bits shifted past bit 63 are lost, so the result is
    zero as soon as [c >= 64]. *)
Definition shl64 (x c : Z) : Z := uint64 (Z.shiftl x c).

(** [c - d] on bytes: the difference wraps around modulo 256. *)
Definition sub8 (c d : Z) : Z := (c - d) mod 256.

(** [x &^ y] (bit clear). *)
Definition andnot (x y : Z) : Z := Z.ldiff x y.

(** The 128-bit constant [mask] of [validHeaderFieldByte]; the character
    literals are written by their codes. *)
Definition fieldMask : Z :=
  Z.lor 0
 (Z.lor (Z.shiftl (Z.shiftl 1 10 - 1) 48)          (* '0' *)
 (Z.lor (Z.shiftl (Z.shiftl 1 26 - 1) 97)          (* 'a' *)
 (Z.lor (Z.shiftl (Z.shiftl 1 26 - 1) 65)          (* 'A' *)
 (Z.lor (Z.shiftl 1 33)                            (* '!' *)
 (Z.lor (Z.shiftl 1 35)                            (* '#' *)
 (Z.lor (Z.shiftl 1 36)                            (* '$' *)
 (Z.lor (Z.shiftl 1 37)                            (* '%' *)
 (Z.lor (Z.shiftl 1 38)                            (* '&' *)
 (Z.lor (Z.shiftl 1 39)                            (* '\'' *)
 (Z.lor (Z.shiftl 1 42)                            (* '*' *)
 (Z.lor (Z.shiftl 1 43)                            (* '+' *)
 (Z.lor (Z.shiftl 1 45)                            (* '-' *)
 (Z.lor (Z.shiftl 1 46)                            (* '.' *)
 (Z.lor (Z.shiftl 1 94)                            (* '^' *)
 (Z.lor (Z.shiftl 1 95)                            (* '_' *)
 (Z.lor (Z.shiftl 1 96)                            (* '`' *)
 (Z.lor (Z.shiftl 1 124)                           (* '|' *)
        (Z.shiftl 1 126)))))))))))))))))).         (* '~' *)

(** The low 64 bits of a constant: [mask & (1<<64 - 1)]. *)
Definition low64 (m : Z) : Z := Z.land m (Z.shiftl 1 64 - 1).

(** The high 64 bits of a constant: [mask >> 64]. *)
Definition high64 (m : Z) : Z := Z.shiftr m 64.

Definition validHeaderFieldByte (c : Z) : bool :=
  negb (Z.lor (Z.land (shl64 1 c) (low64 fieldMask))
              (Z.land (shl64 1 (sub8 c 64)) (high64 fieldMask)) =? 0).

(** The 128-bit constant [mask] of [validHeaderValueByte]. *)
Definition valueMask : Z :=
  Z.lor 0
 (Z.lor (Z.shiftl (Z.shiftl 1 (127 - 33) - 1) 33)  (* VCHAR: %x21-7E *)
 (Z.lor (Z.shiftl 1 32)                            (* SP: %x20 *)
        (Z.shiftl 1 9))).                          (* HTAB: %x09 *)

Definition validHeaderValueByte (c : Z) : bool :=
  Z.lor (andnot (shl64 1 c) (low64 valueMask))
        (andnot (shl64 1 (sub8 c 64)) (high64 valueMask)) =? 0.

(** The loops of [ValidHeaderField] and [ValidHeaderValue]: return false at
    the first byte that is refused, true when the bytes are exhausted. *)
Fixpoint allBytes (ok : Z -> bool) (b : list ascii) : bool :=
  match b with
  | [] => true
  | c :: rest => if negb (ok (byteZ c)) then false else allBytes ok rest
  end.

Definition ValidHeaderField (field : string) : bool :=
  allBytes validHeaderFieldByte (bytes field).

Definition ValidHeaderValue (value : string) : bool :=
  allBytes validHeaderValueByte (bytes value).

(** *** The grammar of the specification *)

Definition is_letter (c : Z) : Prop := 65 <= c <= 90 \/ 97 <= c <= 122.
Definition is_digit (c : Z) : Prop := 48 <= c <= 57.

(** The punctuation of [tchar]: ! # $ % & ' * + - . ^ _ ` | ~ *)
Definition tchar_punct : list Z :=
  [33; 35; 36; 37; 38; 39; 42; 43; 45; 46; 94; 95; 96; 124; 126].

Definition is_tchar (c : Z) : Prop :=
  is_letter c \/ is_digit c \/ c ∈ tchar_punct.

Definition is_field_vchar (c : Z) : Prop :=
  c = 9 \/ c = 32 \/ 33 <= c <= 126 \/ 128 <= c <= 255.

#[global] Instance is_tchar_dec c : Decision (is_tchar c).
Proof. unfold is_tchar, is_letter, is_digit. apply _. Defined.

#[global] Instance is_field_vchar_dec c : Decision (is_field_vchar c).
Proof. unfold is_field_vchar. apply _. Defined.

Lemma validHeaderFieldByte_spec a :
  validHeaderFieldByte (byteZ a) = bool_decide (is_tchar (byteZ a)).
Proof.
  set (P := fun a => Bool.eqb (validHeaderFieldByte (byteZ a))
                              (bool_decide (is_tchar (byteZ a)))).
  apply Bool.eqb_prop. apply (forall_bytes P). vm_compute. reflexivity.
Qed.

Lemma validHeaderValueByte_spec a :
  validHeaderValueByte (byteZ a) = bool_decide (is_field_vchar (byteZ a)).
Proof.
  set (P := fun a => Bool.eqb (validHeaderValueByte (byteZ a))
                              (bool_decide (is_field_vchar (byteZ a)))).
  apply Bool.eqb_prop. apply (forall_bytes P). vm_compute. reflexivity.
Qed.

Lemma allBytes_Forall ok b :
  allBytes ok b = true <-> Forall (fun c => ok (byteZ c) = true) b.
Proof.
  induction b as [|c rest IH]; simpl.
  - split; [constructor|done].
  - destruct (ok (byteZ c)) eqn:Hc; simpl.
    + rewrite IH. split; [by constructor|by inversion 1].
    + split; [done|]. inversion 1; congruence.
Qed.

Example field_content_type : ValidHeaderField "Content-Type" = true.
Proof. reflexivity. Qed.

Example value_application_json : ValidHeaderValue "application/json" = true.
Proof. reflexivity. Qed.

Example field_with_space : ValidHeaderField "Content Type" = false.
Proof. reflexivity. Qed.

(** C7. [ValidHeaderField s] is true exactly when every byte of [s] is an
    ASCII letter, an ASCII digit or one of the tchar punctuation bytes, and
    [ValidHeaderValue s] is true exactly when every byte of [s] is HTAB, SP,
    a visible ASCII byte (0x21-0x7E) or an extended-text byte (0x80-0xFF);
    control characters, DEL (0x7F) included, are refused. *)
Theorem valid_header_grammar (s : string) :
  (ValidHeaderField s = true <-> Forall (fun c => is_tchar (byteZ c)) (bytes s)) /\
  (ValidHeaderValue s = true <->
     Forall (fun c => is_field_vchar (byteZ c)) (bytes s)) /\
  (forall c : ascii, (0 <= byteZ c < 32 /\ byteZ c <> 9) \/ byteZ c = 127 ->
     ValidHeaderValue (String c EmptyString) = false).
Proof.
  split; [|split].
  - unfold ValidHeaderField. rewrite allBytes_Forall.
    apply Forall_iff. intros c.
    rewrite validHeaderFieldByte_spec. apply bool_decide_eq_true.
  - unfold ValidHeaderValue. rewrite allBytes_Forall.
    apply Forall_iff. intros c.
    rewrite validHeaderValueByte_spec. apply bool_decide_eq_true.
  - intros c Hctl. unfold ValidHeaderValue. simpl.
    rewrite validHeaderValueByte_spec.
    rewrite bool_decide_eq_false_2; [done|]. unfold is_field_vchar. lia.
Qed.

End Header.

(** ** The functions of package [strings] and [net/textproto] used by the
       validator *)

Module GoStrings.
Import GoBytes.

(** [strings.Split(s, sep)] for a separator [sep] of one byte: the pieces of
    [s] between the occurrences of [sep]; a string with [n] occurrences has
    [n + 1] pieces, so the result is never empty. *)
Fixpoint Split (s : string) (sep : ascii) : list string :=
  match s with
  | EmptyString => [EmptyString]
  | String c rest =>
      if Ascii.eqb c sep then EmptyString :: Split rest sep
      else match Split rest sep with
           | [] => [String c EmptyString]
           | piece :: pieces => String c piece :: pieces
           end
  end.

(** [strings.Join(pieces, sep)] for a separator of one byte. *)
Fixpoint Join (pieces : list string) (sep : ascii) : string :=
  match pieces with
  | [] => EmptyString
  | [piece] => piece
  | piece :: rest => piece ++ String sep (Join rest sep)
  end.

(** The white space of [unicode.IsSpace], by its UTF-8 encoding.  One byte:
    HT, LF, VT, FF, CR and SP. *)
Definition asciiSpace (c : Z) : bool :=
  (9 <=? c) && (c <=? 13) || (c =? 32).

(** Two bytes: U+0085 (NEL) and U+00A0 (NBSP). *)
Definition space2 (c1 c2 : Z) : bool :=
  (c1 =? 194) && ((c2 =? 133) || (c2 =? 160)).

(** Three bytes: U+1680, U+2000 to U+200A, U+2028, U+2029, U+202F, U+205F
    and U+3000. *)
Definition space3 (c1 c2 c3 : Z) : bool :=
  (c1 =? 225) && (c2 =? 154) && (c3 =? 128)
  || (c1 =? 226) && (c2 =? 128)
     && ((128 <=? c3) && (c3 <=? 138) || (c3 =? 168) || (c3 =? 169) || (c3 =? 175))
  || (c1 =? 226) && (c2 =? 129) && (c3 =? 159)
  || (c1 =? 227) && (c2 =? 128) && (c3 =? 128).

(** [strings.TrimLeftFunc(s, unicode.IsSpace)]: drop runes from the left
    while they are white space.  An ill-formed byte decodes to U+FFFD, which
    is no white space, and stops the scan. *)
Fixpoint trimLeftSpace (b : list ascii) : list ascii :=
  match b with
  | [] => []
  | c1 :: t1 =>
      if asciiSpace (byteZ c1) then trimLeftSpace t1
      else match t1 with
           | [] => b
           | c2 :: t2 =>
               if space2 (byteZ c1) (byteZ c2) then trimLeftSpace t2
               else match t2 with
                    | [] => b
                    | c3 :: t3 =>
                        if space3 (byteZ c1) (byteZ c2) (byteZ c3)
                        then trimLeftSpace t3 else b
                    end
           end
  end.

(** [strings.TrimRightFunc(s, unicode.IsSpace)], on the reversed bytes: the
    last rune is white space exactly when the string ends with the encoding
    of a white-space rune. *)
Fixpoint trimLeftSpaceRev (b : list ascii) : list ascii :=
  match b with
  | [] => []
  | c1 :: t1 =>
      if asciiSpace (byteZ c1) then trimLeftSpaceRev t1
      else match t1 with
           | [] => b
           | c2 :: t2 =>
               if space2 (byteZ c2) (byteZ c1) then trimLeftSpaceRev t2
               else match t2 with
                    | [] => b
                    | c3 :: t3 =>
                        if space3 (byteZ c3) (byteZ c2) (byteZ c1)
                        then trimLeftSpaceRev t3 else b
                    end
           end
  end.

(** [strings.TrimSpace(s)]: white space removed from the left, then from
    the right of what is left. *)
Definition TrimSpace (s : string) : string :=
  str (rev (trimLeftSpaceRev (rev (trimLeftSpace (bytes s))))).

(** [textproto.CanonicalMIMEHeaderKey(s)].  A key with a byte that is no
    token character is returned unchanged; otherwise the first letter and
    every letter after a hyphen are upper case and the others lower case. *)
Fixpoint canonicalBytes (upper : bool) (b : list ascii) : list ascii :=
  match b with
  | [] => []
  | a :: rest =>
      let c := byteZ a in
      let c' := if upper && (97 <=? c) && (c <=? 122) then c - 32
                else if negb upper && (65 <=? c) && (c <=? 90) then c + 32
                else c in
      byteOf c' :: canonicalBytes (c' =? 45) rest
  end.

Definition CanonicalMIMEHeaderKey (s : string) : string :=
  if Header.ValidHeaderField s then str (canonicalBytes true (bytes s)) else s.

Example split_lines : Split "a: 1
b: 2" "010" = ["a: 1"; "b: 2"].
Proof. reflexivity. Qed.

Example split_no_sep : Split "Invalid-Header" ":" = ["Invalid-Header"].
Proof. reflexivity. Qed.

Example split_trailing : Split "Name:" ":" = ["Name"; ""].
Proof. reflexivity. Qed.

Example trim_both : TrimSpace "  	X-Key  " = "X-Key".
Proof. reflexivity. Qed.

Example trim_nbsp :
  TrimSpace (String "194" (String "160" "a b")) = "a b".
Proof. reflexivity. Qed.

Example canonical_lower : CanonicalMIMEHeaderKey "content-type" = "Content-Type".
Proof. reflexivity. Qed.

Example canonical_mixed : CanonicalMIMEHeaderKey "x-hEADER-1" = "X-Header-1".
Proof. reflexivity. Qed.

Example canonical_invalid : CanonicalMIMEHeaderKey "content type" = "content type".
Proof. reflexivity. Qed.

Lemma Split_nonempty s sep : Split s sep <> [].
Proof.
  destruct s as [|c rest]; simpl; [done|].
  destruct (Ascii.eqb c sep); [done|]. by destruct (Split rest sep).
Qed.

End GoStrings.

(** ** Package [unicode/utf8] and the strings of [encoding/json] *)

Module Utf8.
Import GoBytes.

(** A continuation byte, and a byte within given bounds. *)
Definition between (lo hi : Z) (a : ascii) : bool :=
  (lo <=? byteZ a) && (byteZ a <=? hi).

(** The number of bytes of the well-formed UTF-8 sequence at the head of the
    bytes, as [utf8.DecodeRune] accepts it; 0 when the bytes are empty or
    start with an ill-formed sequence (which [DecodeRune] reads as
    [RuneError] of width 1). *)
Definition runeSize (b : list ascii) : nat :=
  match b with
  | [] => 0%nat
  | a :: t =>
      if byteZ a <? 128 then 1%nat
      else if between 194 223 a then
        match t with
        | a1 :: _ => if between 128 191 a1 then 2%nat else 0%nat
        | _ => 0%nat
        end
      else if between 224 239 a then
        match t with
        | a1 :: a2 :: _ =>
            if between (if byteZ a =? 224 then 160 else 128)
                       (if byteZ a =? 237 then 159 else 191) a1
               && between 128 191 a2
            then 3%nat else 0%nat
        | _ => 0%nat
        end
      else if between 240 244 a then
        match t with
        | a1 :: a2 :: a3 :: _ =>
            if between (if byteZ a =? 240 then 144 else 128)
                       (if byteZ a =? 244 then 143 else 191) a1
               && between 128 191 a2 && between 128 191 a3
            then 4%nat else 0%nat
        | _ => 0%nat
        end
      else 0%nat
  end.

(** [utf8.Valid]. *)
Fixpoint Valid (b : list ascii) : bool :=
  match b with
  | [] => true
  | a :: t =>
      match runeSize b with
      | 1%nat => Valid t
      | 2%nat => match t with _ :: t1 => Valid t1 | _ => false end
      | 3%nat => match t with _ :: _ :: t2 => Valid t2 | _ => false end
      | 4%nat => match t with _ :: _ :: _ :: t3 => Valid t3 | _ => false end
      | _ => false
      end
  end.

(** [utf8.AppendRune] for a code point below 0x10000 that is no surrogate,
    and for a code point from 0x10000 to 0x10FFFF. *)
Definition encodeRune (r : Z) : list ascii :=
  if r <? 128 then [byteOf r]
  else if r <? 2048 then [byteOf (192 + r / 64); byteOf (128 + r mod 64)]
  else if r <? 65536 then
    [byteOf (224 + r / 4096); byteOf (128 + (r / 64) mod 64); byteOf (128 + r mod 64)]
  else
    [byteOf (240 + r / 262144); byteOf (128 + (r / 4096) mod 64);
     byteOf (128 + (r / 64) mod 64); byteOf (128 + r mod 64)].

(** U+FFFD, the replacement character. *)
Definition replacement : list ascii := encodeRune 65533.

End Utf8.


(** ** Package [encoding/json]: JSON texts *)

Module Json.
Import GoBytes Utf8.

(** A JSON value.  A number is kept as its literal. *)
#[warnings="-register-all"] Inductive json :=
| JNull
| JBool (b : bool)
| JNumber (literal : string)
| JString (s : string)
| JArray (elements : list json)
| JObject (members : list (string * json)).

(** *** Writing *)

(** A hexadecimal digit, in lower case. *)
Definition hexDigit (n : Z) : ascii := byteOf (if n <? 10 then 48 + n else 87 + n).

(** A byte below 0x80 inside a string, as [appendString] writes it with
    [escapeHTML] set: the quote and the backslash behind a backslash, the
    control characters by their short escape or by [\u00XX], and [<], [>]
    and [&] by [\u00XX] too. *)
Definition escapeASCII (a : ascii) : list ascii :=
  let c := byteZ a in
  if (c =? 92) || (c =? 34) then ["\"%char; a]
  else if c =? 8 then ["\"; "b"]%char
  else if c =? 12 then ["\"; "f"]%char
  else if c =? 10 then ["\"; "n"]%char
  else if c =? 13 then ["\"; "r"]%char
  else if c =? 9 then ["\"; "t"]%char
  else if (c <? 32) || (c =? 60) || (c =? 62) || (c =? 38)
  then ["\"; "u"; "0"; "0"; hexDigit (c / 16); hexDigit (c mod 16)]%char
  else [a].

(** U+2028 and U+2029 are E2 80 A8 and E2 80 A9. *)
Definition lineSeparator (a a1 a2 : ascii) : bool :=
  (byteZ a =? 226) && (byteZ a1 =? 128) && ((byteZ a2 =? 168) || (byteZ a2 =? 169)).

(** The inside of a string literal: an ill-formed byte is written as the
    escape of U+FFFD, U+2028 and U+2029 as their escapes, any other
    well-formed sequence as it is. *)
Fixpoint quoteBody (b : list ascii) : list ascii :=
  match b with
  | [] => []
  | a :: t =>
      if byteZ a <? 128 then escapeASCII a ++ quoteBody t
      else match runeSize b, t with
           | 2%nat, a1 :: t1 => a :: a1 :: quoteBody t1
           | 3%nat, a1 :: a2 :: t2 =>
               if lineSeparator a a1 a2
               then ["\"; "u"; "2"; "0"; "2"; hexDigit (byteZ a2 mod 16)]%char
                    ++ quoteBody t2
               else a :: a1 :: a2 :: quoteBody t2
           | 4%nat, a1 :: a2 :: a3 :: t3 => a :: a1 :: a2 :: a3 :: quoteBody t3
           | _, _ => ["\"; "u"; "f"; "f"; "f"; "d"]%char ++ quoteBody t
           end
  end.

Definition dquote : ascii := "034".

Definition quote (s : string) : list ascii :=
  dquote :: quoteBody (bytes s) ++ [dquote].

(** The texts of a list, separated by commas. *)
Fixpoint commas (texts : list (list ascii)) : list ascii :=
  match texts with
  | [] => []
  | [text] => text
  | text :: rest => text ++ ","%char :: commas rest
  end.

(** The compact text of a value, as [json.Marshal] writes it. *)
Fixpoint render (j : json) : list ascii :=
  match j with
  | JNull => bytes "null"
  | JBool true => bytes "true"
  | JBool false => bytes "false"
  | JNumber literal => bytes literal
  | JString s => quote s
  | JArray elements => "["%char :: commas (map render elements) ++ ["]"%char]
  | JObject members =>
      "{"%char
      :: commas (map (fun m => quote m.1 ++ ":"%char :: render m.2) members)
      ++ ["}"%char]
  end.

(** *** Reading *)

Definition hexValue (a : ascii) : option Z :=
  let c := byteZ a in
  if (48 <=? c) && (c <=? 57) then Some (c - 48)
  else if (97 <=? c) && (c <=? 102) then Some (c - 87)
  else if (65 <=? c) && (c <=? 70) then Some (c - 55)
  else None.

(** [getu4]: the code unit of four hexadecimal digits. *)
Definition hex4 (h1 h2 h3 h4 : ascii) : option Z :=
  d1 ← hexValue h1; d2 ← hexValue h2; d3 ← hexValue h3; d4 ← hexValue h4;
  Some (((d1 * 16 + d2) * 16 + d3) * 16 + d4).

(** [utf16.IsSurrogate]. *)
Definition isSurrogate (r : Z) : bool := (55296 <=? r) && (r <? 57344).

(** [utf16.DecodeRune], when the two code units form a pair. *)
Definition decodePair (r1 r2 : Z) : option Z :=
  if (55296 <=? r1) && (r1 <? 56320) && (56320 <=? r2) && (r2 <? 57344)
  then Some ((r1 - 55296) * 1024 + (r2 - 56320) + 65536)
  else None.

Definition prepend (b : list ascii) (r : option (list ascii * list ascii))
  : option (list ascii * list ascii) :=
  '(s, rest) ← r; Some (b ++ s, rest).

(** The inside of a string literal, from after the opening quote: the
    string it denotes and the text after the closing quote.  Escapes are
    resolved, a lone surrogate and an ill-formed byte become U+FFFD; a
    control character, an unknown escape and the end of the text are
    errors. *)
Fixpoint unquoteBody (s : list ascii) : option (list ascii * list ascii) :=
  match s with
  | [] => None
  | a :: t =>
      let c := byteZ a in
      if c =? 34 then Some ([], t)
      else if c =? 92 then
        match t with
        | [] => None
        | e :: t1 =>
            let c1 := byteZ e in
            if (c1 =? 34) || (c1 =? 92) || (c1 =? 47) then prepend [e] (unquoteBody t1)
            else if c1 =? 98 then prepend [byteOf 8] (unquoteBody t1)
            else if c1 =? 102 then prepend [byteOf 12] (unquoteBody t1)
            else if c1 =? 110 then prepend [byteOf 10] (unquoteBody t1)
            else if c1 =? 114 then prepend [byteOf 13] (unquoteBody t1)
            else if c1 =? 116 then prepend [byteOf 9] (unquoteBody t1)
            else if c1 =? 117 then
              match t1 with
              | h1 :: h2 :: h3 :: h4 :: t5 =>
                  match hex4 h1 h2 h3 h4 with
                  | None => None
                  | Some rr =>
                      if isSurrogate rr then
                        match t5 with
                        | b1 :: b2 :: g1 :: g2 :: g3 :: g4 :: t11 =>
                            match (if (byteZ b1 =? 92) && (byteZ b2 =? 117)
                                   then rr1 ← hex4 g1 g2 g3 g4; decodePair rr rr1
                                   else None) with
                            | Some dec => prepend (encodeRune dec) (unquoteBody t11)
                            | None => prepend replacement (unquoteBody t5)
                            end
                        | _ => prepend replacement (unquoteBody t5)
                        end
                      else prepend (encodeRune rr) (unquoteBody t5)
                  end
              | _ => None
              end
            else None
        end
      else if c <? 32 then None
      else if c <? 128 then prepend [a] (unquoteBody t)
      else match runeSize s, t with
           | 2%nat, a1 :: t1 => prepend [a; a1] (unquoteBody t1)
           | 3%nat, a1 :: a2 :: t2 => prepend [a; a1; a2] (unquoteBody t2)
           | 4%nat, a1 :: a2 :: a3 :: t3 => prepend [a; a1; a2; a3] (unquoteBody t3)
           | _, _ => prepend replacement (unquoteBody t)
           end
  end.

(** White space between tokens: space, tab, carriage return, line feed. *)
Definition isSpace (a : ascii) : bool :=
  let c := byteZ a in (c =? 32) || (c =? 9) || (c =? 13) || (c =? 10).

Fixpoint skipSpace (s : list ascii) : list ascii :=
  match s with
  | a :: t => if isSpace a then skipSpace t else s
  | [] => []
  end.

Definition isDigit (a : ascii) : bool := (48 <=? byteZ a) && (byteZ a <=? 57).

(** The digits at the head of a text, and the rest. *)
Fixpoint digits (s : list ascii) : list ascii * list ascii :=
  match s with
  | a :: t => if isDigit a then let '(ds, rest) := digits t in (a :: ds, rest)
              else ([], s)
  | [] => ([], [])
  end.

(** A number literal at the head of a text: an optional minus, an integer
    part without a leading zero, an optional fraction and an optional
    exponent. *)
Definition scanNumber (s : list ascii) : option (list ascii * list ascii) :=
  let '(sign, s1) := match s with
                     | a :: t => if byteZ a =? 45 then ([a], t) else ([], s)
                     | [] => ([], s)
                     end in
  '(int, s2) ← match s1 with
               | a :: t =>
                   if byteZ a =? 48 then Some ([a], t)
                   else if isDigit a then let '(ds, rest) := digits t in Some (a :: ds, rest)
                   else None
               | [] => None
               end;
  '(frac, s3) ← match s2 with
                | a :: t =>
                    if byteZ a =? 46 then
                      match digits t with
                      | ([], _) => None
                      | (ds, rest) => Some (a :: ds, rest)
                      end
                    else Some ([], s2)
                | [] => Some ([], s2)
                end;
  '(exp, s4) ← match s3 with
               | a :: t =>
                   if (byteZ a =? 101) || (byteZ a =? 69) then
                     let '(esign, t1) :=
                       match t with
                       | b :: t' => if (byteZ b =? 43) || (byteZ b =? 45)
                                    then ([b], t') else ([], t)
                       | [] => ([], t)
                       end in
                     match digits t1 with
                     | ([], _) => None
                     | (ds, rest) => Some (a :: esign ++ ds, rest)
                     end
                   else Some ([], s3)
               | [] => Some ([], s3)
               end;
  Some (sign ++ int ++ frac ++ exp, s4).

(** A text with the given literal at its head: the rest. *)
Fixpoint stripPrefix (lit s : list ascii) : option (list ascii) :=
  match lit, s with
  | [], _ => Some s
  | l :: lit', a :: t => if Ascii.eqb l a then stripPrefix lit' t else None
  | _ :: _, [] => None
  end.

(** The scanner refuses more than 10000 nested arrays and objects. *)
Definition maxNestingDepth : N := 10000.

(** A value at the head of a text (after white space), and the rest of the
    text.  [depth] is the number of arrays and objects around the value;
    [fuel] bounds the recursion (the length of the text is enough). *)
Fixpoint parseValue (fuel : nat) (depth : N) (s : list ascii)
  : option (json * list ascii) :=
  match fuel with
  | O => None
  | S fuel' =>
      match skipSpace s with
      | [] => None
      | a :: t =>
          let c := byteZ a in
          if c =? 123 then
            if (maxNestingDepth <=? depth)%N then None
            else match skipSpace t with
                 | b :: t' =>
                     if byteZ b =? 125 then Some (JObject [], t')
                     else '(ms, rest) ← parseMembers fuel' (depth + 1)%N t;
                          Some (JObject ms, rest)
                 | [] => None
                 end
          else if c =? 91 then
            if (maxNestingDepth <=? depth)%N then None
            else match skipSpace t with
                 | b :: t' =>
                     if byteZ b =? 93 then Some (JArray [], t')
                     else '(es, rest) ← parseElements fuel' (depth + 1)%N t;
                          Some (JArray es, rest)
                 | [] => None
                 end
          else if c =? 34 then
            '(str, rest) ← unquoteBody t; Some (JString (GoBytes.str str), rest)
          else if c =? 116 then
            rest ← stripPrefix (bytes "true") (a :: t); Some (JBool true, rest)
          else if c =? 102 then
            rest ← stripPrefix (bytes "false") (a :: t); Some (JBool false, rest)
          else if c =? 110 then
            rest ← stripPrefix (bytes "null") (a :: t); Some (JNull, rest)
          else
            '(lit, rest) ← scanNumber (a :: t); Some (JNumber (GoBytes.str lit), rest)
      end
  end
with parseElements (fuel : nat) (depth : N) (s : list ascii)
  : option (list json * list ascii) :=
  match fuel with
  | O => None
  | S fuel' =>
      '(v, rest) ← parseValue fuel' depth s;
      match skipSpace rest with
      | a :: t =>
          if byteZ a =? 44 then
            '(vs, rest') ← parseElements fuel' depth t; Some (v :: vs, rest')
          else if byteZ a =? 93 then Some ([v], t)
          else None
      | [] => None
      end
  end
with parseMembers (fuel : nat) (depth : N) (s : list ascii)
  : option (list (string * json) * list ascii) :=
  match fuel with
  | O => None
  | S fuel' =>
      match skipSpace s with
      | q :: t =>
          if byteZ q =? 34 then
            '(key, rest) ← unquoteBody t;
            match skipSpace rest with
            | colon :: t1 =>
                if byteZ colon =? 58 then
                  '(v, rest1) ← parseValue fuel' depth t1;
                  match skipSpace rest1 with
                  | a :: t2 =>
                      if byteZ a =? 44 then
                        '(ms, rest2) ← parseMembers fuel' depth t2;
                        Some ((GoBytes.str key, v) :: ms, rest2)
                      else if byteZ a =? 125 then Some ([(GoBytes.str key, v)], t2)
                      else None
                  | [] => None
                  end
                else None
            | [] => None
            end
          else None
      | [] => None
      end
  end.

(** A text that is one value between optional white space: what
    [json.Unmarshal] accepts ([checkValid]). *)
Definition parse (s : list ascii) : option json :=
  '(v, rest) ← parseValue (S (length s)) 0 s;
  match skipSpace rest with
  | [] => Some v
  | _ => None
  end.

End Json.


(** ** Package [encoding/base64]: the standard encoding *)

Module Base64.
Import GoBytes.

(** The alphabet: A-Z, a-z, 0-9, + and /. *)
Definition encodeStd (v : Z) : ascii :=
  byteOf (if v <? 26 then 65 + v
          else if v <? 52 then 97 + (v - 26)
          else if v <? 62 then 48 + (v - 52)
          else if v =? 62 then 43 else 47).

Definition decodeStd (a : ascii) : option Z :=
  let c := byteZ a in
  if (65 <=? c) && (c <=? 90) then Some (c - 65)
  else if (97 <=? c) && (c <=? 122) then Some (c - 97 + 26)
  else if (48 <=? c) && (c <=? 57) then Some (c - 48 + 52)
  else if c =? 43 then Some 62
  else if c =? 47 then Some 63
  else None.

Definition padChar : ascii := "=".

(** [StdEncoding.EncodeToString]: three bytes give four characters; one or
    two bytes left at the end give two or three characters and padding. *)
Fixpoint EncodeToString (src : list ascii) : list ascii :=
  match src with
  | [] => []
  | [a] =>
      let n := byteZ a in
      [encodeStd (n / 4); encodeStd ((n mod 4) * 16); padChar; padChar]
  | [a; b] =>
      let n := byteZ a * 256 + byteZ b in
      [encodeStd (n / 1024); encodeStd ((n / 16) mod 64);
       encodeStd ((n mod 16) * 4); padChar]
  | a :: b :: c :: rest =>
      let n := (byteZ a * 256 + byteZ b) * 256 + byteZ c in
      encodeStd (n / 262144) :: encodeStd ((n / 4096) mod 64)
      :: encodeStd ((n / 64) mod 64) :: encodeStd (n mod 64)
      :: EncodeToString rest
  end.

(** Carriage returns and line feeds are skipped by the decoder. *)
Definition isNewline (a : ascii) : bool := (byteZ a =? 13) || (byteZ a =? 10).

(** The quanta of four characters, the last one possibly padded.  The bits
    that a padded quantum leaves over are dropped without a check. *)
Fixpoint decodeQuanta (s : list ascii) : option (list ascii) :=
  match s with
  | [] => Some []
  | c1 :: c2 :: c3 :: c4 :: rest =>
      v1 ← decodeStd c1; v2 ← decodeStd c2;
      if Ascii.eqb c3 padChar then
        if Ascii.eqb c4 padChar then
          match rest with
          | [] => Some [byteOf ((v1 * 64 + v2) / 16)]
          | _ => None
          end
        else None
      else
        v3 ← decodeStd c3;
        if Ascii.eqb c4 padChar then
          match rest with
          | [] => let n := (v1 * 64 + v2) * 64 + v3 in
                  Some [byteOf (n / 1024); byteOf ((n / 4) mod 256)]
          | _ => None
          end
        else
          v4 ← decodeStd c4;
          out ← decodeQuanta rest;
          let n := ((v1 * 64 + v2) * 64 + v3) * 64 + v4 in
          Some (byteOf (n / 65536) :: byteOf ((n / 256) mod 256)
                :: byteOf (n mod 256) :: out)
  | _ => None
  end.

(** [StdEncoding.DecodeString]; [None] for a corrupt input. *)
Definition DecodeString (s : list ascii) : option (list ascii) :=
  decodeQuanta (filter (fun a => isNewline a = false) s).

Ltac div_lia := Z.div_mod_to_equations; lia.

(** Every value from 0 to 63 is one of the 64 listed. *)
Lemma sextet_cases (P : Z -> bool) :
  forallb P (map Z.of_nat (seq 0 64)) = true -> forall v, 0 <= v < 64 -> P v = true.
Proof.
  intros H v Hv. rewrite forallb_forall in H. apply H.
  apply in_map_iff. exists (Z.to_nat v). split; [lia|]. apply in_seq. lia.
Qed.

Lemma sextet_facts v :
  0 <= v < 64 ->
  decodeStd (encodeStd v) = Some v /\
  Ascii.eqb (encodeStd v) padChar = false /\
  isNewline (encodeStd v) = false.
Proof.
  intros Hv.
  pose proof (sextet_cases
    (fun v => match decodeStd (encodeStd v) with Some v' => v' =? v | None => false end
              && negb (Ascii.eqb (encodeStd v) padChar)
              && negb (isNewline (encodeStd v))) eq_refl v Hv) as H.
  simpl in H. apply andb_prop in H as [H H3]. apply andb_prop in H as [H1 H2].
  destruct (decodeStd (encodeStd v)) as [v'|]; [|done].
  apply Z.eqb_eq in H1 as ->.
  split; [done|]. split; [by apply negb_true_iff|by apply negb_true_iff].
Qed.

Lemma encode_no_newline b :
  filter (fun a => isNewline a = false) (EncodeToString b) = EncodeToString b.
Proof.
  assert (forall n b, (length b <= n)%nat ->
            filter (fun a => isNewline a = false) (EncodeToString b) = EncodeToString b)
    as H; [|by apply (H (length b))].
  clear b. induction n as [|n IH]; intros b Hn.
  - destruct b; [done|simpl in Hn; lia].
  - destruct b as [|a [|b1 [|c rest]]].
    + done.
    + pose proof (byteZ_range a).
      cbn [EncodeToString].
      rewrite !filter_cons.
      destruct (sextet_facts (byteZ a / 4)) as (_ & _ & ->); [div_lia|].
      destruct (sextet_facts (byteZ a mod 4 * 16)) as (_ & _ & ->); [div_lia|].
      done.
    + pose proof (byteZ_range a). pose proof (byteZ_range b1).
      cbn [EncodeToString]. cbv zeta.
      rewrite !filter_cons.
      destruct (sextet_facts ((byteZ a * 256 + byteZ b1) / 1024)) as (_ & _ & ->); [div_lia|].
      destruct (sextet_facts ((byteZ a * 256 + byteZ b1) / 16 mod 64)) as (_ & _ & ->); [div_lia|].
      destruct (sextet_facts ((byteZ a * 256 + byteZ b1) mod 16 * 4)) as (_ & _ & ->); [div_lia|].
      done.
    + pose proof (byteZ_range a). pose proof (byteZ_range b1). pose proof (byteZ_range c).
      cbn [EncodeToString]. cbv zeta.
      rewrite !filter_cons.
      destruct (sextet_facts (((byteZ a * 256 + byteZ b1) * 256 + byteZ c) / 262144))
        as (_ & _ & ->); [div_lia|].
      destruct (sextet_facts (((byteZ a * 256 + byteZ b1) * 256 + byteZ c) / 4096 mod 64))
        as (_ & _ & ->); [div_lia|].
      destruct (sextet_facts (((byteZ a * 256 + byteZ b1) * 256 + byteZ c) / 64 mod 64))
        as (_ & _ & ->); [div_lia|].
      destruct (sextet_facts (((byteZ a * 256 + byteZ b1) * 256 + byteZ c) mod 64))
        as (_ & _ & ->); [div_lia|].
      simpl. rewrite IH; [done|]. simpl in Hn. lia.
Qed.

Lemma byteOf_eq z a : z = byteZ a -> byteOf z = a.
Proof. intros ->. apply byteOf_byteZ. Qed.

Lemma decodeQuanta_encode b : decodeQuanta (EncodeToString b) = Some b.
Proof.
  assert (forall n b, (length b <= n)%nat -> decodeQuanta (EncodeToString b) = Some b)
    as H; [|by apply (H (length b))].
  clear b. induction n as [|n IH]; intros b Hn.
  - destruct b; [done|simpl in Hn; lia].
  - destruct b as [|a [|b1 [|c rest]]].
    + done.
    + pose proof (byteZ_range a).
      cbn [EncodeToString decodeQuanta]. cbv zeta.
      destruct (sextet_facts (byteZ a / 4)) as (-> & _ & _); [div_lia|].
      destruct (sextet_facts (byteZ a mod 4 * 16)) as (-> & _ & _); [div_lia|].
      simpl. do 2 f_equal. apply byteOf_eq. div_lia.
    + pose proof (byteZ_range a). pose proof (byteZ_range b1).
      cbn [EncodeToString decodeQuanta]. cbv zeta.
      destruct (sextet_facts ((byteZ a * 256 + byteZ b1) / 1024)) as (-> & _ & _); [div_lia|].
      destruct (sextet_facts ((byteZ a * 256 + byteZ b1) / 16 mod 64)) as (-> & _ & _); [div_lia|].
      destruct (sextet_facts ((byteZ a * 256 + byteZ b1) mod 16 * 4)) as (-> & Hp & _); [div_lia|].
      cbn [mbind option_bind]. rewrite Hp.
      change (Ascii.eqb padChar padChar) with true. cbv iota.
      f_equal. f_equal; [apply byteOf_eq; div_lia|].
      f_equal. apply byteOf_eq. div_lia.
    + pose proof (byteZ_range a). pose proof (byteZ_range b1). pose proof (byteZ_range c).
      cbn [EncodeToString decodeQuanta]. cbv zeta.
      destruct (sextet_facts (((byteZ a * 256 + byteZ b1) * 256 + byteZ c) / 262144))
        as (-> & _ & _); [div_lia|].
      destruct (sextet_facts (((byteZ a * 256 + byteZ b1) * 256 + byteZ c) / 4096 mod 64))
        as (-> & _ & _); [div_lia|].
      destruct (sextet_facts (((byteZ a * 256 + byteZ b1) * 256 + byteZ c) / 64 mod 64))
        as (-> & Hp3 & _); [div_lia|].
      destruct (sextet_facts (((byteZ a * 256 + byteZ b1) * 256 + byteZ c) mod 64))
        as (-> & Hp4 & _); [div_lia|].
      cbn [mbind option_bind]. rewrite Hp3, Hp4.
      rewrite IH by (simpl in Hn; lia). cbn [mbind option_bind].
      f_equal. f_equal; [apply byteOf_eq; div_lia|].
      f_equal; [apply byteOf_eq; div_lia|].
      f_equal. apply byteOf_eq. div_lia.
Qed.

(** Decoding the encoding of bytes gives the bytes back. *)
Lemma DecodeString_EncodeToString b : DecodeString (EncodeToString b) = Some b.
Proof. unfold DecodeString. by rewrite encode_no_newline, decodeQuanta_encode. Qed.

End Base64.

(** ** internal/traefik/log.go: the log lines of the tester *)

Module TraefikLog.
Import GoBytes GoStrings Json.

(** A value held in an [interface{}] by the decoder of [encoding/json]:
    [nil], a [bool], a [float64] (kept as the literal that denotes it), a
    [string], a [[]interface{}] or a [map[string]interface{}] (kept as its
    members sorted by key, each key once). *)
Abbreviation any := json.

(** The levels of a log line. *)
Definition LogLevelError : string := "error".
Definition LogLevelWarn : string := "warning".
Definition LogLevelInfo : string := "info".
Definition LogLevelDebug : string := "debug".
Definition LogLevelTrace : string := "trace".

(** [Log]; [Fields] is a [map[string]interface{}], [None] when [nil]. *)
Record Log := mkLog {
  Message : string;
  Timestamp : string;
  Level : string;
  Error : string;
  Fields : option (gmap string any);
}.

End TraefikLog.

(** ** internal/experiment/experiment.go: the experiment model and its
       validation *)

Module Experiment.
Import GoBytes GoStrings.

Definition maxDynamicConfigLength : Z := 10 * 1024.
Definition maxURLLength : Z := 1024.
Definition maxBodyLength : Z := 1024.
Definition maxHeaders : Z := 10.
Definition maxHeaderNameLength : Z := 100.
Definition maxHeaderValueLength : Z := 200.

(** [http.Header], a [map[string][]string].  A slice or a map that is [nil]
    is [None]. *)
Abbreviation Header := (gmap string (option (list string))).

(** [h.Set(key, value)]: the key is stored in canonical form and its
    previous values are replaced. *)
Definition Header_Set (h : Header) (key value : string) : Header :=
  <[CanonicalMIMEHeaderKey key := Some [value]]> h.

Record HTTPRequest := mkHTTPRequest {
  Method : string;
  URL : string;
  Headers : option Header;
  Body : string;
}.

Record Experiment := mkExperiment {
  DynamicConfig : string;
  Request : HTTPRequest;
}.

(** [HTTPResponse]; the body is a [[]byte], [None] when [nil]. *)
Record HTTPResponse := mkHTTPResponse {
  Proto : string;
  StatusCode : Z;
  ResponseHeaders : option Header;
  ResponseBody : option (list ascii);
}.

(** [Result]; [Logs] is a [[]traefik.Log], [None] when [nil]. *)
Record Result := mkResult {
  Response : HTTPResponse;
  Logs : option (list TraefikLog.Log);
}.

(** The zero value [Result{}]. *)
Definition zeroResult : Result := mkResult (mkHTTPResponse "" 0 None None) None.

(** The zero values [HTTPRequest{}] and [Experiment{}]. *)
Definition zeroHTTPRequest : HTTPRequest := mkHTTPRequest "" "" None "".
Definition zeroExperiment : Experiment := mkExperiment "" zeroHTTPRequest.

(** The errors of the validator, one constructor for each [errors.New] and
    [fmt.Errorf] of the file, with the arguments of the format. *)
Inductive error :=
| ErrDynamicConfigTooLong
| ErrInvalidDynamicConfig (err : string)
| ErrRequest (err : error)
| ErrMethodRequired
| ErrMethodNotAllowed (method : string)
| ErrURLRequired
| ErrURLTooLong
| ErrBodyTooLong
| ErrURLInvalid
| ErrInvalidHeaderFormat (line : string)
| ErrMissingHeaderName (line : string)
| ErrMissingHeaderValue (line : string)
| ErrHeaderNameTooLong (prefix : string)
| ErrHeaderValueTooLong (name : string)
| ErrInvalidHeaderName (name : string)
| ErrInvalidHeaderValue (name : string)
| ErrTooManyHeaders.

(** A piece of an error message: text, or a string printed with the verb
    [%q] (its Go-syntax quotation, left unevaluated). *)
Inductive chunk :=
| Text (s : string)
| Quoted (s : string).

(** The double quote, as a string. *)
Definition dq : string := String "034" EmptyString.

(** The verb [%d]. *)
Definition decimal (z : Z) : string := pretty z.

(** [err.Error()]. *)
Fixpoint Error (e : error) : list chunk :=
  match e with
  | ErrDynamicConfigTooLong =>
      [Text ("dynamic config too long (max: " ++ decimal maxDynamicConfigLength ++ ")")]
  | ErrInvalidDynamicConfig err => [Text ("invalid dynamic configuration: " ++ err)]
  | ErrRequest err => Text "request: " :: Error err
  | ErrMethodRequired => [Text "method is required"]
  | ErrMethodNotAllowed method => [Text ("method " ++ method ++ " not allowed")]
  | ErrURLRequired => [Text "url is required"]
  | ErrURLTooLong => [Text ("url is too long (max: " ++ decimal maxURLLength ++ ")")]
  | ErrBodyTooLong => [Text ("body is too long (max: " ++ decimal maxBodyLength ++ ")")]
  | ErrURLInvalid => [Text "url is invalid"]
  | ErrInvalidHeaderFormat line =>
      [Text ("invalid header format, want " ++ dq ++ "name: value" ++ dq ++ ", got: ");
       Quoted line]
  | ErrMissingHeaderName line => [Text "missing header name on line: "; Quoted line]
  | ErrMissingHeaderValue line => [Text "missing header value on line: "; Quoted line]
  | ErrHeaderNameTooLong prefix =>
      [Text ("header name is too long for " ++ dq ++ prefix ++ "..." ++ dq ++ " (max "
             ++ decimal maxHeaderNameLength ++ ")")]
  | ErrHeaderValueTooLong name =>
      [Text "header value is too long for "; Quoted name;
       Text (" (max " ++ decimal maxHeaderValueLength ++ ")")]
  | ErrInvalidHeaderName name => [Text "invalid header name "; Quoted name]
  | ErrInvalidHeaderValue name => [Text "invalid header value for "; Quoted name]
  | ErrTooManyHeaders => [Text ("too many headers (max " ++ decimal maxHeaders ++ ")")]
  end.

(** *** parseHeaders *)

(** The checks of one non-blank line, up to the grammar of its name and
    value: the trimmed name and value, or the error of the first check
    that fails. *)
Definition lineHeader (line : string) : error + string * string :=
  match Split line ":" with
  | [part0; part1] =>
      let name := TrimSpace part0 in
      let value := TrimSpace part1 in
      if String.eqb name "" then inl (ErrMissingHeaderName line)
      else if String.eqb value "" then inl (ErrMissingHeaderValue line)
      else if len name >? maxHeaderNameLength
      then inl (ErrHeaderNameTooLong (substring 0 10 name))
      else if len value >? maxHeaderValueLength
      then inl (ErrHeaderValueTooLong name)
      else if negb (Header.ValidHeaderField name) then inl (ErrInvalidHeaderName name)
      else if negb (Header.ValidHeaderValue value) then inl (ErrInvalidHeaderValue name)
      else inr (name, value)
  | _ => inl (ErrInvalidHeaderFormat line)
  end.

(** A blank line, skipped by the loop. *)
Definition blank (line : string) : bool := String.eqb (TrimSpace line) "".

(** One iteration of the loop of [parseHeaders] on the map built so far:
    the new map, or the error returned. *)
Definition parseHeaderLine (headers : Header) (line : string) : error + Header :=
  if blank line then inr headers
  else match lineHeader line with
       | inl e => inl e
       | inr (name, value) =>
           if Z.of_nat (size headers) >=? maxHeaders then inl ErrTooManyHeaders
           else inr (Header_Set headers name value)
       end.

Fixpoint parseHeaderLines (headers : Header) (lines : list string)
  : option Header * option error :=
  match lines with
  | [] => (Some headers, None)
  | line :: rest =>
      match parseHeaderLine headers line with
      | inl e => (None, Some e)
      | inr headers' => parseHeaderLines headers' rest
      end
  end.

Definition newline : ascii := "010".

Definition parseHeaders (rawHeaders : string) : option Header * option error :=
  parseHeaderLines ∅ (Split rawHeaders newline).

(** *** MakeHTTPRequest and MakeExperiment *)

Definition availableMethods : list string := ["GET"; "POST"; "PUT"; "DELETE"; "PATCH"].

(** [slices.Contains]. *)
Definition Contains (l : list string) (s : string) : bool := existsb (String.eqb s) l.

Section Validation.

(** The two checks delegated to libraries: [yaml.Unmarshal] of the
    configuration into Traefik's [dynamic.Configuration] (its error message,
    if any) and [url.ParseRequestURI] (whether it succeeds). *)
Variable yamlUnmarshal : string -> option string.
Variable ParseRequestURI : string -> bool.

Definition MakeHTTPRequest (method url headers body : string)
  : HTTPRequest * option error :=
  if String.eqb method "" then (zeroHTTPRequest, Some ErrMethodRequired)
  else if negb (Contains availableMethods method)
  then (zeroHTTPRequest, Some (ErrMethodNotAllowed method))
  else if String.eqb url "" then (zeroHTTPRequest, Some ErrURLRequired)
  else if len url >? maxURLLength then (zeroHTTPRequest, Some ErrURLTooLong)
  else if len body >? maxBodyLength then (zeroHTTPRequest, Some ErrBodyTooLong)
  else if negb (ParseRequestURI url) then (zeroHTTPRequest, Some ErrURLInvalid)
  else match parseHeaders headers with
       | (_, Some err) => (zeroHTTPRequest, Some err)
       | (parsedHeaders, None) => (mkHTTPRequest method url parsedHeaders body, None)
       end.

Definition MakeExperiment (dynamicConfig method url headers body : string)
  : Experiment * option error :=
  if len dynamicConfig >? maxDynamicConfigLength
  then (zeroExperiment, Some ErrDynamicConfigTooLong)
  else match yamlUnmarshal dynamicConfig with
       | Some err => (zeroExperiment, Some (ErrInvalidDynamicConfig err))
       | None =>
           match MakeHTTPRequest method url headers body with
           | (_, Some err) => (zeroExperiment, Some (ErrRequest err))
           | (req, None) => (mkExperiment dynamicConfig req, None)
           end
       end.

End Validation.

(** *** The header block, line by line *)

(** The name and value that a line contributes: none for a blank line (and
    none for a line that fails a check). *)
Definition lineEntry (line : string) : option (string * string) :=
  if blank line then None
  else match lineHeader line with
       | inr entry => Some entry
       | inl _ => None
       end.

(** A line that the loop accepts on its own: blank, or passing every check
    on the line. *)
Definition lineOK (line : string) : bool :=
  blank line || match lineHeader line with inr _ => true | inl _ => false end.

(** The entries of the non-blank lines of a block, in order. *)
Definition entries (rawHeaders : string) : list (string * string) :=
  omap lineEntry (Split rawHeaders newline).

(** The canonical name of an entry. *)
Definition canonicalName (entry : string * string) : string :=
  CanonicalMIMEHeaderKey entry.1.

(** The number of distinct canonical names of a list of entries. *)
Definition distinctNames (es : list (string * string)) : nat :=
  size (list_to_set (canonicalName <$> es) : gset string).

(** The map obtained by storing the entries in order, without any cap. *)
Definition storeAll (h : Header) (es : list (string * string)) : Header :=
  foldl (fun h entry => Header_Set h entry.1 entry.2) h es.

(** The loop of [parseHeaders] on entries: the cap is tested before each
    entry is stored. *)
Fixpoint storeCapped (h : Header) (es : list (string * string))
  : option Header * option error :=
  match es with
  | [] => (Some h, None)
  | entry :: rest =>
      if Z.of_nat (size h) >=? maxHeaders then (None, Some ErrTooManyHeaders)
      else storeCapped (Header_Set h entry.1 entry.2) rest
  end.

Lemma parseHeaderLines_entries h lines :
  forallb lineOK lines = true ->
  parseHeaderLines h lines = storeCapped h (omap lineEntry lines).
Proof.
  revert h. induction lines as [|line rest IH]; intros h Hok; [done|].
  simpl in Hok. apply andb_prop in Hok as [Hline Hrest].
  cbn [parseHeaderLines omap list_omap]. unfold parseHeaderLine, lineEntry.
  unfold lineOK in Hline.
  destruct (blank line); simpl in *; [by apply IH|].
  destruct (lineHeader line) as [e|[name value]]; [done|].
  cbn [storeCapped fst snd].
  destruct (Z.of_nat (size h) >=? maxHeaders); [done|by apply IH].
Qed.

Lemma storeAll_snoc h es entry :
  storeAll h (es ++ [entry]) = Header_Set (storeAll h es) entry.1 entry.2.
Proof. unfold storeAll. by rewrite foldl_app. Qed.

Lemma dom_storeAll h es :
  dom (storeAll h es) = dom h ∪ list_to_set (canonicalName <$> es).
Proof.
  revert h. induction es as [|entry rest IH]; intros h; simpl.
  - set_solver.
  - rewrite IH. unfold Header_Set, canonicalName. rewrite dom_insert_L. set_solver.
Qed.

Lemma size_storeAll_empty es : size (storeAll ∅ es) = distinctNames es.
Proof.
  unfold distinctNames. rewrite <- size_dom, dom_storeAll, dom_empty_L.
  f_equal. set_solver.
Qed.

Lemma size_Header_Set h key value :
  (size h <= size (Header_Set h key value) <= S (size h))%nat.
Proof.
  unfold Header_Set. rewrite map_size_insert.
  destruct (h !! CanonicalMIMEHeaderKey key); simpl; lia.
Qed.

Lemma storeCapped_snoc h es entry :
  storeCapped h (es ++ [entry]) =
  match storeCapped h es with
  | (Some h', None) =>
      if Z.of_nat (size h') >=? maxHeaders then (None, Some ErrTooManyHeaders)
      else (Some (Header_Set h' entry.1 entry.2), None)
  | r => r
  end.
Proof.
  revert h. induction es as [|e rest IH]; intros h; simpl.
  - by destruct (Z.of_nat (size h) >=? maxHeaders).
  - destruct (Z.of_nat (size h) >=? maxHeaders); [done|]. apply IH.
Qed.

(** The loop succeeds exactly when the entries before the last one leave
    fewer than [maxHeaders] names in the map. *)
Lemma storeCapped_char h es :
  storeCapped h es =
  if decide (es = [] \/ (size (storeAll h (removelast es)) < 10)%nat)
  then (Some (storeAll h es), None)
  else (None, Some ErrTooManyHeaders).
Proof.
  induction es as [|entry es IH] using rev_ind.
  - case_decide as Hd; [done|]. destruct Hd. by left.
  - rewrite storeCapped_snoc, IH, removelast_last, storeAll_snoc.
    unfold maxHeaders.
    destruct (decide (es = [] \/ (size (storeAll h (removelast es)) < 10)%nat))
      as [Hes|Hes].
    + destruct (Z.of_nat (size (storeAll h es)) >=? 10) eqn:Hsz;
        rewrite Z.geb_leb in Hsz; [apply Z.leb_le in Hsz|apply Z.leb_gt in Hsz].
      * case_decide as Hd; [|done]. destruct Hd as [Hnil|Hlt]; [by destruct es|exfalso; clear -Hsz Hlt; lia].
      * case_decide as Hd; [done|]. destruct Hd. right. clear -Hsz. lia.
    + case_decide as Hd; [|done]. destruct Hd as [Hnil|Hlt]; [by destruct es|].
      destruct Hes.
      destruct es as [|e0 es0 _] using rev_ind; [by left|right].
      rewrite removelast_last. rewrite storeAll_snoc in Hlt.
      pose proof (size_Header_Set (storeAll h es0) e0.1 e0.2) as Hle.
      clear -Hlt Hle. lia.
Qed.

Lemma parseHeaders_char rawHeaders :
  forallb lineOK (Split rawHeaders newline) = true ->
  parseHeaders rawHeaders =
  if decide (distinctNames (removelast (entries rawHeaders)) < 10)%nat
  then (Some (storeAll ∅ (entries rawHeaders)), None)
  else (None, Some ErrTooManyHeaders).
Proof.
  intros Hok. unfold parseHeaders. rewrite parseHeaderLines_entries by done.
  fold (entries rawHeaders). rewrite storeCapped_char, size_storeAll_empty.
  generalize (entries rawHeaders). intros es.
  destruct (decide (es = [] \/ (distinctNames (removelast es) < 10)%nat))
    as [[->|Hlt]|Hno].
  - rewrite decide_True; [done|]. simpl.
    replace (distinctNames []) with 0%nat by (by vm_compute). lia.
  - by rewrite decide_True.
  - rewrite decide_False; [done|]. intros Hlt. apply Hno. by right.
Qed.

Lemma distinctNames_NoDup es :
  NoDup (canonicalName <$> es) -> distinctNames es = length es.
Proof.
  intros Hnd. unfold distinctNames.
  rewrite size_list_to_set by done. by rewrite length_fmap.
Qed.

Lemma distinctNames_le_length es : (distinctNames es <= length es)%nat.
Proof.
  induction es as [|e es IH].
  - replace (distinctNames []) with 0%nat by (by vm_compute). done.
  - unfold distinctNames in *. rewrite fmap_cons, list_to_set_cons, size_union_alt.
    rewrite size_singleton.
    assert (size (list_to_set (canonicalName <$> es) ∖ {[canonicalName e]} : gset string)
            <= size (list_to_set (canonicalName <$> es) : gset string))%nat as Hle
      by (apply subseteq_size; set_solver).
    simpl. clear -IH Hle. lia.
Qed.

(** *** The order of the checks *)

(** The first violation of a list of checks, each giving its error when it
    is violated. *)
Fixpoint firstViolation (checks : list (option error)) : option error :=
  match checks with
  | [] => None
  | Some e :: _ => Some e
  | None :: rest => firstViolation rest
  end.

Definition violated (b : bool) (e : error) : option error :=
  if b then Some e else None.

Section Order.

Variable yamlUnmarshal : string -> option string.
Variable ParseRequestURI : string -> bool.
Variables dynamicConfig method url headers body : string.

Definition checkConfigLength : option error :=
  violated (len dynamicConfig >? maxDynamicConfigLength) ErrDynamicConfigTooLong.
Definition checkConfigGrammar : option error :=
  ErrInvalidDynamicConfig <$> yamlUnmarshal dynamicConfig.
Definition checkMethodGiven : option error :=
  violated (String.eqb method "") (ErrRequest ErrMethodRequired).
Definition checkMethodAllowed : option error :=
  violated (negb (Contains availableMethods method))
           (ErrRequest (ErrMethodNotAllowed method)).
Definition checkURLGiven : option error :=
  violated (String.eqb url "") (ErrRequest ErrURLRequired).
Definition checkURLLength : option error :=
  violated (len url >? maxURLLength) (ErrRequest ErrURLTooLong).
Definition checkURLParses : option error :=
  violated (negb (ParseRequestURI url)) (ErrRequest ErrURLInvalid).
Definition checkBodyLength : option error :=
  violated (len body >? maxBodyLength) (ErrRequest ErrBodyTooLong).
Definition checkHeaders : option error :=
  ErrRequest <$> (parseHeaders headers).2.

(** The order of the specification: configuration length, configuration
    grammar, method, url given, bounded and parseable, body length, header
    block. *)
Definition specOrder : list (option error) :=
  [checkConfigLength; checkConfigGrammar; checkMethodGiven; checkMethodAllowed;
   checkURLGiven; checkURLLength; checkURLParses; checkBodyLength; checkHeaders].

(** The order of the code: the length of the body is tested before the url
    is parsed. *)
Definition codeOrder : list (option error) :=
  [checkConfigLength; checkConfigGrammar; checkMethodGiven; checkMethodAllowed;
   checkURLGiven; checkURLLength; checkBodyLength; checkURLParses; checkHeaders].

End Order.

(** A body of 1025 bytes. *)
Definition longBody : string := str (repeat "a"%char 1025).

(** The header block of the test of the repository: a blank line and eleven
    lines with the names X-Header-1 to X-Header-11. *)
Definition elevenHeaders : string := "
X-Header-1: value
X-Header-2: value
X-Header-3: value
X-Header-4: value
X-Header-5: value
X-Header-6: value
X-Header-7: value
X-Header-8: value
X-Header-9: value
X-Header-10: value
X-Header-11: value".

Definition tenHeaders : string := "X-Header-1: value
X-Header-2: value
X-Header-3: value
X-Header-4: value
X-Header-5: value
X-Header-6: value
X-Header-7: value
X-Header-8: value
X-Header-9: value
X-Header-10: value".

(** Ten distinct names followed by a line that repeats the first one in
    another case. *)
Definition tenHeadersAndRepeat : string := "X-Header-1: value
X-Header-2: value
X-Header-3: value
X-Header-4: value
X-Header-5: value
X-Header-6: value
X-Header-7: value
X-Header-8: value
X-Header-9: value
X-Header-10: value
x-header-1: again".

(** Twelve lines on two names. *)
Definition twoNamesTwelveLines : string := "content-type: a
Accept: b
Content-Type: c
accept: d
CONTENT-TYPE: e
ACCEPT: f
content-Type: g
aCCEPT: h
Content-type: i
Accept: j
content-type: application/json
accept: text/plain".

Example two_names_stored :
  (parseHeaders twoNamesTwelveLines).1 =
  Some (<["Accept" := Some ["text/plain"]]>
        (<["Content-Type" := Some ["application/json"]]> ∅)).
Proof. by vm_compute. Qed.

(** **** Canonical names *)

Definition canonicalByte (upper : bool) (c : Z) : Z :=
  if upper && (97 <=? c) && (c <=? 122) then c - 32
  else if negb upper && (65 <=? c) && (c <=? 90) then c + 32
  else c.

Lemma canonicalBytes_cons upper a rest :
  canonicalBytes upper (a :: rest) =
  byteOf (canonicalByte upper (byteZ a))
  :: canonicalBytes (canonicalByte upper (byteZ a) =? 45) rest.
Proof. reflexivity. Qed.

Lemma canonicalByte_facts (upper : bool) a :
  let c' := canonicalByte upper (byteZ a) in
  Header.validHeaderFieldByte (byteZ a) = true ->
  byteZ (byteOf c') = c' /\
  Header.validHeaderFieldByte c' = true /\
  canonicalByte upper c' = c'.
Proof.
  intros c'. subst c'.
  set (P := fun a =>
    implb (Header.validHeaderFieldByte (byteZ a))
      (let c' := canonicalByte upper (byteZ a) in
       (byteZ (byteOf c') =? c') && Header.validHeaderFieldByte c'
       && (canonicalByte upper c' =? c'))).
  assert (P a = true) as HP.
  { apply forall_bytes. destruct upper; vm_compute; reflexivity. }
  unfold P in HP. intros Hv. rewrite Hv in HP. simpl in HP.
  apply andb_prop in HP as [HP H3]. apply andb_prop in HP as [H1 H2].
  apply Z.eqb_eq in H1, H3. done.
Qed.

Lemma canonicalBytes_idem upper b :
  Header.allBytes Header.validHeaderFieldByte b = true ->
  Header.allBytes Header.validHeaderFieldByte (canonicalBytes upper b) = true /\
  canonicalBytes upper (canonicalBytes upper b) = canonicalBytes upper b.
Proof.
  revert upper. induction b as [|a rest IH]; intros upper Hv; [done|].
  simpl in Hv. destruct (Header.validHeaderFieldByte (byteZ a)) eqn:Ha; [|done].
  simpl in Hv. destruct (canonicalByte_facts upper a Ha) as (H1 & H2 & H3).
  rewrite canonicalBytes_cons. rewrite canonicalBytes_cons.
  cbn [Header.allBytes]. rewrite H1, H2, H3. simpl.
  destruct (IH (canonicalByte upper (byteZ a) =? 45) Hv) as [IH1 IH2].
  split; [done|]. by rewrite IH2.
Qed.

(** The canonical form of a valid name is valid and is its own canonical
    form. *)
Lemma CanonicalMIMEHeaderKey_idem s :
  CanonicalMIMEHeaderKey (CanonicalMIMEHeaderKey s) = CanonicalMIMEHeaderKey s.
Proof.
  unfold CanonicalMIMEHeaderKey at 2 3.
  destruct (Header.ValidHeaderField s) eqn:Hv.
  - unfold Header.ValidHeaderField in Hv.
    destruct (canonicalBytes_idem true (bytes s) Hv) as [H1 H2].
    unfold CanonicalMIMEHeaderKey, Header.ValidHeaderField.
    rewrite bytes_str, H1. by rewrite H2.
  - unfold CanonicalMIMEHeaderKey. by rewrite Hv.
Qed.

Lemma storeAll_lookup_last h p name value s :
  CanonicalMIMEHeaderKey name ∉ (canonicalName <$> s) ->
  storeAll h (p ++ (name, value) :: s) !! CanonicalMIMEHeaderKey name
  = Some (Some [value]).
Proof.
  intros Hnot. unfold storeAll. rewrite foldl_app. simpl.
  generalize (foldl (fun h entry => Header_Set h entry.1 entry.2) h p). intros h0.
  assert (Header_Set h0 name value !! CanonicalMIMEHeaderKey name = Some (Some [value]))
    as Hl by apply lookup_insert_eq.
  revert Hl. generalize (Header_Set h0 name value). clear h0.
  induction s as [|e s IH]; intros h0 Hl; [done|]. simpl.
  apply IH.
  - intros Hin. apply Hnot. rewrite fmap_cons. by apply list_elem_of_further.
  - unfold Header_Set. rewrite lookup_insert_ne; [done|].
    intros Heq. apply Hnot. rewrite fmap_cons. unfold canonicalName at 1.
    rewrite Heq. apply list_elem_of_here.
Qed.

Lemma NoDup_removelast {A} (l : list A) : NoDup l -> NoDup (removelast l).
Proof.
  destruct l as [|x l _] using rev_ind; [done|].
  rewrite removelast_last. by intros [? _]%NoDup_app.
Qed.

Lemma fmap_removelast {A B} (f : A -> B) (l : list A) :
  f <$> removelast l = removelast (f <$> l).
Proof.
  destruct l as [|x l _] using rev_ind; [done|].
  rewrite removelast_last, fmap_app. simpl. by rewrite removelast_last.
Qed.

Lemma length_removelast {A} (l : list A) :
  length (removelast l) = Nat.pred (length l).
Proof.
  destruct l as [|x l _] using rev_ind; [done|].
  rewrite removelast_last, length_app. simpl. lia.
Qed.

(** *** The properties of the validator *)

(** C4, as the code has it.  [MakeExperiment] (with [MakeHTTPRequest])
    returns the error of the first violated check in this order:
    configuration length cap, configuration grammar, method given, method in
    the allow-list, url given, url bounded, body length cap, url parseable,
    header block; the length of the body is tested before the url is parsed.
    On a failure the experiment returned is the zero value, never a partial
    one; with no violation it is the experiment built from the inputs. *)
Theorem validation_order
    (yamlUnmarshal : string -> option string) (ParseRequestURI : string -> bool)
    (dynamicConfig method url headers body : string) :
  MakeExperiment yamlUnmarshal ParseRequestURI dynamicConfig method url headers body =
  match firstViolation
          (codeOrder yamlUnmarshal ParseRequestURI dynamicConfig method url headers body)
  with
  | Some e => (zeroExperiment, Some e)
  | None =>
      (mkExperiment dynamicConfig
         (mkHTTPRequest method url (parseHeaders headers).1 body), None)
  end.
Proof.
  unfold MakeExperiment, MakeHTTPRequest, codeOrder, checkConfigLength,
    checkConfigGrammar, checkMethodGiven, checkMethodAllowed, checkURLGiven,
    checkURLLength, checkBodyLength, checkURLParses, checkHeaders, violated.
  cbn [firstViolation].
  destruct (len dynamicConfig >? maxDynamicConfigLength); [done|].
  destruct (yamlUnmarshal dynamicConfig) as [err|]; [done|]. cbn [fmap option_fmap option_map firstViolation].
  destruct (String.eqb method ""); [done|].
  destruct (Contains availableMethods method); simpl; [|done].
  destruct (String.eqb url ""); [done|].
  destruct (len url >? maxURLLength); [done|].
  destruct (len body >? maxBodyLength); [done|].
  destruct (ParseRequestURI url); simpl; [|done].
  by destruct (parseHeaders headers) as [h [e|]].
Qed.

(** C4, the claim as stated fails: with an unparseable url and a body over
    the cap the error reported is the one of the body, where the order of
    the specification gives the one of the url. *)
Lemma validation_order_body_before_url :
  (forall (yamlUnmarshal : string -> option string) (ParseRequestURI : string -> bool),
     yamlUnmarshal "http: {}" = None ->
     ParseRequestURI "not-a-url" = false ->
     MakeExperiment yamlUnmarshal ParseRequestURI "http: {}" "GET" "not-a-url" "" longBody
     = (zeroExperiment, Some (ErrRequest ErrBodyTooLong)) /\
     firstViolation
       (specOrder yamlUnmarshal ParseRequestURI "http: {}" "GET" "not-a-url" "" longBody)
     = Some (ErrRequest ErrURLInvalid)) /\
  len longBody = 1025 /\
  ErrRequest ErrBodyTooLong <> ErrRequest ErrURLInvalid.
Proof.
  split; [|split; [by vm_compute|done]].
  intros yamlUnmarshal ParseRequestURI Hyaml Hurl. split.
  - unfold MakeExperiment, MakeHTTPRequest. rewrite Hyaml. by vm_compute.
  - unfold specOrder, checkConfigGrammar, checkURLParses.
    rewrite Hyaml, Hurl. by vm_compute.
Qed.

(** C8, with the message of the code.  A header block whose non-blank
    lines are individually valid and carry pairwise distinct (canonical)
    names is rejected with the error "too many headers (max 10)" when it has
    11 such lines, and accepted, with 10 headers stored, when it has 10. *)
Theorem too_many_headers (rawHeaders : string) :
  forallb lineOK (Split rawHeaders newline) = true ->
  NoDup (canonicalName <$> entries rawHeaders) ->
  (length (entries rawHeaders) = 11%nat ->
     parseHeaders rawHeaders = (None, Some ErrTooManyHeaders) /\
     Error ErrTooManyHeaders = [Text "too many headers (max 10)"]) /\
  (length (entries rawHeaders) = 10%nat ->
     parseHeaders rawHeaders = (Some (storeAll ∅ (entries rawHeaders)), None) /\
     size (storeAll ∅ (entries rawHeaders)) = 10%nat).
Proof.
  intros Hok Hnd. rewrite parseHeaders_char by done.
  assert (distinctNames (removelast (entries rawHeaders))
          = Nat.pred (length (entries rawHeaders))) as Hdn.
  { rewrite distinctNames_NoDup, length_removelast; [done|].
    rewrite fmap_removelast. by apply NoDup_removelast. }
  rewrite Hdn. split; intros Hlen; rewrite Hlen.
  - split; [|by vm_compute]. by rewrite decide_False by (simpl; lia).
  - rewrite decide_True by (simpl; lia). split; [done|].
    by rewrite size_storeAll_empty, distinctNames_NoDup.
Qed.

Lemma too_many_headers_witness :
  (parseHeaders elevenHeaders = (None, Some ErrTooManyHeaders) /\
   Error ErrTooManyHeaders = [Text "too many headers (max 10)"]) /\
  (parseHeaders tenHeaders = (Some (storeAll ∅ (entries tenHeaders)), None) /\
   size (storeAll ∅ (entries tenHeaders)) = 10%nat).
Proof.
  split.
  - apply (too_many_headers elevenHeaders).
    + by vm_compute.
    + apply (bool_decide_unpack _). by vm_compute.
    + by vm_compute.
  - apply (too_many_headers tenHeaders).
    + by vm_compute.
    + apply (bool_decide_unpack _). by vm_compute.
    + by vm_compute.
Defined.

(** C8, the claim as stated fails on the text of the error: the message of
    the rejection is "too many headers (max 10)". *)
Lemma too_many_headers_message :
  parseHeaders elevenHeaders = (None, Some ErrTooManyHeaders) /\
  Error ErrTooManyHeaders = [Text "too many headers (max 10)"] /\
  Error ErrTooManyHeaders <> [Text "too many headers, max 10"].
Proof. split; [by vm_compute|]. split; [by vm_compute|]. by vm_compute. Qed.

(** C10, as the code has it.  For a header block whose non-blank lines are
    individually valid: a line whose name has the canonical form of the name
    of an earlier line replaces the earlier value (the map holds, under the
    canonical name, the single value of the last such line), so the number
    of headers stored is the number of distinct canonical names; the cap is
    tested before each line against the names stored so far, so the block
    is accepted exactly when the lines before its last non-blank line carry
    fewer than 10 distinct canonical names, in particular whenever the
    distinct canonical names number at most 9, however many lines there
    are, and is rejected with "too many headers" otherwise; the names
    stored are in canonical form. *)
Theorem repeated_header_names (rawHeaders : string) :
  forallb lineOK (Split rawHeaders newline) = true ->
  parseHeaders rawHeaders =
    (if decide (distinctNames (removelast (entries rawHeaders)) < 10)%nat
     then (Some (storeAll ∅ (entries rawHeaders)), None)
     else (None, Some ErrTooManyHeaders)) /\
  ((distinctNames (entries rawHeaders) <= 9)%nat ->
     parseHeaders rawHeaders = (Some (storeAll ∅ (entries rawHeaders)), None)) /\
  size (storeAll ∅ (entries rawHeaders)) = distinctNames (entries rawHeaders) /\
  (forall p name value s,
     entries rawHeaders = p ++ (name, value) :: s ->
     CanonicalMIMEHeaderKey name ∉ (canonicalName <$> s) ->
     storeAll ∅ (entries rawHeaders) !! CanonicalMIMEHeaderKey name
     = Some (Some [value])) /\
  (forall key, key ∈ dom (storeAll ∅ (entries rawHeaders)) ->
     (exists entry, entry ∈ entries rawHeaders /\ key = CanonicalMIMEHeaderKey entry.1) /\
     CanonicalMIMEHeaderKey key = key).
Proof.
  intros Hok. split; [by apply parseHeaders_char|]. split; [|split; [|split]].
  - intros Hle. rewrite parseHeaders_char by done.
    rewrite decide_True; [done|].
    assert (distinctNames (removelast (entries rawHeaders))
            <= distinctNames (entries rawHeaders))%nat as Hmono.
    { unfold distinctNames. apply subseteq_size.
      destruct (entries rawHeaders) as [|x l _] using rev_ind; [done|].
      rewrite removelast_last, fmap_app. set_solver. }
    clear -Hle Hmono. lia.
  - apply size_storeAll_empty.
  - intros p name value s -> Hnot. by apply storeAll_lookup_last.
  - intros key Hkey. rewrite dom_storeAll, dom_empty_L in Hkey.
    assert (key ∈ canonicalName <$> entries rawHeaders) as Hin by set_solver.
    apply list_elem_of_fmap in Hin as (entry & -> & Hentry).
    split; [by exists entry|]. apply CanonicalMIMEHeaderKey_idem.
Qed.

Lemma repeated_header_names_witness :
  parseHeaders twoNamesTwelveLines
  = (Some (storeAll ∅ (entries twoNamesTwelveLines)), None)
  /\ length (entries twoNamesTwelveLines) = 12%nat
  /\ size (storeAll ∅ (entries twoNamesTwelveLines)) = 2%nat.
Proof.
  destruct (repeated_header_names twoNamesTwelveLines) as (_ & Hacc & Hsize & _).
  - by vm_compute.
  - split; [|split].
    + apply Hacc. vm_compute. lia.
    + vm_compute. reflexivity.
    + rewrite Hsize. vm_compute. reflexivity.
Defined.

(** C10, the claim as stated fails: ten distinct names followed by a line
    that repeats one of them make eleven non-blank lines on ten distinct
    canonical names, and the block is rejected. *)
Lemma repeated_name_after_ten_rejected :
  forallb lineOK (Split tenHeadersAndRepeat newline) = true /\
  length (entries tenHeadersAndRepeat) = 11%nat /\
  distinctNames (entries tenHeadersAndRepeat) = 10%nat /\
  parseHeaders tenHeadersAndRepeat = (None, Some ErrTooManyHeaders).
Proof. repeat split; by vm_compute. Qed.


(** *** Facts about [strings.Split] and [strings.TrimSpace] *)

(** The number of occurrences of a byte in a string. *)
Fixpoint countByte (sep : ascii) (s : string) : nat :=
  match s with
  | EmptyString => 0%nat
  | String c rest => ((if Ascii.eqb c sep then 1 else 0) + countByte sep rest)%nat
  end.

Lemma Split_length s sep : length (Split s sep) = S (countByte sep s).
Proof.
  induction s as [|c rest IH]; [done|]. simpl.
  destruct (Ascii.eqb c sep); simpl; [by rewrite IH|].
  destruct (Split rest sep) as [|piece pieces]; simpl in *; lia.
Qed.

(** The pieces of a split hold no separator. *)
Lemma Split_pieces s sep :
  Forall (fun piece => countByte sep piece = 0%nat) (Split s sep).
Proof.
  induction s as [|c rest IH]; simpl; [by repeat constructor|].
  destruct (Ascii.eqb c sep) eqn:Hc; [by constructor|].
  destruct (Split rest sep) as [|piece pieces]; simpl.
  - repeat constructor. simpl. by rewrite Hc.
  - inversion IH; subst. constructor; [|done]. simpl. by rewrite Hc.
Qed.

Lemma Split_none s sep : countByte sep s = 0%nat -> Split s sep = [s].
Proof.
  induction s as [|c rest IH]; [done|]. simpl.
  destruct (Ascii.eqb c sep); [done|]. intros H. by rewrite IH.
Qed.

Lemma Split_first s sep rest :
  countByte sep s = 0%nat -> Split (s ++ String sep rest) sep = s :: Split rest sep.
Proof.
  induction s as [|c s IH]; simpl.
  - by rewrite Ascii.eqb_refl.
  - destruct (Ascii.eqb c sep); [done|]. intros H. by rewrite IH.
Qed.

Lemma Split_Join lines sep :
  lines <> [] -> Forall (fun line => countByte sep line = 0%nat) lines ->
  Split (Join lines sep) sep = lines.
Proof.
  induction lines as [|line rest IH]; [done|]. intros _ Hall.
  inversion Hall as [|? ? Hline Hrest]; subst.
  destruct rest as [|line2 rest].
  - simpl. by apply Split_none.
  - change (Join (line :: line2 :: rest) sep)
      with (line ++ String sep (Join (line2 :: rest) sep))%string.
    rewrite Split_first by done. by rewrite IH.
Qed.

Lemma countByte_app sep s1 s2 :
  countByte sep (s1 ++ s2) = (countByte sep s1 + countByte sep s2)%nat.
Proof. induction s1 as [|c s1 IH]; [done|]. simpl. rewrite IH. lia. Qed.

Lemma countByte_bytes sep s :
  countByte sep s = 0%nat <-> Forall (fun a => a <> sep) (bytes s).
Proof.
  induction s as [|c s IH]; simpl.
  - split; [constructor|done].
  - destruct (Ascii.eqb_spec c sep) as [->|Hne].
    + split; [done|]. inversion 1; congruence.
    + simpl. rewrite IH. split; [by constructor|by inversion 1].
Qed.

(** Induction on a list by its tail, the tail of its tail and the tail of
    that one, as [trimLeftSpace] recurses. *)
Lemma list_ind3 {A} (P : list A -> Prop) :
  P [] ->
  (forall a t,
     P t -> (forall c2 t2, t = c2 :: t2 -> P t2) ->
     (forall c2 c3 t3, t = c2 :: c3 :: t3 -> P t3) -> P (a :: t)) ->
  forall l, P l.
Proof.
  intros Hnil Hcons l.
  assert (forall n l, (length l <= n)%nat -> P l) as Hn.
  { clear l. induction n as [|n IH]; intros l Hl.
    - destruct l; [done|simpl in Hl; lia].
    - destruct l as [|a t]; [done|]. simpl in Hl. apply Hcons.
      + apply IH. lia.
      + intros c2 t2 ->. apply IH. simpl in Hl. lia.
      + intros c2 c3 t3 ->. apply IH. simpl in Hl. lia. }
  by apply (Hn (length l)).
Qed.

(** What is left of a trim is the end of the bytes. *)
Lemma trimLeftSpace_suffix b : exists p, b = p ++ trimLeftSpace b.
Proof.
  induction b as [|c1 t1 IH1 IH2 IH3] using list_ind3; [by exists []|].
  cbn [trimLeftSpace].
  destruct (asciiSpace (byteZ c1)).
  { destruct IH1 as [p Hp]. exists (c1 :: p). by rewrite <- app_comm_cons, <- Hp. }
  destruct t1 as [|c2 t2]; [by exists []|].
  destruct (space2 (byteZ c1) (byteZ c2)).
  { destruct (IH2 c2 t2 eq_refl) as [p Hp]. exists (c1 :: c2 :: p).
    by rewrite <- !app_comm_cons, <- Hp. }
  destruct t2 as [|c3 t3]; [by exists []|].
  destruct (space3 (byteZ c1) (byteZ c2) (byteZ c3)); [|by exists []].
  destruct (IH3 c2 c3 t3 eq_refl) as [p Hp]. exists (c1 :: c2 :: c3 :: p).
  by rewrite <- !app_comm_cons, <- Hp.
Qed.

Lemma trimLeftSpaceRev_suffix b : exists p, b = p ++ trimLeftSpaceRev b.
Proof.
  induction b as [|c1 t1 IH1 IH2 IH3] using list_ind3; [by exists []|].
  cbn [trimLeftSpaceRev].
  destruct (asciiSpace (byteZ c1)).
  { destruct IH1 as [p Hp]. exists (c1 :: p). by rewrite <- app_comm_cons, <- Hp. }
  destruct t1 as [|c2 t2]; [by exists []|].
  destruct (space2 (byteZ c2) (byteZ c1)).
  { destruct (IH2 c2 t2 eq_refl) as [p Hp]. exists (c1 :: c2 :: p).
    by rewrite <- !app_comm_cons, <- Hp. }
  destruct t2 as [|c3 t3]; [by exists []|].
  destruct (space3 (byteZ c3) (byteZ c2) (byteZ c1)); [|by exists []].
  destruct (IH3 c2 c3 t3 eq_refl) as [p Hp]. exists (c1 :: c2 :: c3 :: p).
  by rewrite <- !app_comm_cons, <- Hp.
Qed.

(** No white space at the head of the bytes. *)
Definition headNoSpace (b : list ascii) : bool :=
  match b with
  | [] => true
  | c1 :: t1 =>
      negb (asciiSpace (byteZ c1))
      && match t1 with
         | [] => true
         | c2 :: t2 =>
             negb (space2 (byteZ c1) (byteZ c2))
             && match t2 with
                | [] => true
                | c3 :: _ => negb (space3 (byteZ c1) (byteZ c2) (byteZ c3))
                end
         end
  end.

(** No white space at the head of the reversed bytes. *)
Definition lastNoSpace (b : list ascii) : bool :=
  match b with
  | [] => true
  | c1 :: t1 =>
      negb (asciiSpace (byteZ c1))
      && match t1 with
         | [] => true
         | c2 :: t2 =>
             negb (space2 (byteZ c2) (byteZ c1))
             && match t2 with
                | [] => true
                | c3 :: _ => negb (space3 (byteZ c3) (byteZ c2) (byteZ c1))
                end
         end
  end.

Lemma trimLeftSpace_fixed b : headNoSpace b = true -> trimLeftSpace b = b.
Proof.
  destruct b as [|c1 [|c2 [|c3 t3]]]; simpl; try done.
  - by destruct (asciiSpace (byteZ c1)).
  - destruct (asciiSpace (byteZ c1)); [done|]. by destruct (space2 _ _).
  - destruct (asciiSpace (byteZ c1)); [done|]. destruct (space2 _ _); [done|].
    by destruct (space3 _ _ _).
Qed.

Lemma trimLeftSpaceRev_fixed b : lastNoSpace b = true -> trimLeftSpaceRev b = b.
Proof.
  destruct b as [|c1 [|c2 [|c3 t3]]]; simpl; try done.
  - by destruct (asciiSpace (byteZ c1)).
  - destruct (asciiSpace (byteZ c1)); [done|]. by destruct (space2 _ _).
  - destruct (asciiSpace (byteZ c1)); [done|]. destruct (space2 _ _); [done|].
    by destruct (space3 _ _ _).
Qed.

Lemma trimLeftSpace_head b : headNoSpace (trimLeftSpace b) = true.
Proof.
  induction b as [|c1 t1 IH1 IH2 IH3] using list_ind3; [done|].
  cbn [trimLeftSpace].
  destruct (asciiSpace (byteZ c1)) eqn:H1; [done|].
  destruct t1 as [|c2 t2]; [by simpl; rewrite H1|].
  destruct (space2 (byteZ c1) (byteZ c2)) eqn:H2; [by apply (IH2 c2 t2)|].
  destruct t2 as [|c3 t3]; [by simpl; rewrite H1, H2|].
  destruct (space3 (byteZ c1) (byteZ c2) (byteZ c3)) eqn:H3; [by apply (IH3 c2 c3 t3)|].
  simpl. by rewrite H1, H2, H3.
Qed.

Lemma trimLeftSpaceRev_head b : lastNoSpace (trimLeftSpaceRev b) = true.
Proof.
  induction b as [|c1 t1 IH1 IH2 IH3] using list_ind3; [done|].
  cbn [trimLeftSpaceRev].
  destruct (asciiSpace (byteZ c1)) eqn:H1; [done|].
  destruct t1 as [|c2 t2]; [by simpl; rewrite H1|].
  destruct (space2 (byteZ c2) (byteZ c1)) eqn:H2; [by apply (IH2 c2 t2)|].
  destruct t2 as [|c3 t3]; [by simpl; rewrite H1, H2|].
  destruct (space3 (byteZ c3) (byteZ c2) (byteZ c1)) eqn:H3; [by apply (IH3 c2 c3 t3)|].
  simpl. by rewrite H1, H2, H3.
Qed.

(** A beginning of bytes without white space at their head has none
    either. *)
Lemma headNoSpace_prefix z w : headNoSpace (z ++ w) = true -> headNoSpace z = true.
Proof.
  destruct z as [|c1 [|c2 [|c3 t3]]]; simpl; try done.
  - intros H. apply andb_prop in H as [-> _]. done.
  - intros H. apply andb_prop in H as [-> H]. apply andb_prop in H as [-> _]. done.
Qed.

(** The bytes of a trimmed string have no white space at either end. *)
Lemma TrimSpace_ends s :
  headNoSpace (bytes (TrimSpace s)) = true /\
  lastNoSpace (rev (bytes (TrimSpace s))) = true.
Proof.
  unfold TrimSpace. rewrite bytes_str, rev_involutive.
  split; [|apply trimLeftSpaceRev_head].
  destruct (trimLeftSpaceRev_suffix (rev (trimLeftSpace (bytes s)))) as [p Hp].
  apply (headNoSpace_prefix _ (rev p)).
  rewrite <- rev_app_distr, <- Hp, rev_involutive. apply trimLeftSpace_head.
Qed.

(** A string without white space at either end is its own trim. *)
Lemma TrimSpace_fixed s :
  headNoSpace (bytes s) = true -> lastNoSpace (rev (bytes s)) = true ->
  TrimSpace s = s.
Proof.
  intros H1 H2. unfold TrimSpace.
  rewrite trimLeftSpace_fixed, trimLeftSpaceRev_fixed by done.
  by rewrite rev_involutive, str_bytes.
Qed.

(** [strings.TrimSpace] is idempotent. *)
Lemma TrimSpace_idem s : TrimSpace (TrimSpace s) = TrimSpace s.
Proof. destruct (TrimSpace_ends s). by apply TrimSpace_fixed. Qed.

(** The bytes of the trim are bytes of the string. *)
Lemma TrimSpace_Forall (P : ascii -> Prop) s :
  Forall P (bytes s) -> Forall P (bytes (TrimSpace s)).
Proof.
  intros H. unfold TrimSpace. rewrite bytes_str.
  destruct (trimLeftSpace_suffix (bytes s)) as [p Hp].
  destruct (trimLeftSpaceRev_suffix (rev (trimLeftSpace (bytes s)))) as [q Hq].
  rewrite Hp in H. apply Forall_app in H as [_ H].
  apply Forall_rev in H. rewrite Hq in H. apply Forall_app in H as [_ H].
  by apply Forall_rev in H.
Qed.

(** *** What [parseHeaders] stores *)

(** A name and a value as [parseHeaders] stores them: not empty, within the
    caps, of valid bytes; the name in canonical form, the value without
    white space at its ends and without a colon. *)
Definition storedName (name : string) : Prop :=
  name <> "" /\ len name <= maxHeaderNameLength /\
  Header.ValidHeaderField name = true /\ CanonicalMIMEHeaderKey name = name.

Definition storedValue (value : string) : Prop :=
  value <> "" /\ len value <= maxHeaderValueLength /\
  Header.ValidHeaderValue value = true /\ TrimSpace value = value /\
  countByte ":" value = 0%nat.

Definition storedOK (h : Header) : Prop :=
  forall name values,
    h !! name = Some values ->
    exists value, values = Some [value] /\ storedName name /\ storedValue value.

Lemma len_str b : len (str b) = Z.of_nat (length b).
Proof.
  unfold len, str. f_equal. induction b as [|a b IH]; [done|]. simpl. by rewrite IH.
Qed.

Lemma len_bytes s : len s = Z.of_nat (length (bytes s)).
Proof. by rewrite <- len_str, str_bytes. Qed.

Lemma canonicalBytes_length upper b : length (canonicalBytes upper b) = length b.
Proof.
  revert upper. induction b as [|a b IH]; intros upper; [done|].
  rewrite canonicalBytes_cons. simpl. by rewrite IH.
Qed.

Lemma lineHeader_inr line name value :
  lineHeader line = inr (name, value) ->
  storedName (CanonicalMIMEHeaderKey name) /\ storedValue value /\
  exists part0 part1,
    Split line ":" = [part0; part1] /\ name = TrimSpace part0 /\ value = TrimSpace part1.
Proof.
  unfold lineHeader. pose proof (Split_pieces line ":") as Hpieces.
  destruct (Split line ":") as [|part0 [|part1 [|part2 parts]]]; try done.
  cbv zeta.
  destruct (String.eqb_spec (TrimSpace part0) "") as [|Hname]; [done|].
  destruct (String.eqb_spec (TrimSpace part1) "") as [|Hvalue]; [done|].
  destruct (len (TrimSpace part0) >? maxHeaderNameLength) eqn:Hlen0; [done|].
  destruct (len (TrimSpace part1) >? maxHeaderValueLength) eqn:Hlen1; [done|].
  destruct (Header.ValidHeaderField (TrimSpace part0)) eqn:Hvf; [|done].
  destruct (Header.ValidHeaderValue (TrimSpace part1)) eqn:Hvv; [|done].
  cbn [negb]. intros [= <- <-].
  rewrite Z.gtb_ltb in Hlen0, Hlen1. apply Z.ltb_ge in Hlen0, Hlen1.
  split; [|split; [|by exists part0, part1]].
  - unfold storedName. rewrite CanonicalMIMEHeaderKey_idem.
    unfold CanonicalMIMEHeaderKey. rewrite Hvf.
    unfold Header.ValidHeaderField in *.
    destruct (canonicalBytes_idem true _ Hvf) as [Hvalid _].
    rewrite bytes_str, len_str, canonicalBytes_length, <- len_bytes.
    split; [|done].
    intros Hempty. apply (f_equal bytes) in Hempty. rewrite bytes_str in Hempty.
    apply (f_equal length) in Hempty. rewrite canonicalBytes_length in Hempty.
    destruct (TrimSpace part0); [done|simpl in Hempty; lia].
  - unfold storedValue. split; [done|]. split; [done|]. split; [done|].
    split; [apply TrimSpace_idem|].
    inversion Hpieces as [|? ? _ Hrest]; subst.
    inversion Hrest as [|? ? Hpart1 _]; subst.
    apply countByte_bytes, TrimSpace_Forall. by apply countByte_bytes.
Qed.

Lemma storedOK_Header_Set h name value :
  storedOK h -> storedName (CanonicalMIMEHeaderKey name) -> storedValue value ->
  storedOK (Header_Set h name value).
Proof.
  intros Hh Hname Hvalue key values. unfold Header_Set.
  destruct (decide (key = CanonicalMIMEHeaderKey name)) as [->|Hne].
  - rewrite lookup_insert_eq. intros [= <-]. by exists value.
  - rewrite lookup_insert_ne by done. apply Hh.
Qed.

Lemma parseHeaderLines_stored lines h h' :
  Z.of_nat (size h) <= maxHeaders -> storedOK h ->
  parseHeaderLines h lines = (Some h', None) ->
  Z.of_nat (size h') <= maxHeaders /\ storedOK h'.
Proof.
  revert h. induction lines as [|line rest IH]; intros h Hsize Hok; simpl.
  - by intros [= <-].
  - unfold parseHeaderLine. destruct (blank line); [by apply IH|].
    destruct (lineHeader line) as [e|[name value]] eqn:Hline; [done|].
    destruct (Z.of_nat (size h) >=? maxHeaders) eqn:Hcap; [done|].
    rewrite Z.geb_leb in Hcap. apply Z.leb_gt in Hcap.
    destruct (lineHeader_inr _ _ _ Hline) as (Hname & Hvalue & _).
    apply IH.
    + pose proof (size_Header_Set h name value) as Hle. clear -Hcap Hle.
      unfold maxHeaders in *. lia.
    + by apply storedOK_Header_Set.
Qed.

(** [parseHeaders] returns a map and no error, or no map and an error. *)
Lemma parseHeaderLines_result lines h :
  (exists h', parseHeaderLines h lines = (Some h', None)) \/
  (exists e, parseHeaderLines h lines = (None, Some e)).
Proof.
  revert h. induction lines as [|line rest IH]; intros h; simpl.
  - left. by exists h.
  - destruct (parseHeaderLine h line) as [e|h']; [right; by exists e|apply IH].
Qed.

(** The headers that [parseHeaders] accepts.  [parseHeaders] returns either
    a map and no error or no map and an error.  The map holds at most ten
    names; each name is in canonical form, not empty, of at most 100 bytes,
    all of them token characters, and has exactly one value; each value is
    not empty, of at most 200 bytes, all of them valid in a header value,
    without white space at its ends and without a colon. *)
Theorem parsed_headers_valid (rawHeaders : string) :
  ((exists h, parseHeaders rawHeaders = (Some h, None)) \/
   (exists e, parseHeaders rawHeaders = (None, Some e))) /\
  (forall h, parseHeaders rawHeaders = (Some h, None) ->
     Z.of_nat (size h) <= maxHeaders /\ storedOK h).
Proof.
  split; [apply parseHeaderLines_result|].
  intros h Hparse.
  apply (parseHeaderLines_stored (Split rawHeaders newline) ∅ h); [done| |done].
  intros name values. by rewrite lookup_empty.
Qed.

(** A line needs exactly one colon: a block with a line that is not blank
    and has no colon, or more than one (as a value with a URL or a port
    has), is refused; that line on its own gets the error of the format. *)
Theorem colon_in_value_rejected (rawHeaders line : string) :
  line ∈ Split rawHeaders newline ->
  blank line = false ->
  countByte ":" line <> 1%nat ->
  (forall h, parseHeaderLine h line = inl (ErrInvalidHeaderFormat line)) /\
  (parseHeaders rawHeaders).1 = None /\ is_Some (parseHeaders rawHeaders).2.
Proof.
  intros Hin Hblank Hcolons.
  assert (Hline : forall h, parseHeaderLine h line = inl (ErrInvalidHeaderFormat line)).
  { intros h. unfold parseHeaderLine, lineHeader. rewrite Hblank.
    pose proof (Split_length line ":") as Hlen.
    destruct (Split line ":") as [|part0 [|part1 [|part2 parts]]]; try done.
    simpl in Hlen. lia. }
  split; [done|]. unfold parseHeaders.
  generalize (∅ : Header). revert Hin. generalize (Split rawHeaders newline).
  intros lines Hin. induction lines as [|l rest IH]; intros h.
  - by apply elem_of_nil in Hin.
  - simpl. apply elem_of_cons in Hin as [<-|Hin].
    + rewrite Hline. simpl. split; [done|by eexists].
    + destruct (parseHeaderLine h l) as [e|h']; [simpl; split; [done|by eexists]|].
      by apply IH.
Qed.

Lemma colon_in_value_rejected_witness :
  (parseHeaders "Accept: text/plain
Host: example.com:8080").1 = None.
Proof.
  apply (colon_in_value_rejected _ "Host: example.com:8080").
  - vm_compute. apply list_elem_of_further, list_elem_of_here.
  - reflexivity.
  - vm_compute. lia.
Defined.

End Experiment.

(** ** Package [encoding/json]: Go values *)

Module GoJson.
Import GoBytes GoStrings Utf8 Json Experiment.

(** *** Maps and [interface{}] *)

(** The members of an object sorted by key, with [key] bound to [v]: a
    member with the same key is replaced. *)
Fixpoint insertMember {V} (key : string) (v : V) (l : list (string * V))
  : list (string * V) :=
  match l with
  | [] => [(key, v)]
  | (key', v') :: rest =>
      if String.eqb key key' then (key, v) :: rest
      else if String.ltb key key' then (key, v) :: l
      else (key', v') :: insertMember key v rest
  end.

(** The members of a list, sorted by key; of two members with the same key
    the later one is kept. *)
Definition sortMembers {V} (l : list (string * V)) : list (string * V) :=
  foldl (fun acc m => insertMember m.1 m.2 acc) [] l.

(** The entries of a map in the order in which [json.Marshal] writes them:
    sorted by key. *)
Definition sortedEntries {V} (m : gmap string V) : list (string * V) :=
  sortMembers (map_to_list m).

(** A JSON value decoded into an [interface{}]: an object becomes a map
    (its members sorted by key, the last one of each key kept), an array a
    slice of such values. *)
Fixpoint anyOf (j : json) : TraefikLog.any :=
  match j with
  | JArray elements => JArray (map anyOf elements)
  | JObject members => JObject (sortMembers (map (fun m => (m.1, anyOf m.2)) members))
  | _ => j
  end.

(** *** Writing the values of the run bundle *)

Definition encStrings (l : option (list string)) : json :=
  match l with
  | None => JNull
  | Some l => JArray (map JString l)
  end.

Definition encHeader (h : option Header) : json :=
  match h with
  | None => JNull
  | Some m => JObject (map (fun e => (e.1, encStrings e.2)) (sortedEntries m))
  end.

(** A [[]byte] is written as the base64 of its bytes. *)
Definition encBytes (b : option (list ascii)) : json :=
  match b with
  | None => JNull
  | Some b => JString (str (Base64.EncodeToString b))
  end.

Definition encFields (f : option (gmap string json)) : json :=
  match f with
  | None => JNull
  | Some m => JObject (map (fun e => (e.1, anyOf e.2)) (sortedEntries m))
  end.

Definition encRequest (r : HTTPRequest) : json :=
  JObject [("method", JString (Method r)); ("url", JString (URL r));
           ("headers", encHeader (Headers r)); ("body", JString (Body r))].

Definition encExperiment (e : Experiment) : json :=
  JObject [("dynamicConfig", JString (DynamicConfig e));
           ("request", encRequest (Request e))].

Definition encResponse (r : HTTPResponse) : json :=
  JObject [("proto", JString (Proto r)); ("statusCode", JNumber (pretty (StatusCode r)));
           ("headers", encHeader (ResponseHeaders r)); ("body", encBytes (ResponseBody r))].

Definition encLog (l : TraefikLog.Log) : json :=
  JObject [("message", JString (TraefikLog.Message l));
           ("timestamp", JString (TraefikLog.Timestamp l));
           ("level", JString (TraefikLog.Level l));
           ("error", JString (TraefikLog.Error l));
           ("fields", encFields (TraefikLog.Fields l))].

Definition encLogs (l : option (list TraefikLog.Log)) : json :=
  match l with
  | None => JNull
  | Some l => JArray (map encLog l)
  end.

Definition encResult (r : Result) : json :=
  JObject [("response", encResponse (Response r)); ("logs", encLogs (Logs r))].

(** *** Reading the values of the run bundle *)

(** The folded form of a key, under which [Unmarshal] looks up the field of
    a struct: ASCII letters in upper case; the two letters that fold to an
    ASCII letter, U+017F (long s) and U+212A (Kelvin sign), as S and K. *)
Fixpoint foldBytes (b : list ascii) : list ascii :=
  match b with
  | [] => []
  | a :: t =>
      let c := byteZ a in
      if (97 <=? c) && (c <=? 122) then byteOf (c - 32) :: foldBytes t
      else match t with
           | a1 :: t1 =>
               if (c =? 197) && (byteZ a1 =? 191) then "S"%char :: foldBytes t1
               else match t1 with
                    | a2 :: t2 =>
                        if (c =? 226) && (byteZ a1 =? 132) && (byteZ a2 =? 170)
                        then "K"%char :: foldBytes t2
                        else a :: foldBytes t
                    | [] => a :: foldBytes t
                    end
           | [] => a :: foldBytes t
           end
  end.

Definition foldName (s : string) : string := str (foldBytes (bytes s)).

(** The key names the field. *)
Definition names (key field : string) : bool :=
  String.eqb (foldName key) (foldName field).

(** [strconv.ParseInt(s, 10, bits)] of a number literal: an optional minus
    and digits only, within the range. *)
Definition digitsValue (ds : list ascii) : Z :=
  foldl (fun n d => n * 10 + (byteZ d - 48)) 0 ds.

Definition parseInt (lo hi : Z) (literal : string) : option Z :=
  let '(neg, ds) := match bytes literal with
                    | a :: t => if byteZ a =? 45 then (true, t) else (false, a :: t)
                    | [] => (false, [])
                    end in
  if forallb isDigit ds && negb (Nat.eqb (length ds) 0) then
    let n := if neg then - digitsValue ds else digitsValue ds in
    if (lo <=? n) && (n <=? hi) then Some n else None
  else None.

Definition decString (j : json) (cur : string) : option string :=
  match j with
  | JNull => Some cur
  | JString s => Some s
  | _ => None
  end.

(** A Go [int] has 64 bits. *)
Definition decInt (j : json) (cur : Z) : option Z :=
  match j with
  | JNull => Some cur
  | JNumber literal => parseInt (- 2 ^ 63) (2 ^ 63 - 1) literal
  | _ => None
  end.

(** The elements of an array decoded one by one into the elements of the
    slice there is, or into the zero value where the slice is shorter. *)
Fixpoint decElements {A} (dec : json -> A -> option A) (zero : A)
    (elements : list json) (cur : list A) : option (list A) :=
  match elements with
  | [] => Some []
  | j :: rest =>
      x ← dec j (match cur with c :: _ => c | [] => zero end);
      xs ← decElements dec zero rest (match cur with _ :: t => t | [] => [] end);
      Some (x :: xs)
  end.

Definition decSlice {A} (dec : json -> A -> option A) (zero : A)
    (j : json) (cur : option (list A)) : option (option (list A)) :=
  match j with
  | JNull => Some None
  | JArray elements => Some <$> decElements dec zero elements (default [] cur)
  | _ => None
  end.

Definition decStrings : json -> option (list string) -> option (option (list string)) :=
  decSlice decString "".

(** The members of an object decoded one by one into a map. *)
Fixpoint decEntries {V} (dec : json -> option V) (members : list (string * json))
    (m : gmap string V) : option (gmap string V) :=
  match members with
  | [] => Some m
  | (key, j) :: rest => v ← dec j; decEntries dec rest (<[key := v]> m)
  end.

Definition decMap {V} (dec : json -> option V) (j : json) (cur : option (gmap string V))
  : option (option (gmap string V)) :=
  match j with
  | JNull => Some None
  | JObject members => Some <$> decEntries dec members (default ∅ cur)
  | _ => None
  end.

Definition decHeader : json -> option Header -> option (option Header) :=
  decMap (fun j => decStrings j None).

Definition decFields
  : json -> option (gmap string json) -> option (option (gmap string json)) :=
  decMap (fun j => Some (anyOf j)).

Definition decByte (j : json) (cur : ascii) : option ascii :=
  match j with
  | JNull => Some cur
  | JNumber literal => byteOf <$> parseInt 0 255 literal
  | _ => None
  end.

Definition decBytes (j : json) (cur : option (list ascii)) : option (option (list ascii)) :=
  match j with
  | JString s => Some <$> Base64.DecodeString (bytes s)
  | _ => decSlice decByte (byteOf 0) j cur
  end.

(** The members of an object decoded one by one into a struct; [field]
    decodes a member into the field that its key names and leaves the
    struct as it is when the key names none. *)
Fixpoint decMembers {S} (field : string -> json -> S -> option S)
    (members : list (string * json)) (cur : S) : option S :=
  match members with
  | [] => Some cur
  | (key, j) :: rest => cur' ← field key j cur; decMembers field rest cur'
  end.

Definition decStruct {S} (field : string -> json -> S -> option S) (j : json) (cur : S)
  : option S :=
  match j with
  | JNull => Some cur
  | JObject members => decMembers field members cur
  | _ => None
  end.

Definition requestField (key : string) (j : json) (r : HTTPRequest) : option HTTPRequest :=
  if names key "method" then
    v ← decString j (Method r); Some (mkHTTPRequest v (URL r) (Headers r) (Body r))
  else if names key "url" then
    v ← decString j (URL r); Some (mkHTTPRequest (Method r) v (Headers r) (Body r))
  else if names key "headers" then
    v ← decHeader j (Headers r); Some (mkHTTPRequest (Method r) (URL r) v (Body r))
  else if names key "body" then
    v ← decString j (Body r); Some (mkHTTPRequest (Method r) (URL r) (Headers r) v)
  else Some r.

Definition decRequest : json -> HTTPRequest -> option HTTPRequest :=
  decStruct requestField.

Definition experimentField (key : string) (j : json) (e : Experiment) : option Experiment :=
  if names key "dynamicConfig" then
    v ← decString j (DynamicConfig e); Some (mkExperiment v (Request e))
  else if names key "request" then
    v ← decRequest j (Request e); Some (mkExperiment (DynamicConfig e) v)
  else Some e.

Definition decExperiment : json -> Experiment -> option Experiment :=
  decStruct experimentField.

Definition responseField (key : string) (j : json) (r : HTTPResponse)
  : option HTTPResponse :=
  if names key "proto" then
    v ← decString j (Proto r);
    Some (mkHTTPResponse v (StatusCode r) (ResponseHeaders r) (ResponseBody r))
  else if names key "statusCode" then
    v ← decInt j (StatusCode r);
    Some (mkHTTPResponse (Proto r) v (ResponseHeaders r) (ResponseBody r))
  else if names key "headers" then
    v ← decHeader j (ResponseHeaders r);
    Some (mkHTTPResponse (Proto r) (StatusCode r) v (ResponseBody r))
  else if names key "body" then
    v ← decBytes j (ResponseBody r);
    Some (mkHTTPResponse (Proto r) (StatusCode r) (ResponseHeaders r) v)
  else Some r.

Definition decResponse : json -> HTTPResponse -> option HTTPResponse :=
  decStruct responseField.

Definition logField (key : string) (j : json) (l : TraefikLog.Log)
  : option TraefikLog.Log :=
  let '(TraefikLog.mkLog message timestamp level error fields) := l in
  if names key "message" then
    v ← decString j message; Some (TraefikLog.mkLog v timestamp level error fields)
  else if names key "timestamp" then
    v ← decString j timestamp; Some (TraefikLog.mkLog message v level error fields)
  else if names key "level" then
    v ← decString j level; Some (TraefikLog.mkLog message timestamp v error fields)
  else if names key "error" then
    v ← decString j error; Some (TraefikLog.mkLog message timestamp level v fields)
  else if names key "fields" then
    v ← decFields j fields; Some (TraefikLog.mkLog message timestamp level error v)
  else Some l.

Definition zeroLog : TraefikLog.Log := TraefikLog.mkLog "" "" "" "" None.

Definition decLog : json -> TraefikLog.Log -> option TraefikLog.Log :=
  decStruct logField.

Definition decLogs
  : json -> option (list TraefikLog.Log) -> option (option (list TraefikLog.Log)) :=
  decSlice decLog zeroLog.

Definition resultField (key : string) (j : json) (r : Result) : option Result :=
  if names key "response" then
    v ← decResponse j (Response r); Some (mkResult v (Logs r))
  else if names key "logs" then
    v ← decLogs j (Logs r); Some (mkResult (Response r) v)
  else Some r.

Definition decResult : json -> Result -> option Result :=
  decStruct resultField.

(** [json.Marshal] and [json.Unmarshal] of a request and of a result (the
    methods [Value] and [Scan] of the two types). *)
Definition MarshalRequest (r : HTTPRequest) : list ascii := render (encRequest r).
Definition MarshalResult (r : Result) : list ascii := render (encResult r).

Definition UnmarshalRequest (data : list ascii) (cur : HTTPRequest) : option HTTPRequest :=
  j ← parse data; decRequest j cur.
Definition UnmarshalResult (data : list ascii) (cur : Result) : option Result :=
  j ← parse data; decResult j cur.

End GoJson.

(** ** Go error values *)

Module GoErrors.

(** The error values that the pool, the runner and the controller pass
    around: the two errors of package [context], the sentinels of package
    [experiment], any other error (known by its message) and an error
    wrapped by [fmt.Errorf] with the verb [%w]. *)
Inductive error :=
| DeadlineExceeded
| Canceled
| ErrRunTimeout
| ErrNotFound
| Opaque (msg : string)
| Wrapped (msg : string) (err : error).

#[global] Instance error_eq_dec : EqDecision error.
Proof. solve_decision. Defined.

(** [errors.Is(err, target)]: [err] or an error that it wraps, at any depth,
    is equal to [target]. *)
Fixpoint Is (err target : error) : bool :=
  if decide (err = target) then true
  else match err with
       | Wrapped _ inner => Is inner target
       | _ => false
       end.

(** [err.Error()]. *)
Fixpoint Error (err : error) : string :=
  match err with
  | DeadlineExceeded => "context deadline exceeded"
  | Canceled => "context canceled"
  | ErrRunTimeout => "timed out while waiting for response"
  | ErrNotFound => "not found"
  | Opaque msg => msg
  | Wrapped msg inner => msg ++ ": " ++ Error inner
  end.

End GoErrors.

(** ** internal/command/pool.go: the worker pool *)

Module Pool.
Import GoErrors.

(** The pool: [spawnSlots] is the number of permits in the buffered channel
    and [slotsCap] the capacity of the channel. *)
Record WorkerPool := mkWorkerPool {
  slotsCap : nat;
  spawnSlots : nat;
  maxWaitQueueDepth : Z;
  waitQueueDepth : Z;
}.

(** [NewWorkerPool]: a channel of capacity [maxSlots], filled with
    [maxSlots] permits. *)
Definition NewWorkerPool (maxSlots : nat) (maxWaitQueueDepth : Z) : WorkerPool :=
  mkWorkerPool maxSlots maxSlots maxWaitQueueDepth 0.

(** The error of a rejected call:
    [fmt.Errorf("too many commands in the queue: %w", context.DeadlineExceeded)]. *)
Definition ErrQueueFull : error :=
  Wrapped "too many commands in the queue" DeadlineExceeded.

(** How [command.Exec] ends: it returns, with an error or none, or panics. *)
Inductive outcome :=
| Returns (err : option error)
| Panics.

(** Where a call of [Spawn] stands.  Each step between two points is atomic:
    the two critical sections of the mutex, the [select], the run of the
    command and the deferred send. *)
Inductive point :=
| Entry                           (* called, before the first critical section *)
| Waiting                         (* counted in waitQueueDepth, at the select *)
| Selected (err : option error)   (* select done, before the second critical section *)
| Running                         (* permit held, command.Exec running *)
| Deferred (res : outcome)        (* command.Exec over, deferred send pending *)
| Done (res : option error)       (* Spawn has returned res *)
| Unwound.                        (* Spawn has been left by the panic of the command *)

(** A call of [Spawn], with the permits it has received from and sent to
    the channel so far. *)
Record call := mkCall {
  at_point : point;
  acquired : nat;
  released : nat;
}.

Definition newCall : call := mkCall Entry 0 0.

(** What the environment decides at a step: whether the context is done at
    the select (and with which error), whether the select receives a permit,
    how the command ends. *)
Inductive choice :=
| Proceed
| CtxDone (err : error)
| TakeSlot
| Exec (res : outcome).

(** [ctx.Err()] of a context that is done. *)
Definition ctxErr (err : error) : bool :=
  bool_decide (err = Canceled \/ err = DeadlineExceeded).

(** One atomic step of a call of [Spawn] on the pool; [None] when the step
    is not possible (a receive on the empty channel, a send on the full
    one, a choice that does not apply). *)
Definition advance (s : WorkerPool) (c : call) (ch : choice)
  : option (WorkerPool * call) :=
  match at_point c, ch with
  | Entry, Proceed =>
      if waitQueueDepth s >=? maxWaitQueueDepth s
      then Some (s, mkCall (Done (Some ErrQueueFull)) (acquired c) (released c))
      else Some (mkWorkerPool (slotsCap s) (spawnSlots s) (maxWaitQueueDepth s)
                              (waitQueueDepth s + 1),
                 mkCall Waiting (acquired c) (released c))
  | Waiting, CtxDone err =>
      if ctxErr err
      then Some (s, mkCall (Selected (Some err)) (acquired c) (released c))
      else None
  | Waiting, TakeSlot =>
      match spawnSlots s with
      | O => None
      | S n =>
          Some (mkWorkerPool (slotsCap s) n (maxWaitQueueDepth s) (waitQueueDepth s),
                mkCall (Selected None) (S (acquired c)) (released c))
      end
  | Selected err, Proceed =>
      let s' := mkWorkerPool (slotsCap s) (spawnSlots s) (maxWaitQueueDepth s)
                             (waitQueueDepth s - 1) in
      match err with
      | Some e => Some (s', mkCall (Done (Some e)) (acquired c) (released c))
      | None => Some (s', mkCall Running (acquired c) (released c))
      end
  | Running, Exec res =>
      Some (s, mkCall (Deferred res) (acquired c) (released c))
  | Deferred res, Proceed =>
      if (spawnSlots s <? slotsCap s)%nat
      then Some (mkWorkerPool (slotsCap s) (S (spawnSlots s)) (maxWaitQueueDepth s)
                              (waitQueueDepth s),
                 mkCall (match res with Returns err => Done err | Panics => Unwound end)
                        (acquired c) (S (released c)))
      else None
  | _, _ => None
  end.

(** The pool and the calls made on it so far. *)
Record state := mkState {
  pool : WorkerPool;
  calls : list call;
}.

(** An event of a run: a new call of [Spawn], or a step of the call of
    index [i]. *)
Inductive event :=
| Call
| Step (i : nat) (ch : choice).

Definition fire (st : state) (ev : event) : option state :=
  match ev with
  | Call => Some (mkState (pool st) (calls st ++ [newCall]))
  | Step i ch =>
      match calls st !! i with
      | None => None
      | Some c =>
          match advance (pool st) c ch with
          | None => None
          | Some (s', c') => Some (mkState s' (<[i := c']> (calls st)))
          end
      end
  end.

(** A run: the events fired in order, [None] if one of them is not
    possible. *)
Fixpoint run (st : state) (evs : list event) : option state :=
  match evs with
  | [] => Some st
  | ev :: rest =>
      match fire st ev with
      | None => None
      | Some st' => run st' rest
      end
  end.

Definition initial (maxSlots : nat) (maxWaitQueueDepth : Z) : state :=
  mkState (NewWorkerPool maxSlots maxWaitQueueDepth) [].

(** The calls that hold a permit, that are counted in [waitQueueDepth], that
    run their command, that have left [Spawn]. *)
Definition holds (c : call) : bool :=
  match at_point c with
  | Selected None | Running | Deferred _ => true
  | _ => false
  end.

Definition queued (c : call) : bool :=
  match at_point c with
  | Waiting | Selected _ => true
  | _ => false
  end.

Definition running (c : call) : bool :=
  match at_point c with
  | Running => true
  | _ => false
  end.

Definition exited (c : call) : bool :=
  match at_point c with
  | Done _ | Unwound => true
  | _ => false
  end.

Definition b2n (b : bool) : nat := if b then 1%nat else 0%nat.

(** The number of calls of a list that satisfy a test. *)
Fixpoint count (f : call -> bool) (l : list call) : nat :=
  match l with
  | [] => 0%nat
  | c :: rest => (b2n (f c) + count f rest)%nat
  end.

(** A lone call, run without interleaving to its end: [Spawn] as a function
    of the pool, of the branch that the select takes and of the way the
    command ends.  [ctx] is [Some err] when the select takes the branch of
    [ctx.Done()], the context being done with [err], and [None] when it
    receives a permit; when the context is done and a permit is free, Go
    takes either branch, and both are runs of [advance].  With no context
    error, the select can only receive a permit; a lone caller on a pool
    without a free permit would block for ever (the result is [None]). *)
Definition Spawn (s : WorkerPool) (ctx : option error) (cmd : outcome)
  : option (WorkerPool * point) :=
  '(s1, c1) ← advance s newCall Proceed;
  match at_point c1 with
  | Done _ => Some (s1, at_point c1)
  | _ =>
      '(s2, c2) ← advance s1 c1 (match ctx with Some e => CtxDone e | None => TakeSlot end);
      '(s3, c3) ← advance s2 c2 Proceed;
      match at_point c3 with
      | Done _ => Some (s3, at_point c3)
      | _ =>
          '(s4, c4) ← advance s3 c3 (Exec cmd);
          '(s5, c5) ← advance s4 c4 Proceed;
          Some (s5, at_point c5)
      end
  end.

Example spawn_single :
  Spawn (NewWorkerPool 1 1) None (Returns None)
  = Some (NewWorkerPool 1 1, Done None).
Proof. reflexivity. Qed.

Example spawn_cancelled :
  Spawn (NewWorkerPool 1 1) (Some Canceled) (Returns None)
  = Some (NewWorkerPool 1 1, Done (Some Canceled)).
Proof. reflexivity. Qed.

Example spawn_queue_full :
  Spawn (NewWorkerPool 1 0) None (Returns None)
  = Some (NewWorkerPool 1 0, Done (Some ErrQueueFull)).
Proof. reflexivity. Qed.

(** *** Invariants of the pool *)

Lemma count_nil f : count f [] = 0%nat.
Proof. reflexivity. Qed.

Lemma count_cons f c l : count f (c :: l) = (b2n (f c) + count f l)%nat.
Proof. reflexivity. Qed.

Lemma count_app f l1 l2 : count f (l1 ++ l2) = (count f l1 + count f l2)%nat.
Proof.
  induction l1 as [|c l1 IH]; [done|]. simpl. rewrite IH. lia.
Qed.

Lemma count_insert f l i c c' :
  l !! i = Some c ->
  (count f (<[i := c']> l) + b2n (f c) = count f l + b2n (f c'))%nat.
Proof.
  intros Hi. pose proof (lookup_lt_Some _ _ _ Hi) as Hlt.
  rewrite insert_take_drop by done.
  rewrite <- (take_drop_middle l i c Hi) at 3.
  rewrite !count_app, !count_cons. lia.
Qed.

Lemma count_le_length f l : (count f l <= length l)%nat.
Proof.
  induction l as [|c l IH]; [done|]. simpl. unfold b2n. destruct (f c); lia.
Qed.

Lemma count_zero f l : Forall (fun c => f c = false) l -> count f l = 0%nat.
Proof.
  induction 1 as [|c l Hc _ IH]; [done|]. by rewrite count_cons, Hc, IH.
Qed.

Lemma count_all f l : Forall (fun c => f c = true) l -> count f l = length l.
Proof.
  induction 1 as [|c l Hc _ IH]; [done|]. rewrite count_cons, Hc, IH. done.
Qed.

(** The accounting of one call: a call that holds a permit has received one
    more than it has sent back; any other call has sent back all it has
    received. *)
Definition call_ok (c : call) : Prop :=
  acquired c = if holds c then S (released c) else released c.

(** The invariant of a pool created by [NewWorkerPool maxSlots maxWait]. *)
Record inv (maxSlots : nat) (maxWait : Z) (st : state) : Prop := mkInv {
  inv_cap : slotsCap (pool st) = maxSlots;
  inv_max : maxWaitQueueDepth (pool st) = maxWait;
  inv_slots : (spawnSlots (pool st) + count holds (calls st) = maxSlots)%nat;
  inv_depth : waitQueueDepth (pool st) = Z.of_nat (count queued (calls st));
  inv_bound : waitQueueDepth (pool st) <= Z.max 0 maxWait;
  inv_calls : Forall call_ok (calls st);
}.

Lemma inv_initial maxSlots maxWait : inv maxSlots maxWait (initial maxSlots maxWait).
Proof. split; simpl; try done; try lia. Qed.

Lemma Forall_insert_ok (l : list call) i c' :
  Forall call_ok l -> call_ok c' -> Forall call_ok (<[i := c']> l).
Proof. intros Hl Hc. by apply Forall_insert. Qed.

Lemma advance_spec s c ch s' c' :
  advance s c ch = Some (s', c') -> call_ok c ->
  slotsCap s' = slotsCap s /\
  maxWaitQueueDepth s' = maxWaitQueueDepth s /\
  (spawnSlots s' + b2n (holds c') = spawnSlots s + b2n (holds c))%nat /\
  waitQueueDepth s' + Z.of_nat (b2n (queued c)) =
    waitQueueDepth s + Z.of_nat (b2n (queued c')) /\
  (waitQueueDepth s <= Z.max 0 (maxWaitQueueDepth s) ->
   waitQueueDepth s' <= Z.max 0 (maxWaitQueueDepth s)) /\
  call_ok c'.
Proof.
  destruct s as [cap slots mx depth]. destruct c as [pt acq rel].
  unfold advance, call_ok, holds, queued. simpl.
  intros Hadv Hc.
  destruct pt as [| |err| |res|res|]; destruct ch as [|e| |res']; try done;
    simpl in *.
  - destruct (depth >=? mx) eqn:Hge; inversion Hadv; subst; clear Hadv;
      rewrite Z.geb_leb in Hge;
      [apply Z.leb_le in Hge|apply Z.leb_gt in Hge]; simpl; repeat split; lia.
  - destruct (ctxErr e); inversion Hadv; subst; clear Hadv.
    simpl; repeat split; lia.
  - destruct slots as [|k]; inversion Hadv; subst; clear Hadv.
    simpl; repeat split; lia.
  - destruct err as [e|]; inversion Hadv; subst; clear Hadv;
      simpl; repeat split; lia.
  - inversion Hadv; subst; clear Hadv. simpl; repeat split; lia.
  - destruct (slots <? cap)%nat; inversion Hadv; subst; clear Hadv.
    destruct res; simpl; repeat split; lia.
Qed.

Lemma inv_fire maxSlots maxWait st ev st' :
  inv maxSlots maxWait st -> fire st ev = Some st' -> inv maxSlots maxWait st'.
Proof.
  intros [Hcap Hmax Hslots Hdepth Hbound Hcalls] Hfire.
  destruct ev as [|i ch]; simpl in Hfire.
  - injection Hfire as <-. split; simpl; try done.
    + rewrite count_app. simpl. lia.
    + rewrite count_app. simpl. lia.
    + apply Forall_app. split; [done|]. by repeat constructor.
  - destruct (calls st !! i) as [c|] eqn:Hi; [|done].
    destruct (advance (pool st) c ch) as [[s' c']|] eqn:Hadv; [|done].
    injection Hfire as <-.
    pose proof (count_insert holds _ _ _ c' Hi) as Hh.
    pose proof (count_insert queued _ _ _ c' Hi) as Hq.
    assert (call_ok c) as Hc by (eapply Forall_lookup_1; eauto).
    destruct (advance_spec _ _ _ _ _ Hadv Hc) as (H1 & H2 & H3 & H4 & H5 & H6).
    split; simpl.
    + congruence.
    + congruence.
    + clear -Hslots Hh H3. lia.
    + clear -Hdepth Hq H4. lia.
    + rewrite <- Hmax. apply H5. by rewrite Hmax.
    + by apply Forall_insert_ok.
Qed.

Lemma inv_run maxSlots maxWait st evs st' :
  inv maxSlots maxWait st -> run st evs = Some st' -> inv maxSlots maxWait st'.
Proof.
  revert st. induction evs as [|ev evs IH]; intros st Hinv Hrun; simpl in Hrun.
  - by inversion Hrun; subst.
  - destruct (fire st ev) as [st1|] eqn:Hfire; [|done].
    eapply IH; [|done]. by eapply inv_fire.
Qed.

Lemma run_app st evs1 evs2 :
  run st (evs1 ++ evs2) = st1 ← run st evs1; run st1 evs2.
Proof.
  revert st. induction evs1 as [|ev evs1 IH]; intros st; simpl; [done|].
  destruct (fire st ev); simpl; [apply IH|done].
Qed.

(** The calls that run their command hold a permit. *)
Lemma running_holds l : (count running l <= count holds l)%nat.
Proof.
  induction l as [|c l IH]; [done|]. rewrite !count_cons.
  assert (b2n (running c) <= b2n (holds c))%nat; [|lia].
  unfold running, holds. by destruct (at_point c) as [| |[]| | | |]; simpl; lia.
Qed.

Lemma exited_not_holds l :
  Forall (fun c => exited c = true) l -> count holds l = 0%nat /\ count queued l = 0%nat.
Proof.
  intros Hall. split; apply count_zero; eapply Forall_impl; try exact Hall;
    intros c; unfold exited, holds, queued;
    by destruct (at_point c) as [| |[]| | | |].
Qed.

(** The deferred send never blocks: when a call is about to send its permit
    back, the channel is not full. *)
Lemma release_enabled maxSlots maxWait st i c res :
  inv maxSlots maxWait st ->
  calls st !! i = Some c -> at_point c = Deferred res ->
  (spawnSlots (pool st) < slotsCap (pool st))%nat.
Proof.
  intros [Hcap _ Hslots _ _ _] Hi Hpt.
  pose proof (take_drop_middle _ _ _ Hi) as Hsplit.
  rewrite <- Hsplit in Hslots. rewrite count_app, count_cons in Hslots.
  unfold holds in Hslots at 2. rewrite Hpt in Hslots. simpl in Hslots. lia.
Qed.

(** From a pool with no call queued and a free permit, a new call reaches
    the run of its command, provided one caller may wait. *)
Definition startOne (i : nat) : list event :=
  [Call; Step i Proceed; Step i TakeSlot; Step i Proceed].

Lemma fire_last s l c ch s' c' :
  advance s c ch = Some (s', c') ->
  fire (mkState s (l ++ [c])) (Step (length l) ch) = Some (mkState s' (l ++ [c'])).
Proof.
  intros Hadv. simpl.
  rewrite lookup_app_r by lia. rewrite Nat.sub_diag. simpl. rewrite Hadv.
  do 2 f_equal.
  replace (length l) with (length l + 0)%nat at 1 by lia.
  by rewrite insert_app_r.
Qed.

Lemma run_cons st ev evs st1 :
  fire st ev = Some st1 -> run st (ev :: evs) = run st1 evs.
Proof. intros Hfire. simpl. by rewrite Hfire. Qed.

Lemma run_startOne st n :
  1 <= maxWaitQueueDepth (pool st) ->
  waitQueueDepth (pool st) = 0 ->
  spawnSlots (pool st) = S n ->
  run st (startOne (length (calls st))) =
  Some (mkState (mkWorkerPool (slotsCap (pool st)) n (maxWaitQueueDepth (pool st)) 0)
                (calls st ++ [mkCall Running 1 0])).
Proof.
  intros Hmax Hdepth Hslots. destruct st as [[cap slots mx depth] l].
  simpl in Hmax, Hdepth, Hslots. subst.
  unfold startOne. cbn [calls pool slotsCap maxWaitQueueDepth].
  rewrite (run_cons _ Call _ (mkState (mkWorkerPool cap (S n) mx 0) (l ++ [newCall])))
    by done.
  rewrite (run_cons _ _ _ (mkState (mkWorkerPool cap (S n) mx (0 + 1))
                             (l ++ [mkCall Waiting 0 0]))).
  2:{ apply fire_last. unfold advance. simpl.
      assert ((0 >=? mx) = false) as -> by (rewrite Z.geb_leb; apply Z.leb_gt; lia).
      done. }
  rewrite (run_cons _ _ _ (mkState (mkWorkerPool cap n mx (0 + 1))
                             (l ++ [mkCall (Selected None) 1 0])))
    by (by apply fire_last).
  rewrite (run_cons _ _ _ (mkState (mkWorkerPool cap n mx (0 + 1 - 1))
                             (l ++ [mkCall Running 1 0])))
    by (by apply fire_last).
  done.
Qed.

(** The events that start [k] new calls one after the other, the first of
    them with index [i]. *)
Fixpoint startMany (i k : nat) : list event :=
  match k with
  | O => []
  | S k' => startOne i ++ startMany (S i) k'
  end.

Lemma run_startMany k st :
  1 <= maxWaitQueueDepth (pool st) ->
  waitQueueDepth (pool st) = 0 ->
  (k <= spawnSlots (pool st))%nat ->
  exists st',
    run st (startMany (length (calls st)) k) = Some st' /\
    count running (calls st') = (count running (calls st) + k)%nat /\
    spawnSlots (pool st') = (spawnSlots (pool st) - k)%nat.
Proof.
  revert st. induction k as [|k IH]; intros st Hmax Hdepth Hk.
  - exists st. simpl. split; [done|]. split; lia.
  - destruct (spawnSlots (pool st)) as [|n] eqn:Hslots; [lia|].
    cbn [startMany]. rewrite run_app.
    rewrite (run_startOne st n) by done. cbn [mbind option_bind].
    set (st1 := mkState _ _).
    destruct (IH st1) as (st' & Hrun & Hcount & Hfree); [done|done|simpl; lia|].
    exists st'. split.
    + replace (S (length (calls st))) with (length (calls st1)); [done|].
      unfold st1. simpl. rewrite length_app. simpl. lia.
    + rewrite Hcount, Hfree. unfold st1. simpl.
      rewrite count_app, count_cons, count_nil. simpl. split; lia.
Qed.

(** *** A pool on which no caller may wait *)

(** A call that has not started or that has been rejected at entry. *)
Definition turnedAway (c : call) : Prop :=
  at_point c = Entry \/ at_point c = Done (Some ErrQueueFull).

Lemma turnedAway_fire maxSlots maxWait st ev st' :
  maxWait <= 0 ->
  pool st = NewWorkerPool maxSlots maxWait /\ Forall turnedAway (calls st) ->
  fire st ev = Some st' ->
  pool st' = NewWorkerPool maxSlots maxWait /\ Forall turnedAway (calls st').
Proof.
  intros Hmax [Hpool Hcalls] Hfire. destruct ev as [|i ch]; simpl in Hfire.
  - inversion Hfire; subst; clear Hfire. simpl. split; [done|].
    apply Forall_app. split; [done|]. repeat constructor.
  - destruct (calls st !! i) as [c|] eqn:Hi; [|done].
    assert (turnedAway c) as Hc by (eapply Forall_lookup_1; eauto).
    destruct (advance (pool st) c ch) as [[s' c']|] eqn:Hadv; [|done].
    inversion Hfire; subst; clear Hfire. simpl.
    unfold advance in Hadv. rewrite Hpool in Hadv. simpl in Hadv.
    destruct Hc as [Hc|Hc]; rewrite Hc in Hadv; [|by destruct ch].
    destruct ch; try done.
    assert ((0 >=? maxWait) = true) as Hge
      by (rewrite Z.geb_leb; apply Z.leb_le; lia).
    rewrite Hge in Hadv. inversion Hadv; subst; clear Hadv.
    split; [done|]. apply Forall_insert; [done|]. by right.
Qed.

Lemma turnedAway_run maxSlots maxWait evs st :
  maxWait <= 0 ->
  run (initial maxSlots maxWait) evs = Some st ->
  pool st = NewWorkerPool maxSlots maxWait /\ Forall turnedAway (calls st).
Proof.
  intros Hmax.
  assert (pool (initial maxSlots maxWait) = NewWorkerPool maxSlots maxWait /\
          Forall turnedAway (calls (initial maxSlots maxWait))) as Hinit by done.
  revert Hinit. generalize (initial maxSlots maxWait). intros st0. revert st0.
  induction evs as [|ev evs IH]; intros st0 Hst0 Hrun; simpl in Hrun.
  - by inversion Hrun; subst.
  - destruct (fire st0 ev) as [st1|] eqn:Hfire; [|done].
    eapply IH; [|done]. by eapply turnedAway_fire.
Qed.

Lemma turnedAway_not_running l : Forall turnedAway l -> count running l = 0%nat.
Proof.
  intros Hall. apply count_zero. eapply Forall_impl; [exact Hall|].
  intros c [Hc|Hc]; unfold running; by rewrite Hc.
Qed.

(** *** The properties of the pool *)

(** C2, as the code has it.  In every run of a pool created by
    [NewWorkerPool maxSlots maxWait], whatever the mixture of commands that
    succeed, fail or panic, of rejections and of cancellations: a call that
    has left [Spawn] has sent back every permit it has received, the permits
    in the channel and the permits held add up to [maxSlots], and at most
    [maxSlots] commands run at once; when all calls have left, the pool is
    back in its initial state, with [maxSlots] permits and nobody queued, so
    it never runs more than [maxSlots] commands at once afterwards and, if
    [maxWait] is at least 1, it can again run [maxSlots] commands at once. *)
Theorem permit_conservation (maxSlots : nat) (maxWait : Z) (evs : list event)
    (st : state) :
  run (initial maxSlots maxWait) evs = Some st ->
  (forall c, c ∈ calls st -> exited c = true -> acquired c = released c) /\
  (spawnSlots (pool st) + count holds (calls st) = maxSlots)%nat /\
  (count running (calls st) <= maxSlots)%nat /\
  (Forall (fun c => exited c = true) (calls st) ->
     pool st = NewWorkerPool maxSlots maxWait /\
     (forall evs' st', run st evs' = Some st' ->
        (count running (calls st') <= maxSlots)%nat) /\
     (1 <= maxWait ->
        exists evs' st', run st evs' = Some st' /\
                         count running (calls st') = maxSlots)).
Proof.
  intros Hrun.
  pose proof (inv_run _ _ _ _ _ (inv_initial maxSlots maxWait) Hrun) as Hinv.
  pose proof Hinv as [Hcap Hmax Hslots Hdepth Hbound Hcalls].
  split; [|split; [done|split]].
  - intros c Hc Hex. rewrite Forall_forall in Hcalls.
    specialize (Hcalls c Hc). unfold call_ok, holds in Hcalls.
    unfold exited in Hex. by destruct (at_point c).
  - pose proof (running_holds (calls st)). lia.
  - intros Hall. destruct (exited_not_holds _ Hall) as [Hh Hq].
    split; [|split].
    + destruct (pool st) as [cap slots mx depth]. simpl in *.
      unfold NewWorkerPool. f_equal; lia.
    + intros evs' st' Hrun'.
      pose proof (inv_run _ _ _ _ _ Hinv Hrun') as [_ _ Hslots' _ _ _].
      pose proof (running_holds (calls st')). lia.
    + intros Hone.
      destruct (run_startMany maxSlots st) as (st' & Hrun' & Hcount & _);
        [lia|lia|lia|].
      exists (startMany (length (calls st)) maxSlots), st'. split; [done|].
      rewrite Hcount.
      assert (count running (calls st) = 0%nat) as ->; [|done].
      pose proof (running_holds (calls st)). lia.
Qed.

(** A run of a pool with two permits and one waiting place: two calls run
    their commands at once, one succeeds, the other fails; a third call is
    cancelled while it waits. *)
Definition sampleRun : list event :=
  [Call; Step 0 Proceed; Step 0 TakeSlot; Step 0 Proceed;
   Call; Step 1 Proceed; Step 1 TakeSlot; Step 1 Proceed;
   Call; Step 2 Proceed; Step 2 (CtxDone Canceled); Step 2 Proceed;
   Step 0 (Exec (Returns None)); Step 0 Proceed;
   Step 1 (Exec (Returns (Some (Opaque "exit")))); Step 1 Proceed].

Definition sampleEnd : state :=
  mkState (NewWorkerPool 2 1)
          [mkCall (Done None) 1 1;
           mkCall (Done (Some (Opaque "exit"))) 1 1;
           mkCall (Done (Some Canceled)) 0 0].

Lemma permit_conservation_witness :
  run (initial 2 1) sampleRun = Some sampleEnd /\
  (spawnSlots (pool sampleEnd) + count holds (calls sampleEnd) = 2)%nat /\
  pool sampleEnd = NewWorkerPool 2 1.
Proof.
  assert (run (initial 2 1) sampleRun = Some sampleEnd) as Hrun by reflexivity.
  destruct (permit_conservation 2 1 sampleRun sampleEnd Hrun)
    as (_ & Hsum & _ & Hquiet).
  split; [exact Hrun|]. split; [exact Hsum|].
  apply Hquiet. unfold sampleEnd. simpl. by repeat constructor.
Defined.

(** C2, the claim as stated fails for a pool on which no caller may wait:
    with one permit and [maxWaitQueueDepth = 0], the pool in its initial
    state (no call pending) never runs a command, where the claim has it
    admit [maxSlots = 1] command. *)
Lemma no_waiting_place_no_command :
  slotsCap (NewWorkerPool 1 0) = 1%nat /\
  spawnSlots (NewWorkerPool 1 0) = 1%nat /\
  (forall evs st, run (initial 1 0) evs = Some st ->
     count running (calls st) = 0%nat) /\
  Spawn (NewWorkerPool 1 0) None (Returns None)
  = Some (NewWorkerPool 1 0, Done (Some ErrQueueFull)).
Proof.
  split; [done|]. split; [done|]. split; [|done].
  intros evs st Hrun.
  destruct (turnedAway_run 1 0 evs st) as [_ Hall]; [lia|done|].
  by apply turnedAway_not_running.
Qed.

(** C9.  [waitQueueDepth] counts every call from the first critical section
    until the second one, after the select, whether the call has had to wait
    for a permit or not: in every run of a pool created by [NewWorkerPool],
    whatever [maxWaitQueueDepth], the counter is the number of calls that
    stand at the select or have left it, with a permit or with the error of
    the context, and have not yet passed the second critical section; and a
    call that takes its first step below the bound is counted and goes to
    the select whatever the number of free permits, while at or above the
    bound it is rejected.  Hence on a pool with [maxWaitQueueDepth = 0] (or
    less) every call of [Spawn] is rejected at entry with the queue-full
    error: in every run all permits stay free, every call is either not
    started or returned with that error, a call that takes its first step
    returns with it, and a lone caller on the fresh pool gets it whatever
    its context and its command. *)
Theorem zero_wait_depth_rejects_all (maxSlots : nat) (maxWait : Z) (evs : list event)
    (st : state) :
  run (initial maxSlots maxWait) evs = Some st ->
  waitQueueDepth (pool st) = Z.of_nat (count queued (calls st)) /\
  (forall i c, calls st !! i = Some c -> at_point c = Entry ->
     fire st (Step i Proceed)
     = Some (if waitQueueDepth (pool st) >=? maxWait
             then mkState (pool st)
                    (<[i := mkCall (Done (Some ErrQueueFull)) (acquired c) (released c)]>
                       (calls st))
             else mkState (mkWorkerPool (slotsCap (pool st)) (spawnSlots (pool st))
                             maxWait (waitQueueDepth (pool st) + 1))
                    (<[i := mkCall Waiting (acquired c) (released c)]> (calls st)))) /\
  (forall i c st',
     calls st !! i = Some c -> at_point c = Entry ->
     waitQueueDepth (pool st) < maxWait ->
     fire st (Step i Proceed) = Some st' ->
     count queued (calls st') = S (count queued (calls st)) /\
     spawnSlots (pool st') = spawnSlots (pool st)) /\
  (maxWait <= 0 ->
     pool st = NewWorkerPool maxSlots maxWait /\
     Forall turnedAway (calls st) /\
     (forall i c, calls st !! i = Some c -> at_point c = Entry ->
        fire st (Step i Proceed)
        = Some (mkState (pool st)
                  (<[i := mkCall (Done (Some ErrQueueFull)) (acquired c) (released c)]>
                     (calls st)))) /\
     (forall ctx cmd,
        Spawn (NewWorkerPool maxSlots maxWait) ctx cmd
        = Some (NewWorkerPool maxSlots maxWait, Done (Some ErrQueueFull)))).
Proof.
  intros Hrun.
  pose proof (inv_run _ _ _ _ _ (inv_initial maxSlots maxWait) Hrun) as Hinv.
  pose proof Hinv as [Hcap Hmax Hslots Hdepth Hbound Hcalls].
  assert (Hstep : forall i c, calls st !! i = Some c -> at_point c = Entry ->
     fire st (Step i Proceed)
     = Some (if waitQueueDepth (pool st) >=? maxWait
             then mkState (pool st)
                    (<[i := mkCall (Done (Some ErrQueueFull)) (acquired c) (released c)]>
                       (calls st))
             else mkState (mkWorkerPool (slotsCap (pool st)) (spawnSlots (pool st))
                             maxWait (waitQueueDepth (pool st) + 1))
                    (<[i := mkCall Waiting (acquired c) (released c)]> (calls st)))).
  { intros i c Hi Hc. cbn [fire]. rewrite Hi. unfold advance. rewrite Hc, Hmax.
    by destruct (waitQueueDepth (pool st) >=? maxWait). }
  split; [done|]. split; [done|]. split.
  - intros i c st' Hi Hc Hroom Hfire. rewrite (Hstep i c Hi Hc) in Hfire.
    assert ((waitQueueDepth (pool st) >=? maxWait) = false) as Hge
      by (rewrite Z.geb_leb; apply Z.leb_gt; lia).
    rewrite Hge in Hfire. injection Hfire as <-. cbn [calls pool spawnSlots].
    split; [|done].
    pose proof (count_insert queued _ _ _ (mkCall Waiting (acquired c) (released c)) Hi)
      as Hq.
    unfold queued at 2 4 in Hq. cbn [at_point] in Hq. rewrite Hc in Hq.
    simpl in Hq. lia.
  - intros Hzero.
    destruct (turnedAway_run maxSlots maxWait evs st) as [Hpool Hall]; [done|done|].
    split; [done|]. split; [done|]. split.
    + intros i c Hi Hc. rewrite (Hstep i c Hi Hc).
      assert ((waitQueueDepth (pool st) >=? maxWait) = true) as ->; [|done].
      rewrite Hpool. simpl. rewrite Z.geb_leb. apply Z.leb_le. lia.
    + intros ctx cmd. unfold Spawn, advance. simpl.
      assert ((0 >=? maxWait) = true) as ->; [|done].
      rewrite Z.geb_leb. apply Z.leb_le. lia.
Qed.

Lemma zero_wait_depth_rejects_all_witness :
  (waitQueueDepth (mkWorkerPool 2 2 1 1) = 1 /\
   spawnSlots (mkWorkerPool 2 2 1 1) = 2%nat /\
   count queued [mkCall Waiting 0 0] = 1%nat) /\
  (pool (mkState (NewWorkerPool 3 0)
           [mkCall (Done (Some ErrQueueFull)) 0 0; newCall])
   = NewWorkerPool 3 0 /\
   Forall turnedAway [mkCall (Done (Some ErrQueueFull)) 0 0; newCall]).
Proof.
  split.
  - destruct (zero_wait_depth_rejects_all 2 1 [Call; Step 0 Proceed]
                (mkState (mkWorkerPool 2 2 1 1) [mkCall Waiting 0 0]))
      as (Hcount & _); [reflexivity|].
    split; [reflexivity|]. split; [reflexivity|].
    simpl in Hcount. simpl. lia.
  - destruct (zero_wait_depth_rejects_all 3 0 [Call; Step 0 Proceed; Call]
                (mkState (NewWorkerPool 3 0)
                   [mkCall (Done (Some ErrQueueFull)) 0 0; newCall]))
      as (_ & _ & _ & Hzero); [reflexivity|].
    destruct Hzero as (Hpool & Hall & _); [lia|].
    split; [exact Hpool|exact Hall].
Defined.

(** The counter counts callers that do not have to wait: on a fresh pool
    with a free permit, the call that has passed the first critical section
    is counted although the select will not block. *)
Example counted_without_waiting :
  run (initial 1 1) [Call; Step 0 Proceed]
  = Some (mkState (mkWorkerPool 1 1 1 1) [mkCall Waiting 0 0]).
Proof. reflexivity. Qed.


(** The deferred send of [Spawn] never blocks: in every run of a pool
    created by [NewWorkerPool], a call whose command is over can always
    send its permit back, and then leaves [Spawn] with the result of the
    command (or by its panic). *)
Theorem release_never_blocks (maxSlots : nat) (maxWait : Z) (evs : list event)
    (st : state) (i : nat) (c : call) (res : outcome) :
  run (initial maxSlots maxWait) evs = Some st ->
  calls st !! i = Some c ->
  at_point c = Deferred res ->
  fire st (Step i Proceed)
  = Some (mkState (mkWorkerPool (slotsCap (pool st)) (S (spawnSlots (pool st)))
                     (maxWaitQueueDepth (pool st)) (waitQueueDepth (pool st)))
            (<[i := mkCall (match res with Returns err => Done err | Panics => Unwound end)
                      (acquired c) (S (released c))]> (calls st))).
Proof.
  intros Hrun Hi Hpt.
  pose proof (inv_run _ _ _ _ _ (inv_initial maxSlots maxWait) Hrun) as Hinv.
  pose proof (release_enabled _ _ _ _ _ _ Hinv Hi Hpt) as Hfree.
  cbn [fire]. rewrite Hi. unfold advance. rewrite Hpt.
  apply Nat.ltb_lt in Hfree. by rewrite Hfree.
Qed.

Lemma release_never_blocks_witness :
  fire (mkState (mkWorkerPool 1 0 1 0) [mkCall (Deferred Panics) 1 0]) (Step 0 Proceed)
  = Some (mkState (mkWorkerPool 1 1 1 0) [mkCall Unwound 1 1]).
Proof.
  apply (release_never_blocks 1 1
           [Call; Step 0 Proceed; Step 0 TakeSlot; Step 0 Proceed; Step 0 (Exec Panics)]
           (mkState (mkWorkerPool 1 0 1 0) [mkCall (Deferred Panics) 1 0]) 0
           (mkCall (Deferred Panics) 1 0) Panics); reflexivity.
Defined.

(** The calls that are at the select. *)
Definition atSelect (c : call) : bool :=
  match at_point c with
  | Waiting => true
  | _ => false
  end.

Lemma atSelect_queued l : (count atSelect l <= count queued l)%nat.
Proof.
  induction l as [|c l IH]; [done|]. rewrite !count_cons.
  assert (b2n (atSelect c) <= b2n (queued c))%nat; [|lia].
  unfold queued, atSelect. destruct (at_point c); simpl; lia.
Qed.

(** The wait queue is bounded: in every run of a pool created by
    [NewWorkerPool], [waitQueueDepth] is the number of calls between the two
    critical sections, it is never negative, and it never exceeds
    [maxWaitQueueDepth] (0 when that is negative); so at most that many
    callers are blocked at the select. *)
Theorem wait_queue_bounded (maxSlots : nat) (maxWait : Z) (evs : list event)
    (st : state) :
  run (initial maxSlots maxWait) evs = Some st ->
  waitQueueDepth (pool st) = Z.of_nat (count queued (calls st)) /\
  0 <= waitQueueDepth (pool st) <= Z.max 0 maxWait /\
  Z.of_nat (count atSelect (calls st))
  <= Z.max 0 maxWait.
Proof.
  intros Hrun.
  pose proof (inv_run _ _ _ _ _ (inv_initial maxSlots maxWait) Hrun)
    as [_ _ _ Hdepth Hbound _].
  split; [done|]. split; [clear -Hdepth Hbound; lia|].
  pose proof (atSelect_queued (calls st)) as Hle.
  clear -Hdepth Hbound Hle. lia.
Qed.

Lemma wait_queue_bounded_witness :
  waitQueueDepth (mkWorkerPool 1 0 2 2) = 2 /\
  0 <= waitQueueDepth (mkWorkerPool 1 0 2 2) <= 2.
Proof.
  destruct (wait_queue_bounded 1 2
              [Call; Call; Call; Step 0 Proceed; Step 1 Proceed; Step 2 Proceed;
               Step 0 TakeSlot]
              (mkState (mkWorkerPool 1 0 2 2)
                 [mkCall (Selected None) 1 0; mkCall Waiting 0 0;
                  mkCall (Done (Some ErrQueueFull)) 0 0]))
    as (H1 & H2 & _); [reflexivity|].
  split; [exact H1|exact H2].
Defined.

(** A lone caller of [Spawn] on a pool on which one more caller may wait.
    With no free permit and a context that is done, the select can only
    take the branch of the context: [Spawn] returns the error of the
    context, whatever the command, which is not run.  With a free permit
    received at the select, [Spawn] runs the command and returns what the
    command returns, or is left by the panic of the command.  In each case
    the pool is afterwards as it was: the permit is back, also after a
    panic.  Without a free permit and with a context that is never done,
    the caller blocks. *)
Theorem lone_spawn (s : WorkerPool) :
  waitQueueDepth s < maxWaitQueueDepth s ->
  (spawnSlots s = 0%nat ->
   forall err cmd, ctxErr err = true -> Spawn s (Some err) cmd = Some (s, Done (Some err))) /\
  ((0 < spawnSlots s <= slotsCap s)%nat ->
   (forall err, Spawn s None (Returns err) = Some (s, Done err)) /\
   Spawn s None Panics = Some (s, Unwound)) /\
  (spawnSlots s = 0%nat -> forall cmd, Spawn s None cmd = None).
Proof.
  intros Hroom. destruct s as [cap slots mx depth]. simpl in Hroom.
  assert ((depth >=? mx) = false) as Hge by (rewrite Z.geb_leb; apply Z.leb_gt; lia).
  assert (depth + 1 - 1 = depth) as Hdepth by lia.
  split; [|split].
  - simpl. intros -> err cmd Herr. unfold Spawn, advance. simpl. rewrite Hge. simpl.
    rewrite Herr. simpl. by rewrite Hdepth.
  - simpl. intros Hslots. destruct slots as [|n]; [lia|].
    assert ((n <? cap)%nat = true) as Hlt by (apply Nat.ltb_lt; lia).
    split; [intros err|]; unfold Spawn, advance; simpl; rewrite Hge; simpl;
      rewrite Hlt; simpl; by rewrite Hdepth.
  - simpl. intros -> cmd. unfold Spawn, advance. simpl. by rewrite Hge.
Qed.

Lemma lone_spawn_witness :
  Spawn (mkWorkerPool 2 0 1 0) (Some Canceled) Panics
  = Some (mkWorkerPool 2 0 1 0, Done (Some Canceled)) /\
  Spawn (NewWorkerPool 2 1) None (Returns (Some (Opaque "exit")))
  = Some (NewWorkerPool 2 1, Done (Some (Opaque "exit"))).
Proof.
  split.
  - destruct (lone_spawn (mkWorkerPool 2 0 1 0)) as (Hctx & _); [simpl; lia|].
    by apply Hctx.
  - destruct (lone_spawn (NewWorkerPool 2 1)) as (_ & Hrun & _); [simpl; lia|].
    apply Hrun. simpl. lia.
Defined.

End Pool.

(** ** internal/command/command.go and internal/traefik/command.go: the
       isolated command *)

Module Command.
Import GoBytes GoErrors.

(** [MountPoint]. *)
Record MountPoint := mkMountPoint {
  Host : string;
  Target : string;
}.

(** The arguments that [NewIsolatedCommand] gives to [bwrap]: a read-only
    bind for each mount point, the three isolation flags, then the
    arguments of the caller. *)
Fixpoint bindArgs (mountPoints : list MountPoint) : list string :=
  match mountPoints with
  | [] => []
  | mountPoint :: rest =>
      ["--ro-bind"; Host mountPoint; Target mountPoint] ++ bindArgs rest
  end.

Definition isolationFlags : list string :=
  ["--unshare-all"; "--clearenv"; "--new-session"].

(** [NewIsolatedCommand]: the program and its arguments. *)
Definition NewIsolatedCommand (mountPoints : list MountPoint) (args : list string)
  : string * list string :=
  ("bwrap", bindArgs mountPoints ++ isolationFlags ++ args).

(** How [cmd.Wait] ends: the child has exited with status 0, the child has
    exited otherwise (an [*exec.ExitError], with [ExitCode()]), or another
    error. *)
Inductive waitResult :=
| WaitOK
| WaitExit (code : Z)
| WaitFail (err : error).

(** What the operating system answers during one execution: the outcome of
    each operation of [Exec] that can fail, and what the child writes on
    its standard output and error until [Wait] returns. *)
Record world := mkWorld {
  requestWrite : list ascii + error;
  stdinPipe : option error;
  start : option error;
  stdinWrite : option error;
  stdinClose : option error;
  wait : waitResult;
  childStdout : list ascii;
  childStderr : list ascii;
}.

(** What [Exec] does to the outside, in order. *)
Inductive effect :=
| OpenStdinPipe
| Start (program : string) (args : list string)
| WriteStdin (data : string)
| CloseStdin
| Wait.

(** The [Command] of package [traefik]: the configuration, and the two
    buffers that capture the output of the child.  The request is known by
    what [request.Write] gives. *)
Record TraefikCommand := mkCommand {
  dynamicConfig : string;
  stdout : list ascii;
  stderr : list ascii;
}.

(** [NewCommand]. *)
Definition NewCommand (dynamicConfig : string) : TraefikCommand :=
  mkCommand dynamicConfig [] [].

(** The arguments of the tester. *)
Definition testerCommand (request : list ascii) : string * list string :=
  NewIsolatedCommand [mkMountPoint "/app" "/app"]
    ["/app/traefik-playground"; "tester"; "--request"; str request; "--log-level=debug"].

(** The text appended to the captured standard error when the child exits
    with a status other than 0. *)
Definition exitNote (code : Z) : list ascii :=
  bytes (String "010" (String "010" "command failed with status ") ++ pretty code).

(** The method [Exec] of [Command]: the command afterwards, the error returned and the
    effects, in order. *)
Definition Exec (w : world) (c : TraefikCommand)
  : TraefikCommand * option error * list effect :=
  match requestWrite w with
  | inr err => (c, Some (Wrapped "marshaling request" err), [])
  | inl reqBuffer =>
      let '(program, args) := testerCommand reqBuffer in
      match stdinPipe w with
      | Some err => (c, Some (Wrapped "setting up child process stdin pipe" err), [])
      | None =>
          match start w with
          | Some err =>
              (c, Some (Wrapped "starting command" err),
               [OpenStdinPipe; Start program args; CloseStdin])
          | None =>
              match stdinWrite w with
              | Some err =>
                  (c, Some (Wrapped "writing request on child process stdin" err),
                   [OpenStdinPipe; Start program args;
                    WriteStdin (dynamicConfig c); CloseStdin])
              | None =>
                  match stdinClose w with
                  | Some err =>
                      (c, Some (Wrapped "closing child process stdin" err),
                       [OpenStdinPipe; Start program args;
                        WriteStdin (dynamicConfig c); CloseStdin])
                  | None =>
                      let effects :=
                        [OpenStdinPipe; Start program args;
                         WriteStdin (dynamicConfig c); CloseStdin; Wait] in
                      let captured :=
                        mkCommand (dynamicConfig c) (stdout c ++ childStdout w)
                                  (stderr c ++ childStderr w) in
                      match wait w with
                      | WaitOK => (captured, None, effects)
                      | WaitExit code =>
                          (mkCommand (dynamicConfig c) (stdout captured)
                                     (stderr captured ++ exitNote code),
                           None, effects)
                      | WaitFail err =>
                          (captured, Some (Wrapped "running command" err), effects)
                      end
                  end
              end
          end
      end
  end.

(** The error of the first operation that fails, in the order of [Exec];
    the exit status of the child is no failure. *)
Definition firstFailure (w : world) : option error :=
  match requestWrite w with
  | inr err => Some (Wrapped "marshaling request" err)
  | inl _ =>
      match stdinPipe w, start w, stdinWrite w, stdinClose w, wait w with
      | Some err, _, _, _, _ => Some (Wrapped "setting up child process stdin pipe" err)
      | None, Some err, _, _, _ => Some (Wrapped "starting command" err)
      | None, None, Some err, _, _ =>
          Some (Wrapped "writing request on child process stdin" err)
      | None, None, None, Some err, _ => Some (Wrapped "closing child process stdin" err)
      | None, None, None, None, WaitFail err => Some (Wrapped "running command" err)
      | None, None, None, None, _ => None
      end
  end.

(** A spawn or pipe failure: one of the operations on the child process and
    its pipe has failed. *)
Definition spawnOrPipeFailure (w : world) : Prop :=
  is_Some (stdinPipe w) \/ is_Some (start w) \/ is_Some (stdinWrite w) \/
  is_Some (stdinClose w) \/ (exists err, wait w = WaitFail err).

(** C5, as the code has it.  [Exec] returns the error of the first
    operation that fails among: writing the request into the buffer, setting
    up the pipe, starting the child, writing its standard input, closing it,
    waiting for it; the exit status of the child is no failure.  When the
    child exits with a status other than 0 and no operation fails, [Exec]
    returns no error and the captured standard error ends with the note of
    the status.  Whenever [Exec] returns an error after the pipe has been
    opened, the pipe has been closed. *)
Theorem exec_failures (w : world) (c : TraefikCommand) :
  (Exec w c).1.2 = firstFailure w /\
  (forall code, firstFailure w = None -> wait w = WaitExit code ->
     (Exec w c).1.2 = None /\
     stderr (Exec w c).1.1 = stderr c ++ childStderr w ++ exitNote code /\
     stdout (Exec w c).1.1 = stdout c ++ childStdout w) /\
  (is_Some (Exec w c).1.2 ->
     (exists err, requestWrite w = inr err) \/ spawnOrPipeFailure w) /\
  (is_Some (Exec w c).1.2 -> In OpenStdinPipe (Exec w c).2 -> In CloseStdin (Exec w c).2).
Proof.
  unfold Exec, firstFailure, spawnOrPipeFailure.
  destruct (requestWrite w) as [reqBuffer|err0].
  2:{ split; [done|]. split; [done|]. split; [|done]. intros _. left. by exists err0. }
  destruct (testerCommand reqBuffer) as [program args].
  destruct (stdinPipe w) as [e1|].
  { split; [done|]. split; [done|]. split; [|done]. intros _. right. left. by exists e1. }
  destruct (start w) as [e2|].
  { split; [done|]. split; [done|]. split; [|simpl; tauto].
    intros _. right. right. left. by exists e2. }
  destruct (stdinWrite w) as [e3|].
  { split; [done|]. split; [done|]. split; [|simpl; tauto].
    intros _. right. right. right. left. by exists e3. }
  destruct (stdinClose w) as [e4|].
  { split; [done|]. split; [done|]. split; [|simpl; tauto].
    intros _. right. right. right. right. left. by exists e4. }
  destruct (wait w) as [|code|e5]; simpl.
  - split; [done|]. split; [done|]. split; [by intros [? ?]|tauto].
  - split; [done|]. split; [|split; [by intros [? ?]|tauto]].
    intros code' _ Hcode. injection Hcode as <-.
    split; [done|]. split; [|done]. by rewrite <- app_assoc.
  - split; [done|]. split; [done|]. split; [|tauto].
    intros _. right. right. right. right. right. by exists e5.
Qed.

(** C5, the claim as stated fails: when the request cannot be written into
    the buffer, [Exec] returns an error although no operation on the child
    process or on its pipe has failed (none has been made). *)
Lemma exec_fails_before_spawn :
  Exec (mkWorld (inr (Opaque "http: Request.Write on Request with no Host or URL set"))
                None None None None WaitOK [] [])
       (NewCommand "http: {}")
  = (NewCommand "http: {}",
     Some (Wrapped "marshaling request"
             (Opaque "http: Request.Write on Request with no Host or URL set")),
     []) /\
  ~ spawnOrPipeFailure
      (mkWorld (inr (Opaque "http: Request.Write on Request with no Host or URL set"))
               None None None None WaitOK [] []).
Proof.
  split; [reflexivity|]. unfold spawnOrPipeFailure. simpl.
  intros [[? ?]|[[? ?]|[[? ?]|[[? ?]|[? ?]]]]]; done.
Qed.

Example exec_exit_status :
  Exec (mkWorld (inl (bytes "GET / HTTP/1.1")) None None None None (WaitExit 1)
                (bytes "out") (bytes "err"))
       (NewCommand "cfg")
  = (mkCommand "cfg" (bytes "out")
       (bytes "err" ++ exitNote 1),
     None,
     [OpenStdinPipe;
      Start "bwrap" ["--ro-bind"; "/app"; "/app"; "--unshare-all"; "--clearenv";
                     "--new-session"; "/app/traefik-playground"; "tester";
                     "--request"; "GET / HTTP/1.1"; "--log-level=debug"];
      WriteStdin "cfg"; CloseStdin; Wait]).
Proof. reflexivity. Qed.

End Command.

(** ** internal/experiment/controller.go: the controller and its runner *)

Module Controller.
Import GoBytes Experiment GoErrors.

(** The [*http.Response] that the runner hands over, as the controller
    reads it; [bodyRead] is what [io.ReadAll(res.Body)] returns. *)
Record httpResponse := mkResponse {
  resProto : string;
  resStatusCode : Z;
  resHeader : option Header;
  bodyRead : list ascii * option error;
}.

(** What [TraefikRunner.Run] returns: the response ([None] for [nil]), the
    logs and the error. *)
Definition runnerResult : Type :=
  option httpResponse * option (list TraefikLog.Log) * option error.

(** [Traefik.Run] on the pool [s]: the command is submitted to the pool;
    the error of [Spawn] is returned as it is; otherwise the result of the
    command is read ([cmdResult] is what [cmd.Result()] returns).  [ctx] is
    the error of the context if it is done when the select is reached and
    [cmd] the way the command ends; [None] when [Spawn] does not return (it
    blocks for ever, or the command panics). *)
Definition TraefikRun (s : Pool.WorkerPool) (ctx : option error) (cmd : Pool.outcome)
    (cmdResult : runnerResult) : option (Pool.WorkerPool * runnerResult) :=
  '(s', pt) ← Pool.Spawn s ctx cmd;
  match pt with
  | Pool.Done (Some err) => Some (s', (None, None, Some err))
  | Pool.Done None =>
      let '(res, logs, err) := cmdResult in
      match err with
      | Some err => Some (s', (None, None, Some (Wrapped "getting Traefik result" err)))
      | None => Some (s', (res, logs, None))
      end
  | _ => None
  end.

(** [Controller.Run], from what the runner returns; [None] when the
    controller panics (a [nil] response without an error). *)
Definition Run (r : runnerResult) : option (Result * option error) :=
  let '(res, logs, err) := r in
  match err with
  | Some err =>
      if Is err DeadlineExceeded || Is err Canceled
      then Some (zeroResult, Some ErrRunTimeout)
      else Some (zeroResult, Some (Wrapped "running Traefik experiment" err))
  | None =>
      match res with
      | None => None
      | Some res =>
          match bodyRead res with
          | (_, Some err) =>
              Some (zeroResult,
                    Some (Wrapped "reading Traefik result response body" err))
          | (body, None) =>
              Some (mkResult (mkHTTPResponse (resProto res) (resStatusCode res)
                                             (resHeader res) (Some body))
                             logs, None)
          end
      end
  end.

(** The controller on the runner of the pool. *)
Definition RunOnPool (s : Pool.WorkerPool) (ctx : option error) (cmd : Pool.outcome)
    (cmdResult : runnerResult) : option (Pool.WorkerPool * (Result * option error)) :=
  '(s', r) ← TraefikRun s ctx cmd cmdResult;
  out ← Run r;
  Some (s', out).

(** A response of the tester. *)
Definition sampleResponse : httpResponse :=
  mkResponse "HTTP/1.1" 200 (Some ∅) (bytes "response", None).

Example run_success :
  RunOnPool (Pool.NewWorkerPool 1 1) None (Pool.Returns None)
            (Some sampleResponse, None, None)
  = Some (Pool.NewWorkerPool 1 1,
          (mkResult (mkHTTPResponse "HTTP/1.1" 200 (Some ∅) (Some (bytes "response")))
                    None, None)).
Proof. reflexivity. Qed.

Lemma Is_wrapped msg err target :
  Is err target = true -> Is (Wrapped msg err) target = true.
Proof. intros H. simpl. by destruct (decide (Wrapped msg err = target)). Qed.

(** C3, as the code has it.  When [Spawn] rejects a call because the wait
    queue is full, it returns the error "too many commands in the queue",
    which wraps [context.DeadlineExceeded]; the runner passes it on and the
    controller turns it, as it turns every error that is
    [context.DeadlineExceeded] or [context.Canceled], into [ErrRunTimeout]:
    the caller of the controller receives for a call rejected at entry the
    same error as for a run that exceeds its deadline or is cancelled. *)
Theorem queue_full_is_run_timeout (s : Pool.WorkerPool) (ctx : option error)
    (cmd : Pool.outcome) (cmdResult : runnerResult) :
  Pool.waitQueueDepth s >= Pool.maxWaitQueueDepth s ->
  Pool.Spawn s ctx cmd = Some (s, Pool.Done (Some Pool.ErrQueueFull)) /\
  Is Pool.ErrQueueFull DeadlineExceeded = true /\
  TraefikRun s ctx cmd cmdResult = Some (s, (None, None, Some Pool.ErrQueueFull)) /\
  RunOnPool s ctx cmd cmdResult = Some (s, (zeroResult, Some ErrRunTimeout)) /\
  (forall res logs err,
     Is err DeadlineExceeded = true \/ Is err Canceled = true ->
     Run (res, logs, Some err) = Some (zeroResult, Some ErrRunTimeout)).
Proof.
  intros Hfull.
  assert (Pool.Spawn s ctx cmd = Some (s, Pool.Done (Some Pool.ErrQueueFull))) as Hspawn.
  { unfold Pool.Spawn, Pool.advance. simpl.
    assert ((Pool.waitQueueDepth s >=? Pool.maxWaitQueueDepth s) = true) as ->
      by (rewrite Z.geb_leb; apply Z.leb_le; lia).
    reflexivity. }
  split; [done|]. split; [done|].
  assert (TraefikRun s ctx cmd cmdResult = Some (s, (None, None, Some Pool.ErrQueueFull)))
    as Hrun by (unfold TraefikRun; by rewrite Hspawn).
  split; [done|]. split.
  - unfold RunOnPool. by rewrite Hrun.
  - intros res logs err Herr. unfold Run.
    destruct Herr as [Herr|Herr]; rewrite Herr; [done|]. by rewrite orb_true_r.
Qed.

Lemma queue_full_is_run_timeout_witness :
  RunOnPool (Pool.NewWorkerPool 1 0) None (Pool.Returns None)
            (Some sampleResponse, None, None)
  = Some (Pool.NewWorkerPool 1 0, (zeroResult, Some ErrRunTimeout)).
Proof.
  apply (queue_full_is_run_timeout (Pool.NewWorkerPool 1 0) None (Pool.Returns None)
           (Some sampleResponse, None, None)).
  simpl. lia.
Defined.

(** C3, the claim as stated fails: on a pool whose queue is full the caller
    of the controller receives [ErrRunTimeout], the very error it receives
    for a call cancelled while it waits, and not the queue-full error. *)
Lemma queue_full_not_distinct :
  RunOnPool (Pool.NewWorkerPool 1 0) None (Pool.Returns None)
            (Some sampleResponse, None, None)
  = Some (Pool.NewWorkerPool 1 0, (zeroResult, Some ErrRunTimeout)) /\
  RunOnPool (Pool.NewWorkerPool 1 1) (Some Canceled) (Pool.Returns None)
            (Some sampleResponse, None, None)
  = Some (Pool.NewWorkerPool 1 1, (zeroResult, Some ErrRunTimeout)) /\
  ErrRunTimeout <> Pool.ErrQueueFull.
Proof. split; [reflexivity|]. split; [reflexivity|done]. Qed.

End Controller.


(** ** encoding/json: what is written is read back *)

Module Codec.
Import GoBytes Utf8 Json.

(** *** Reading back what has been written *)

(** Induction on a JSON value, with the property at hand for the elements
    of an array and for the values of the members of an object. *)
Lemma json_ind' (P : json -> Prop) :
  P JNull -> (forall b, P (JBool b)) -> (forall literal, P (JNumber literal)) ->
  (forall s, P (JString s)) ->
  (forall elements, Forall P elements -> P (JArray elements)) ->
  (forall members, Forall (fun m => P m.2) members -> P (JObject members)) ->
  forall j, P j.
Proof.
  intros Hnull Hbool Hnumber Hstring Harray Hobject.
  fix IH 1. intros [|b|literal|s|elements|members].
  - exact Hnull.
  - apply Hbool.
  - apply Hnumber.
  - apply Hstring.
  - apply Harray. induction elements as [|e es IHes]; constructor; [apply IH|exact IHes].
  - apply Hobject. induction members as [|[k v] ms IHms]; constructor;
      [apply IH|exact IHms].
Qed.

(** The well-formed UTF-8 sequence at the head of bytes is read from the
    bytes of the sequence alone. *)
Lemma runeSize_1 a t : byteZ a < 128 -> runeSize (a :: t) = 1%nat.
Proof. intros H. simpl. by destruct (Z.ltb_spec (byteZ a) 128); [|lia]. Qed.

Lemma runeSize_cases a t :
  128 <= byteZ a ->
  (runeSize (a :: t) = 0%nat) \/
  (exists a1 t1, t = a1 :: t1 /\ 128 <= byteZ a1 /\
                 forall t', runeSize (a :: a1 :: t') = 2%nat) \/
  (exists a1 a2 t2, t = a1 :: a2 :: t2 /\ 128 <= byteZ a1 /\ 128 <= byteZ a2 /\
                    forall t', runeSize (a :: a1 :: a2 :: t') = 3%nat) \/
  (exists a1 a2 a3 t3, t = a1 :: a2 :: a3 :: t3 /\
                       128 <= byteZ a1 /\ 128 <= byteZ a2 /\ 128 <= byteZ a3 /\
                       forall t', runeSize (a :: a1 :: a2 :: a3 :: t') = 4%nat).
Proof.
  intros Ha. cbn [runeSize].
  destruct (Z.ltb_spec (byteZ a) 128); [lia|].
  destruct (between 194 223 a) eqn:Hb2.
  { destruct t as [|a1 t1]; [by left|].
    destruct (between 128 191 a1) eqn:H1; [|by left].
    right. left. exists a1, t1. split; [done|]. split.
    - unfold between in H1. apply andb_prop in H1 as [H1 _]. by apply Z.leb_le in H1.
    - intros t'. by rewrite H1. }
  destruct (between 224 239 a) eqn:Hb3.
  { destruct t as [|a1 [|a2 t2]]; [by left|by left|].
    destruct (between _ _ a1 && between 128 191 a2) eqn:H12; [|by left].
    right. right. left. exists a1, a2, t2. split; [done|].
    split; [|split; [|intros t'; by rewrite H12]].
    - apply andb_prop in H12 as [H1 _]. unfold between in H1.
      apply andb_prop in H1 as [H1 _]. apply Z.leb_le in H1.
      by destruct (byteZ a =? 224); lia.
    - apply andb_prop in H12 as [_ H2]. unfold between in H2.
      apply andb_prop in H2 as [H2 _]. by apply Z.leb_le in H2. }
  destruct (between 240 244 a) eqn:Hb4; [|by left].
  destruct t as [|a1 [|a2 [|a3 t3]]]; [by left|by left|by left|].
  destruct (between _ _ a1 && between 128 191 a2 && between 128 191 a3) eqn:H123;
    [|by left].
  right. right. right. exists a1, a2, a3, t3. split; [done|].
  split; [|split; [|split; [|intros t'; by rewrite H123]]].
  - apply andb_prop in H123 as [H12 _]. apply andb_prop in H12 as [H1 _].
    unfold between in H1. apply andb_prop in H1 as [H1 _]. apply Z.leb_le in H1.
    by destruct (byteZ a =? 240); lia.
  - apply andb_prop in H123 as [H12 _]. apply andb_prop in H12 as [_ H2].
    unfold between in H2. apply andb_prop in H2 as [H2 _]. by apply Z.leb_le in H2.
  - apply andb_prop in H123 as [_ H3].
    unfold between in H3. apply andb_prop in H3 as [H3 _]. by apply Z.leb_le in H3.
Qed.

(** Strong induction on the length of a list. *)
Lemma list_length_ind {A} (P : list A -> Prop) :
  (forall l, (forall l', (length l' < length l)%nat -> P l') -> P l) -> forall l, P l.
Proof.
  intros H l. assert (forall n l, (length l < n)%nat -> P l) as Hn.
  { clear l. induction n as [|n IH]; intros l Hl; [lia|].
    apply H. intros l' Hl'. apply IH. lia. }
  apply (Hn (S (length l))). lia.
Qed.

(** An escaped byte below 0x80 is read back as the byte. *)
Lemma unquote_escapeASCII a rest :
  byteZ a < 128 ->
  unquoteBody (escapeASCII a ++ rest) = prepend [a] (unquoteBody rest).
Proof.
  destruct a as [[] [] [] [] [] [] [] []]; intros H;
    try (exfalso; vm_compute in H; discriminate); reflexivity.
Qed.

(** A string of well-formed UTF-8, written by [appendString], is read back
    as it is by [unquote]. *)
Lemma unquote_quoteBody b rest :
  Valid b = true ->
  unquoteBody (quoteBody b ++ dquote :: rest) = Some (b, rest).
Proof.
  induction b as [b IH] using list_length_ind. intros Hvalid.
  destruct b as [|a t]; [done|].
  destruct (Z.lt_ge_cases (byteZ a) 128) as [Hlow|Hhigh].
  - cbn [quoteBody]. destruct (Z.ltb_spec (byteZ a) 128); [|lia].
    rewrite <- app_assoc, unquote_escapeASCII by done.
    cbn [Valid] in Hvalid. rewrite runeSize_1 in Hvalid by done.
    rewrite IH; [done|simpl; lia|done].
  - assert (Hhead : (byteZ a =? 34) = false /\ (byteZ a =? 92) = false /\
                    (byteZ a <? 32) = false /\ (byteZ a <? 128) = false).
    { repeat split; try (apply Z.eqb_neq; lia); apply Z.ltb_ge; lia. }
    destruct Hhead as (H34 & H92 & H32 & H128).
    cbn [Valid] in Hvalid. cbn [quoteBody]. rewrite H128.
    destruct (runeSize_cases a t Hhigh)
      as [H0|[(a1 & t1 & -> & Ha1 & H2)|[(a1 & a2 & t2 & -> & Ha1 & Ha2 & H3)
         |(a1 & a2 & a3 & t3 & -> & Ha1 & Ha2 & Ha3 & H4)]]].
    + by rewrite H0 in Hvalid.
    + rewrite (H2 t1) in *. cbn [app]. cbn [unquoteBody].
      rewrite H34, H92, H32, H128, (H2 _).
      rewrite IH; [done|simpl; lia|done].
    + rewrite (H3 t2) in *.
      destruct (lineSeparator a a1 a2) eqn:Hsep.
      * unfold lineSeparator in Hsep.
        apply andb_prop in Hsep as [Hsep Hc]. apply andb_prop in Hsep as [Ha Hb].
        apply Z.eqb_eq in Ha, Hb.
        assert (a = byteOf 226) as -> by (by rewrite <- Ha, byteOf_byteZ).
        assert (a1 = byteOf 128) as -> by (by rewrite <- Hb, byteOf_byteZ).
        apply orb_prop in Hc as [Hc|Hc]; apply Z.eqb_eq in Hc.
        -- assert (a2 = byteOf 168) as -> by (by rewrite <- Hc, byteOf_byteZ).
           rewrite <- app_assoc.
           transitivity (prepend [byteOf 226; byteOf 128; byteOf 168]
                           (unquoteBody (quoteBody t2 ++ dquote :: rest)));
             [reflexivity|].
           rewrite IH; [done|simpl; lia|done].
        -- assert (a2 = byteOf 169) as -> by (by rewrite <- Hc, byteOf_byteZ).
           rewrite <- app_assoc.
           transitivity (prepend [byteOf 226; byteOf 128; byteOf 169]
                           (unquoteBody (quoteBody t2 ++ dquote :: rest)));
             [reflexivity|].
           rewrite IH; [done|simpl; lia|done].
      * cbn [app]. cbn [unquoteBody].
        rewrite H34, H92, H32, H128, (H3 _).
        rewrite IH; [done|simpl; lia|done].
    + rewrite (H4 t3) in *. cbn [app]. cbn [unquoteBody].
      rewrite H34, H92, H32, H128, (H4 _).
      rewrite IH; [done|simpl; lia|done].
Qed.

(** *** Numbers *)

(** What may follow a value in a text: nothing, a comma, or the bracket or
    brace that closes the array or object around it. *)
Definition delimited (rest : list ascii) : bool :=
  match rest with
  | [] => true
  | a :: _ => (byteZ a =? 44) || (byteZ a =? 93) || (byteZ a =? 125)
  end.

(** The four parts of a number literal, as [scanNumber] reads them. *)
Definition scanSign (s : list ascii) : list ascii * list ascii :=
  match s with
  | a :: t => if byteZ a =? 45 then ([a], t) else ([], s)
  | [] => ([], s)
  end.

Definition scanInt (s1 : list ascii) : option (list ascii * list ascii) :=
  match s1 with
  | a :: t =>
      if byteZ a =? 48 then Some ([a], t)
      else if isDigit a then let '(ds, rest) := digits t in Some (a :: ds, rest)
      else None
  | [] => None
  end.

Definition scanFrac (s2 : list ascii) : option (list ascii * list ascii) :=
  match s2 with
  | a :: t =>
      if byteZ a =? 46 then
        match digits t with
        | ([], _) => None
        | (ds, rest) => Some (a :: ds, rest)
        end
      else Some ([], s2)
  | [] => Some ([], s2)
  end.

Definition scanExp (s3 : list ascii) : option (list ascii * list ascii) :=
  match s3 with
  | a :: t =>
      if (byteZ a =? 101) || (byteZ a =? 69) then
        let '(esign, t1) :=
          match t with
          | b :: t' => if (byteZ b =? 43) || (byteZ b =? 45)
                       then ([b], t') else ([], t)
          | [] => ([], t)
          end in
        match digits t1 with
        | ([], _) => None
        | (ds, rest) => Some (a :: esign ++ ds, rest)
        end
      else Some ([], s3)
  | [] => Some ([], s3)
  end.

Lemma scanNumber_parts s :
  scanNumber s =
  let '(sign, s1) := scanSign s in
  '(int, s2) ← scanInt s1;
  '(frac, s3) ← scanFrac s2;
  '(exp, s4) ← scanExp s3;
  Some (sign ++ int ++ frac ++ exp, s4).
Proof. reflexivity. Qed.

Lemma delimited_head a t :
  delimited (a :: t) = true ->
  isDigit a = false /\ (byteZ a =? 46) = false /\ (byteZ a =? 101) = false /\
  (byteZ a =? 69) = false /\ (byteZ a =? 43) = false /\ (byteZ a =? 45) = false /\
  (byteZ a =? 48) = false /\ isSpace a = false.
Proof.
  unfold delimited, isDigit, isSpace. intros H.
  assert (byteZ a = 44 \/ byteZ a = 93 \/ byteZ a = 125) as Ha.
  { apply orb_prop in H as [H|H]; [apply orb_prop in H as [H|H]|];
      apply Z.eqb_eq in H; lia. }
  by destruct Ha as [ -> | [ -> | -> ] ].
Qed.

Lemma digits_app x rest :
  delimited rest = true -> digits (x ++ rest) = ((digits x).1, (digits x).2 ++ rest).
Proof.
  intros Hrest. induction x as [|a x IH]; simpl.
  - destruct rest as [|b rest]; [done|].
    destruct (delimited_head _ _ Hrest) as (Hd & _). simpl. by rewrite Hd.
  - destruct (isDigit a); [|done]. rewrite IH. by destruct (digits x).
Qed.

Lemma scanInt_app s l r rest :
  scanInt s = Some (l, r) -> delimited rest = true ->
  scanInt (s ++ rest) = Some (l, r ++ rest).
Proof.
  intros Hs Hrest. destruct s as [|a t]; [done|]. simpl in *.
  destruct (byteZ a =? 48); [by injection Hs as <- <- |].
  destruct (isDigit a); [|done]. rewrite digits_app by done.
  destruct (digits t) as [ds r']. by injection Hs as <- <-.
Qed.

Lemma scanFrac_app s l r rest :
  scanFrac s = Some (l, r) -> delimited rest = true ->
  scanFrac (s ++ rest) = Some (l, r ++ rest).
Proof.
  intros Hs Hrest. destruct s as [|a t]; simpl in *.
  - injection Hs as <- <-. destruct rest as [|b rest]; [done|].
    destruct (delimited_head _ _ Hrest) as (_ & Hdot & _). simpl. by rewrite Hdot.
  - destruct (byteZ a =? 46); [|by injection Hs as <- <-].
    rewrite digits_app by done. destruct (digits t) as [[|d ds] r']; [done|].
    by injection Hs as <- <-.
Qed.

Lemma scanExp_app s l r rest :
  scanExp s = Some (l, r) -> delimited rest = true ->
  scanExp (s ++ rest) = Some (l, r ++ rest).
Proof.
  intros Hs Hrest. destruct s as [|a t]; simpl in *.
  - injection Hs as <- <-. destruct rest as [|b rest]; [done|].
    destruct (delimited_head _ _ Hrest) as (_ & _ & He & HE & _). simpl.
    by rewrite He, HE.
  - destruct ((byteZ a =? 101) || (byteZ a =? 69)); [|by injection Hs as <- <-].
    destruct t as [|b t']; simpl in *; [done|].
    destruct ((byteZ b =? 43) || (byteZ b =? 45)).
    + rewrite digits_app by done. destruct (digits t') as [[|d ds] r']; [done|].
      by injection Hs as <- <-.
    + change (b :: t' ++ rest) with ((b :: t') ++ rest). rewrite digits_app by done.
      destruct (digits (b :: t')) as [[|d ds] r']; [done|].
      by injection Hs as <- <-.
Qed.

(** A number literal is read in the same way with a delimiter behind
    it. *)
Lemma scanNumber_app b l r rest :
  scanNumber b = Some (l, r) -> delimited rest = true ->
  scanNumber (b ++ rest) = Some (l, r ++ rest).
Proof.
  rewrite !scanNumber_parts. intros Hb Hrest.
  assert (Hsign : scanSign (b ++ rest) = ((scanSign b).1, (scanSign b).2 ++ rest)).
  { destruct b as [|a t]; simpl.
    - destruct rest as [|c rest']; [done|].
      destruct (delimited_head _ _ Hrest) as (_ & _ & _ & _ & _ & H45 & _).
      simpl. by rewrite H45.
    - by destruct (byteZ a =? 45). }
  rewrite Hsign. destruct (scanSign b) as [sign s1]. cbn [fst snd].
  destruct (scanInt s1) as [[int s2]|] eqn:Hint; [|done].
  rewrite (scanInt_app _ _ _ _ Hint Hrest). cbn [mbind option_bind] in *.
  destruct (scanFrac s2) as [[frac s3]|] eqn:Hfrac; [|done].
  rewrite (scanFrac_app _ _ _ _ Hfrac Hrest). cbn [mbind option_bind] in *.
  destruct (scanExp s3) as [[exp s4]|] eqn:Hexp; [|done].
  rewrite (scanExp_app _ _ _ _ Hexp Hrest). cbn [mbind option_bind] in *.
  by injection Hb as <- <-.
Qed.

(** A number literal: what [scanNumber] reads whole. *)
Definition validNumber (literal : string) : bool :=
  match scanNumber (bytes literal) with
  | Some (l, []) => true
  | _ => false
  end.

Lemma validNumber_scan literal rest :
  validNumber literal = true -> delimited rest = true ->
  scanNumber (bytes literal ++ rest) = Some (bytes literal, rest) /\
  exists a t, bytes literal = a :: t /\ (byteZ a = 45 \/ isDigit a = true).
Proof.
  unfold validNumber. intros Hvalid Hrest.
  destruct (scanNumber (bytes literal)) as [[l [|? ?]]|] eqn:Hscan; try done.
  assert (l = bytes literal) as ->.
  { clear Hvalid. rewrite scanNumber_parts in Hscan.
    (* what is read and what is left make up the text *)
    assert (forall s l r, scanInt s = Some (l, r) -> s = l ++ r) as Hint.
    { intros [|a t] l0 r0; simpl; [done|].
      destruct (byteZ a =? 48); [by intros [= <- <-]|].
      destruct (isDigit a); [|done].
      assert (forall x, x = (digits x).1 ++ (digits x).2) as Hd.
      { induction x as [|c x IHx]; simpl; [done|].
        destruct (isDigit c); [|done]. destruct (digits x); simpl in *. by f_equal. }
      pose proof (Hd t). destruct (digits t). intros [= <- <-]. simpl in *. by f_equal. }
    assert (forall x, x = (digits x).1 ++ (digits x).2) as Hd.
    { induction x as [|c x IHx]; simpl; [done|].
      destruct (isDigit c); [|done]. destruct (digits x); simpl in *. by f_equal. }
    assert (forall s l r, scanFrac s = Some (l, r) -> s = l ++ r) as Hfrac.
    { intros [|a t] l0 r0; simpl; [by intros [= <- <-]|].
      destruct (byteZ a =? 46); [|by intros [= <- <-]].
      pose proof (Hd t). destruct (digits t) as [[|d ds] r']; [done|].
      intros [= <- <-]. simpl in *. by f_equal. }
    assert (forall s l r, scanExp s = Some (l, r) -> s = l ++ r) as Hexp.
    { intros [|a t] l0 r0; simpl; [by intros [= <- <-]|].
      destruct ((byteZ a =? 101) || (byteZ a =? 69)); [|by intros [= <- <-]].
      destruct t as [|b t']; simpl; [done|].
      destruct ((byteZ b =? 43) || (byteZ b =? 45)).
      - pose proof (Hd t'). destruct (digits t') as [[|d ds] r']; [done|].
        intros [= <- <-]. simpl in *. by do 2 f_equal.
      - pose proof (Hd (b :: t')). destruct (digits (b :: t')) as [[|d ds] r']; [done|].
        intros [= <- <-]. simpl in *. by f_equal. }
    assert (bytes literal = (scanSign (bytes literal)).1 ++ (scanSign (bytes literal)).2)
      as Hsign.
    { destruct (bytes literal) as [|a t]; [done|]. simpl. by destruct (byteZ a =? 45). }
    destruct (scanSign (bytes literal)) as [sign s1]. cbn [fst snd] in *.
    destruct (scanInt s1) as [[int s2]|] eqn:H1; [|done].
    cbn [mbind option_bind] in Hscan.
    destruct (scanFrac s2) as [[frac s3]|] eqn:H2; [|done].
    cbn [mbind option_bind] in Hscan.
    destruct (scanExp s3) as [[exp s4]|] eqn:H3; [|done].
    cbn [mbind option_bind] in Hscan. injection Hscan as <- ->.
    rewrite Hsign, (Hint _ _ _ H1), (Hfrac _ _ _ H2), (Hexp _ _ _ H3).
    by rewrite app_nil_r. }
  split.
  - rewrite (scanNumber_app _ _ _ _ Hscan Hrest). done.
  - rewrite scanNumber_parts in Hscan.
    destruct (bytes literal) as [|a t]; [done|]. exists a, t. split; [done|].
    simpl in Hscan. destruct (Z.eqb_spec (byteZ a) 45); [by left|right].
    simpl in Hscan. destruct (Z.eqb_spec (byteZ a) 48) as [H48|]; [|by destruct (isDigit a)].
    unfold isDigit. by rewrite H48.
Qed.

(** *** Texts of values *)

(** The equations of the parser. *)
Lemma parseValue_S fuel' depth s :
  parseValue (S fuel') depth s =
  match skipSpace s with
  | [] => None
  | a :: t =>
      let c := byteZ a in
      if c =? 123 then
        if (maxNestingDepth <=? depth)%N then None
        else match skipSpace t with
             | b :: t' =>
                 if byteZ b =? 125 then Some (JObject [], t')
                 else '(ms, rest) ← parseMembers fuel' (depth + 1)%N t;
                      Some (JObject ms, rest)
             | [] => None
             end
      else if c =? 91 then
        if (maxNestingDepth <=? depth)%N then None
        else match skipSpace t with
             | b :: t' =>
                 if byteZ b =? 93 then Some (JArray [], t')
                 else '(es, rest) ← parseElements fuel' (depth + 1)%N t;
                      Some (JArray es, rest)
             | [] => None
             end
      else if c =? 34 then
        '(str, rest) ← unquoteBody t; Some (JString (GoBytes.str str), rest)
      else if c =? 116 then
        rest ← stripPrefix (bytes "true") (a :: t); Some (JBool true, rest)
      else if c =? 102 then
        rest ← stripPrefix (bytes "false") (a :: t); Some (JBool false, rest)
      else if c =? 110 then
        rest ← stripPrefix (bytes "null") (a :: t); Some (JNull, rest)
      else
        '(lit, rest) ← scanNumber (a :: t); Some (JNumber (GoBytes.str lit), rest)
  end.
Proof. reflexivity. Qed.

Lemma parseElements_S fuel' depth s :
  parseElements (S fuel') depth s =
  '(v, rest) ← parseValue fuel' depth s;
  match skipSpace rest with
  | a :: t =>
      if byteZ a =? 44 then
        '(vs, rest') ← parseElements fuel' depth t; Some (v :: vs, rest')
      else if byteZ a =? 93 then Some ([v], t)
      else None
  | [] => None
  end.
Proof. reflexivity. Qed.

Lemma parseMembers_S fuel' depth s :
  parseMembers (S fuel') depth s =
  match skipSpace s with
  | q :: t =>
      if byteZ q =? 34 then
        '(key, rest) ← unquoteBody t;
        match skipSpace rest with
        | colon :: t1 =>
            if byteZ colon =? 58 then
              '(v, rest1) ← parseValue fuel' depth t1;
              match skipSpace rest1 with
              | a :: t2 =>
                  if byteZ a =? 44 then
                    '(ms, rest2) ← parseMembers fuel' depth t2;
                    Some ((GoBytes.str key, v) :: ms, rest2)
                  else if byteZ a =? 125 then Some ([(GoBytes.str key, v)], t2)
                  else None
              | [] => None
              end
            else None
        | [] => None
        end
      else None
  | [] => None
  end.
Proof. reflexivity. Qed.

Lemma skipSpace_spaces gap s :
  forallb isSpace gap = true -> skipSpace (gap ++ s) = skipSpace s.
Proof.
  induction gap as [|a gap IH]; [done|]. simpl.
  destruct (isSpace a); [|done]. exact IH.
Qed.

Lemma skipSpace_head a t : isSpace a = false -> skipSpace (a :: t) = a :: t.
Proof. intros H. simpl. by rewrite H. Qed.

(** The parser starts by skipping white space. *)
Lemma parseValue_skip fuel depth s s' :
  skipSpace s = skipSpace s' -> parseValue fuel depth s = parseValue fuel depth s'.
Proof. intros H. destruct fuel; [done|]. by rewrite !parseValue_S, H. Qed.

Lemma parseElements_skip fuel depth s s' :
  skipSpace s = skipSpace s' -> parseElements fuel depth s = parseElements fuel depth s'.
Proof.
  intros H. destruct fuel; [done|].
  by rewrite !parseElements_S, (parseValue_skip _ _ _ _ H).
Qed.

Lemma parseMembers_skip fuel depth s s' :
  skipSpace s = skipSpace s' -> parseMembers fuel depth s = parseMembers fuel depth s'.
Proof. intros H. destruct fuel; [done|]. by rewrite !parseMembers_S, H. Qed.

Lemma forallb_elem {A} (f : A -> bool) (l : list A) (x : A) :
  forallb f l = true -> x ∈ l -> f x = true.
Proof.
  intros Hall Hx. rewrite forallb_forall in Hall. apply Hall.
  by apply list_elem_of_In.
Qed.

(** The number of arrays and objects nested in a value. *)
Fixpoint depthOf (j : json) : N :=
  match j with
  | JArray elements => 1 + foldr N.max 0%N (map depthOf elements)
  | JObject members => 1 + foldr N.max 0%N (map (fun m => depthOf m.2) members)
  | _ => 0
  end.

Section Printer.

(** A way to write values: the text of a string and the white space put
    after a comma and after a colon. *)
Variable quoteWith : string -> list ascii.
Variable gap : list ascii.

(** The strings that the parser reads back from their text. *)
Variable okString : string -> bool.

Hypothesis gap_spaces : forallb isSpace gap = true.
Hypothesis quoteWith_read : forall s rest,
  okString s = true ->
  exists body, quoteWith s = dquote :: body /\
               unquoteBody (body ++ rest) = Some (bytes s, rest).

Fixpoint joinWith (texts : list (list ascii)) : list ascii :=
  match texts with
  | [] => []
  | [text] => text
  | text :: rest => text ++ ","%char :: gap ++ joinWith rest
  end.

Fixpoint print (j : json) : list ascii :=
  match j with
  | JNull => bytes "null"
  | JBool true => bytes "true"
  | JBool false => bytes "false"
  | JNumber literal => bytes literal
  | JString s => quoteWith s
  | JArray elements => "["%char :: joinWith (map print elements) ++ ["]"%char]
  | JObject members =>
      "{"%char
      :: joinWith (map (fun m => quoteWith m.1 ++ ":"%char :: gap ++ print m.2) members)
      ++ ["}"%char]
  end.

(** The values whose strings and keys are read back and whose numbers are
    number literals. *)
Fixpoint readable (j : json) : bool :=
  match j with
  | JNumber literal => validNumber literal
  | JString s => okString s
  | JArray elements => forallb readable elements
  | JObject members => forallb (fun m => okString m.1 && readable m.2) members
  | _ => true
  end.

Lemma joinWith_cons text text2 rest :
  joinWith (text :: text2 :: rest) = text ++ ","%char :: gap ++ joinWith (text2 :: rest).
Proof. reflexivity. Qed.

(** The first byte of the text of a value. *)
Lemma print_head j :
  readable j = true ->
  exists c t, print j = c :: t /\ isSpace c = false /\
              byteZ c <> 93 /\ byteZ c <> 125.
Proof.
  destruct j as [|[]|literal|s|elements|members]; intros Hj;
    try (by eexists _, _; split; [reflexivity|]; vm_compute).
  - destruct (validNumber_scan literal [] Hj eq_refl) as (_ & a & t & Ha & Hc).
    exists a, t. cbn [print]. split; [done|].
    unfold isSpace, isDigit in *.
    destruct Hc as [->|Hc]; [done|].
    apply andb_prop in Hc as [H1 H2]. apply Z.leb_le in H1, H2.
    split; [|lia].
    repeat (apply orb_false_intro); apply Z.eqb_neq; lia.
  - destruct (quoteWith_read s [] Hj) as (body & Hq & _).
    exists dquote, body. cbn [print]. by split; [|vm_compute].
Qed.

Lemma length_joinWith_head text rest :
  (length text <= length (joinWith (text :: rest)))%nat.
Proof. destruct rest; simpl; [lia|]. rewrite length_app. lia. Qed.

Lemma length_joinWith_tail text text2 rest :
  (length (joinWith (text2 :: rest)) + 1 <= length (joinWith (text :: text2 :: rest)))%nat.
Proof. rewrite joinWith_cons, length_app. simpl. rewrite length_app. lia. Qed.

(** The elements of an array behind the opening bracket. *)
Lemma parseElements_print elements :
  elements <> [] ->
  Forall (fun e => forall fuel depth rest,
            (length (print e) < fuel)%nat ->
            (depth + depthOf e <= maxNestingDepth)%N ->
            delimited rest = true ->
            parseValue fuel depth (print e ++ rest) = Some (e, rest)) elements ->
  forall fuel depth rest,
    (length (joinWith (map print elements)) + 1 < fuel)%nat ->
    Forall (fun e => (depth + depthOf e <= maxNestingDepth)%N) elements ->
    parseElements fuel depth (joinWith (map print elements) ++ "]"%char :: rest)
    = Some (elements, rest).
Proof.
  intros Hne Hall. revert Hne. induction Hall as [|e es He _ IH]; [done|]. intros _.
  intros fuel depth rest Hfuel Hdepth.
  destruct fuel as [|fuel']; [lia|]. rewrite parseElements_S.
  inversion Hdepth as [|? ? Hde Hdes]; subst.
  destruct es as [|e2 es'].
  - cbn [map joinWith] in *.
    rewrite He; [|lia|done|done]. cbn [mbind option_bind].
    reflexivity.
  - change (map print (e :: e2 :: es')) with (print e :: print e2 :: map print es') in *.
    rewrite joinWith_cons in *. rewrite <- app_assoc.
    pose proof (length_joinWith_tail (print e) (print e2) (map print es')) as Hlen.
    rewrite joinWith_cons in Hlen.
    rewrite He; [|rewrite length_app in Hfuel; lia|done|done].
    cbn [mbind option_bind].
    rewrite <- app_comm_cons. rewrite skipSpace_head by done.
    change (byteZ ","%char =? 44) with true. cbv iota.
    rewrite <- app_assoc.
    rewrite (parseElements_skip _ _ _ (joinWith (print e2 :: map print es')
                                        ++ "]"%char :: rest))
      by (by rewrite skipSpace_spaces).
    change (print e2 :: map print es') with (map print (e2 :: es')).
    rewrite IH; [done|done| |done].
    change (map print (e2 :: es')) with (print e2 :: map print es'). lia.
Qed.

Definition memberText (m : string * json) : list ascii :=
  quoteWith m.1 ++ ":"%char :: gap ++ print m.2.

(** The members of an object behind the opening brace. *)
Lemma parseMembers_print members :
  Forall (fun m => okString m.1 = true /\
            forall fuel depth rest,
              (length (print m.2) < fuel)%nat ->
              (depth + depthOf m.2 <= maxNestingDepth)%N ->
              delimited rest = true ->
              parseValue fuel depth (print m.2 ++ rest) = Some (m.2, rest)) members ->
  members <> [] ->
  forall fuel depth rest,
    (length (joinWith (map memberText members)) + 1 < fuel)%nat ->
    Forall (fun m => (depth + depthOf m.2 <= maxNestingDepth)%N) members ->
    parseMembers fuel depth (joinWith (map memberText members) ++ "}"%char :: rest)
    = Some (members, rest).
Proof.
  intros Hall. induction Hall as [|[k v] ms [Hk Hv] _ IH]; [done|]. intros _.
  intros fuel depth rest Hfuel Hdepth.
  destruct fuel as [|fuel']; [lia|]. rewrite parseMembers_S.
  inversion Hdepth as [|? ? Hdv Hdms]; subst. cbn [fst snd] in *.
  assert (Hmember : forall tail,
            delimited tail = true ->
            skipSpace (memberText (k, v) ++ tail) = dquote :: tl (memberText (k, v) ++ tail) /\
            (length (print v) < length (memberText (k, v)))%nat /\
            (unquoteBody (tl (memberText (k, v) ++ tail))
             = Some (bytes k, ":"%char :: gap ++ print v ++ tail))).
  { intros tail Htail. unfold memberText. cbn [fst snd].
    destruct (quoteWith_read k (":"%char :: gap ++ print v ++ tail) Hk)
      as (body & Hq & Hbody).
    rewrite Hq. cbn [app tl]. split; [done|]. split.
    - simpl. rewrite !length_app. simpl. rewrite length_app. lia.
    - rewrite <- Hbody. f_equal. rewrite <- !app_assoc. cbn [app].
      by rewrite <- !app_assoc. }
  destruct ms as [|m2 ms'].
  - cbn [map joinWith] in *.
    destruct (Hmember ("}"%char :: rest) eq_refl) as (Hskip & Hlen & Hkey).
    rewrite Hskip. change (byteZ dquote =? 34) with true. cbv iota.
    rewrite Hkey. cbn [mbind option_bind].
    rewrite skipSpace_head by done.
    change (byteZ ":"%char =? 58) with true. cbv iota.
    rewrite (parseValue_skip _ _ _ (print v ++ "}"%char :: rest))
      by (by rewrite skipSpace_spaces).
    rewrite Hv; [|lia|done|done]. cbn [mbind option_bind].
    rewrite skipSpace_head by done.
    change (byteZ "}"%char =? 44) with false.
    change (byteZ "}"%char =? 125) with true. cbv iota.
    by rewrite str_bytes.
  - change (map memberText ((k, v) :: m2 :: ms'))
      with (memberText (k, v) :: memberText m2 :: map memberText ms') in *.
    rewrite joinWith_cons in *. rewrite <- app_assoc.
    pose proof (length_joinWith_tail (memberText (k, v)) (memberText m2)
                  (map memberText ms')) as Hlen2.
    rewrite joinWith_cons in Hlen2.
    set (tail := ","%char :: gap ++ joinWith (memberText m2 :: map memberText ms')) in *.
    destruct (Hmember (tail ++ "}"%char :: rest) eq_refl) as (Hskip & Hlen & Hkey).
    rewrite Hskip. change (byteZ dquote =? 34) with true. cbv iota.
    rewrite Hkey. cbn [mbind option_bind].
    rewrite skipSpace_head by done.
    change (byteZ ":"%char =? 58) with true. cbv iota.
    rewrite (parseValue_skip _ _ _ (print v ++ tail ++ "}"%char :: rest))
      by (by rewrite skipSpace_spaces).
    rewrite Hv; [|rewrite length_app in Hfuel; lia|done|done].
    cbn [mbind option_bind].
    unfold tail at 1. rewrite <- app_comm_cons.
    rewrite skipSpace_head by done.
    change (byteZ ","%char =? 44) with true. cbv iota.
    rewrite <- app_assoc.
    rewrite (parseMembers_skip _ _ _ (joinWith (memberText m2 :: map memberText ms')
                                       ++ "}"%char :: rest))
      by (by rewrite skipSpace_spaces).
    change (memberText m2 :: map memberText ms') with (map memberText (m2 :: ms')) in *.
    rewrite IH; [by rewrite str_bytes|done| |done].
    clear -Hfuel Hlen2. lia.
Qed.

Lemma depthOf_elements depth elements :
  (depth + (1 + foldr N.max 0 (map depthOf elements)) <= maxNestingDepth)%N ->
  Forall (fun e => (depth + 1 + depthOf e <= maxNestingDepth)%N) elements.
Proof.
  induction elements as [|e es IH]; [constructor|]. simpl. intros H.
  constructor; [lia|]. apply IH. lia.
Qed.

Lemma depthOf_members depth (members : list (string * json)) :
  (depth + (1 + foldr N.max 0 (map (fun m => depthOf m.2) members)) <= maxNestingDepth)%N ->
  Forall (fun m => (depth + 1 + depthOf m.2 <= maxNestingDepth)%N) members.
Proof.
  induction members as [|m ms IH]; [constructor|]. simpl. intros H.
  constructor; [lia|]. apply IH. lia.
Qed.

(** The text of a value is read back as the value. *)
Lemma parseValue_print j :
  readable j = true ->
  forall fuel depth rest,
    (length (print j) < fuel)%nat ->
    (depth + depthOf j <= maxNestingDepth)%N ->
    delimited rest = true ->
    parseValue fuel depth (print j ++ rest) = Some (j, rest).
Proof.
  induction j as [|b|literal|s|elements IH|members IH] using json_ind';
    intros Hj fuel depth rest Hfuel Hdepth Hrest;
    (destruct fuel as [|fuel']; [lia|]).
  - reflexivity.
  - by destruct b.
  - destruct (validNumber_scan literal rest Hj Hrest) as (Hscan & a & t & Ha & Hc).
    rewrite parseValue_S. cbn [print] in *. rewrite Ha in *.
    rewrite <- app_comm_cons in *.
    assert (isSpace a = false /\ (byteZ a =? 123) = false /\ (byteZ a =? 91) = false /\
            (byteZ a =? 34) = false /\ (byteZ a =? 116) = false /\
            (byteZ a =? 102) = false /\ (byteZ a =? 110) = false)
      as (H0 & H1 & H2 & H3 & H4 & H5 & H6).
    { unfold isSpace, isDigit in *. destruct Hc as [->|Hc]; [done|].
      apply andb_prop in Hc as [Hlo Hhi]. apply Z.leb_le in Hlo, Hhi.
      repeat split; repeat (apply orb_false_intro); apply Z.eqb_neq; lia. }
    rewrite skipSpace_head by done. cbv zeta.
    rewrite H1, H2, H3, H4, H5, H6, Hscan. cbn [mbind option_bind].
    by rewrite <- Ha, str_bytes.
  - destruct (quoteWith_read s rest Hj) as (body & Hq & Hbody).
    rewrite parseValue_S. cbn [print]. rewrite Hq. rewrite <- app_comm_cons.
    rewrite skipSpace_head by done. cbv zeta.
    change (byteZ dquote =? 123) with false. change (byteZ dquote =? 91) with false.
    change (byteZ dquote =? 34) with true. cbv iota.
    rewrite Hbody. cbn [mbind option_bind]. by rewrite str_bytes.
  - rewrite parseValue_S. cbn [print depthOf readable] in *.
    rewrite <- app_comm_cons. rewrite skipSpace_head by done. cbv zeta.
    change (byteZ "["%char =? 123) with false. change (byteZ "["%char =? 91) with true.
    cbv iota.
    assert ((maxNestingDepth <=? depth)%N = false) as -> by (apply N.leb_gt; lia).
    rewrite <- app_assoc. cbn [app].
    destruct elements as [|e es]; [reflexivity|].
    assert (He : readable e = true) by (cbn in Hj; by apply andb_prop in Hj as [? _]).
    destruct (print_head e He) as (c & t & Hc & Hspace & Hc93 & _).
    assert (Hskip : skipSpace (joinWith (map print (e :: es)) ++ "]"%char :: rest)
                    = c :: tl (joinWith (map print (e :: es)) ++ "]"%char :: rest)).
    { destruct es; cbn [map joinWith]; rewrite Hc; simpl; by rewrite Hspace. }
    rewrite Hskip.
    assert ((byteZ c =? 93) = false) as -> by (by apply Z.eqb_neq).
    rewrite (parseElements_print (e :: es)); [done|done| | |].
    + apply Forall_forall. intros x Hx.
      rewrite Forall_forall in IH. apply IH; [done|].
      by apply (forallb_elem _ _ _ Hj).
    + cbn [length] in Hfuel. rewrite length_app in Hfuel. cbn [length] in Hfuel.
      clear -Hfuel. lia.
    + by apply depthOf_elements.
  - rewrite parseValue_S. cbn [print depthOf readable] in *.
    rewrite <- app_comm_cons. rewrite skipSpace_head by done. cbv zeta.
    change (byteZ "{"%char =? 123) with true. cbv iota.
    assert ((maxNestingDepth <=? depth)%N = false) as -> by (apply N.leb_gt; lia).
    rewrite <- app_assoc. cbn [app].
    destruct members as [|[k v] ms]; [reflexivity|].
    fold (memberText) in *.
    assert (Hk : okString k = true).
    { cbn in Hj. apply andb_prop in Hj as [Hj _]. by apply andb_prop in Hj as [? _]. }
    destruct (quoteWith_read k [] Hk) as (body & Hq & _).
    assert (Hskip : exists t,
               skipSpace (joinWith (map memberText ((k, v) :: ms)) ++ "}"%char :: rest)
               = dquote :: t).
    { destruct ms; cbn [map joinWith]; unfold memberText at 1; cbn [fst snd];
        rewrite Hq; by eexists. }
    destruct Hskip as [t Hskip]. rewrite Hskip.
    change (byteZ dquote =? 125) with false. cbv iota.
    rewrite (parseMembers_print ((k, v) :: ms)); [done| |done| |].
    + apply Forall_forall. intros x Hx.
      pose proof (forallb_elem _ _ _ Hj Hx) as Hjx. cbv beta in Hjx.
      apply andb_prop in Hjx as [Hxk Hxv]. split; [done|].
      rewrite Forall_forall in IH. by apply IH.
    + cbn [length] in Hfuel. rewrite length_app in Hfuel. cbn [length] in Hfuel.
      clear -Hfuel. lia.
    + by apply depthOf_members.
Qed.

(** [parse] of the text of a value. *)
Lemma parse_print j :
  readable j = true -> (depthOf j <= maxNestingDepth)%N -> parse (print j) = Some j.
Proof.
  intros Hj Hdepth. unfold parse.
  rewrite <- (app_nil_r (print j)) at 2.
  rewrite parseValue_print; [done|done|lia|lia|done].
Qed.

End Printer.

(** *** The texts of [json.Marshal] *)

Import Experiment GoJson.

(** The strings that are well-formed UTF-8, which [json.Marshal] writes
    without replacing a byte. *)
Definition validString (s : string) : bool := Valid (bytes s).

Lemma commas_joinWith texts : commas texts = joinWith [] texts.
Proof.
  induction texts as [|text [|text2 rest] IH]; [done|done|].
  change (commas (text :: text2 :: rest)) with (text ++ ","%char :: commas (text2 :: rest)).
  by rewrite IH.
Qed.

Lemma render_print j : render j = print quote [] j.
Proof. reflexivity. Qed.

Lemma quote_read s rest :
  validString s = true ->
  exists body, quote s = dquote :: body /\
               unquoteBody (body ++ rest) = Some (bytes s, rest).
Proof.
  intros Hs. exists (quoteBody (bytes s) ++ [dquote]). split; [done|].
  rewrite <- app_assoc. by apply unquote_quoteBody.
Qed.

(** [json.Unmarshal] reads the value that [json.Marshal] has written, when
    its strings are well-formed UTF-8, its numbers are number literals and
    it nests no more than 10000 arrays and objects. *)
Lemma parse_render j :
  readable validString j = true -> (depthOf j <= maxNestingDepth)%N ->
  parse (render j) = Some j.
Proof.
  intros Hj Hdepth. rewrite render_print.
  by apply (parse_print quote [] validString eq_refl quote_read).
Qed.

(** Bytes below 0x80 are well-formed UTF-8. *)
Lemma Valid_ascii b : Forall (fun a => byteZ a < 128) b -> Valid b = true.
Proof.
  induction 1 as [|a t Ha _ IH]; [done|].
  cbn [Valid]. by rewrite runeSize_1.
Qed.

Lemma encodeStd_ascii v : 0 <= v < 64 -> byteZ (Base64.encodeStd v) < 128.
Proof.
  intros Hv.
  pose proof (Base64.sextet_cases (fun v => byteZ (Base64.encodeStd v) <? 128) eq_refl v Hv)
    as H.
  by apply Z.ltb_lt in H.
Qed.

Lemma EncodeToString_ascii b :
  Forall (fun a => byteZ a < 128) (Base64.EncodeToString b).
Proof.
  induction b as [b IH] using list_length_ind.
  destruct b as [|a [|b1 [|c rest]]]; cbn [Base64.EncodeToString]; cbv zeta.
  - constructor.
  - pose proof (byteZ_range a).
    repeat (constructor; [first [apply encodeStd_ascii; Base64.div_lia|by vm_compute]|]).
    constructor.
  - pose proof (byteZ_range a). pose proof (byteZ_range b1).
    repeat (constructor; [first [apply encodeStd_ascii; Base64.div_lia|by vm_compute]|]).
    constructor.
  - pose proof (byteZ_range a). pose proof (byteZ_range b1). pose proof (byteZ_range c).
    repeat (constructor; [apply encodeStd_ascii; Base64.div_lia|]).
    apply IH. simpl. lia.
Qed.

(** *** Numbers written by [strconv] *)

Lemma pretty_N_char_digit x :
  (x < 10)%N -> byteZ (pretty_N_char x) = 48 + Z.of_N x.
Proof.
  intros Hx.
  assert (x = 0 \/ x = 1 \/ x = 2 \/ x = 3 \/ x = 4 \/ x = 5 \/ x = 6 \/ x = 7 \/ x = 8
          \/ x = 9)%N as H by lia.
  repeat (destruct H as [-> |H]; [reflexivity|]). by subst.
Qed.

Definition digitStep (n : Z) (d : ascii) : Z := n * 10 + (byteZ d - 48).

(** The digits that [pretty] writes for a number: no leading zero, and the
    number as their value. *)
Lemma pretty_N_go_digits x s :
  exists ds,
    bytes (pretty_N_go x s) = ds ++ bytes s /\
    forallb isDigit ds = true /\
    (forall acc, foldl digitStep acc ds = acc * 10 ^ Z.of_nat (length ds) + Z.of_N x) /\
    match ds with
    | d :: _ => byteZ d <> 48
    | [] => x = 0%N
    end.
Proof.
  revert s. induction (N.lt_wf_0 x) as [x _ IH]; intros s.
  destruct (decide (x = 0%N)) as [-> |Hx].
  - exists []. rewrite pretty_N_go_0. split; [done|]. split; [done|]. split; [|done].
    intros acc. simpl. lia.
  - rewrite pretty_N_go_step by lia.
    destruct (IH (x `div` 10)%N) with (s := String (pretty_N_char (x `mod` 10)) s)
      as (ds & Hbytes & Hdigits & Hvalue & Hlead).
    { apply N.div_lt; lia. }
    assert (Hmod : (x `mod` 10 < 10)%N) by (apply N.mod_lt; lia).
    pose proof (pretty_N_char_digit _ Hmod) as Hchar.
    exists (ds ++ [pretty_N_char (x `mod` 10)]).
    split; [|split; [|split]].
    + rewrite Hbytes. cbn [bytes list_ascii_of_string]. by rewrite <- app_assoc.
    + rewrite forallb_app, Hdigits. simpl. unfold isDigit. rewrite Hchar.
      rewrite andb_true_r. apply andb_true_intro.
      split; apply Z.leb_le; clear -Hmod; revert Hmod;
        generalize (x `mod` 10)%N; intros m Hm; lia.
    + intros acc. rewrite foldl_app. simpl. unfold digitStep at 1.
      rewrite Hvalue, Hchar, length_app. simpl.
      rewrite Nat2Z.inj_add, Z.pow_add_r by lia.
      rewrite (N.div_mod x 10) at 3 by lia.
      rewrite N2Z.inj_add, N2Z.inj_mul. change (Z.of_N 10) with 10.
      change (10 ^ Z.of_nat 1) with 10. lia.
    + destruct ds as [|d ds']; [|done]. simpl.
      rewrite Hchar. subst. 
      assert (x `mod` 10 = x)%N as ->; [|lia].
      apply N.mod_small. 
      destruct (N.lt_ge_cases x 10) as [|Hge]; [done|].
      exfalso. assert (1 <= x `div` 10)%N; [|lia].
      apply N.div_le_lower_bound; lia.
Qed.

Lemma digits_all ds : forallb isDigit ds = true -> digits ds = (ds, []).
Proof.
  induction ds as [|d ds IH]; [done|]. simpl. intros H.
  apply andb_prop in H as [-> H]. by rewrite IH.
Qed.

(** The literal of an integer. *)
Lemma pretty_Z_digits z :
  exists ds,
    bytes (pretty z) = (if z <? 0 then ["-"%char] else []) ++ ds /\
    forallb isDigit ds = true /\ ds <> [] /\
    digitsValue ds = Z.abs z /\
    (ds = ["0"%char] \/ match ds with d :: _ => byteZ d <> 48 | [] => False end).
Proof.
  assert (Hpos : forall p, exists ds,
             bytes (pretty (N.pos p)) = ds /\ forallb isDigit ds = true /\ ds <> [] /\
             digitsValue ds = Z.pos p /\
             match ds with d :: _ => byteZ d <> 48 | [] => False end).
  { intros p. unfold pretty, pretty_N. rewrite decide_False by done.
    destruct (pretty_N_go_digits (N.pos p) "") as (ds & Hbytes & Hdigits & Hvalue & Hlead).
    exists ds. cbn [bytes list_ascii_of_string] in Hbytes. rewrite app_nil_r in Hbytes.
    split; [done|]. split; [done|].
    destruct ds as [|d ds']; [done|]. split; [done|]. split; [|done].
    unfold digitsValue. fold digitStep. rewrite Hvalue. simpl. lia. }
  destruct z as [|p|p].
  - exists ["0"%char]. repeat split; try done. by left.
  - destruct (Hpos p) as (ds & H1 & H2 & H3 & H4 & H5). exists ds.
    repeat split; try done. by right.
  - destruct (Hpos p) as (ds & H1 & H2 & H3 & H4 & H5). exists ds.
    split; [|repeat split; try done; by right].
    change (pretty (Z.neg p)) with ("-" +:+ pretty (N.pos p)).
    change (Z.neg p <? 0) with true. cbn [app]. by rewrite <- H1.
Qed.

Lemma validNumber_pretty (z : Z) : validNumber (pretty z) = true.
Proof.
  destruct (pretty_Z_digits z) as (ds & Hbytes & Hdigits & Hne & _ & Hlead).
  unfold validNumber. rewrite Hbytes, scanNumber_parts.
  destruct ds as [|d ds']; [done|].
  assert (Hd : isDigit d = true /\ forallb isDigit ds' = true)
    by (by apply andb_prop in Hdigits).
  destruct Hd as [Hd Hds].
  assert (H45 : (byteZ d =? 45) = false).
  { unfold isDigit in Hd. apply andb_prop in Hd as [Hlo _]. apply Z.leb_le in Hlo.
    apply Z.eqb_neq. lia. }
  assert (Hint : scanInt (d :: ds') = Some (d :: ds', [])).
  { simpl. destruct Hlead as [[= -> ->]|Hlead]; [done|].
    assert ((byteZ d =? 48) = false) as -> by (by apply Z.eqb_neq).
    by rewrite Hd, digits_all. }
  destruct (z <? 0); cbn [app scanSign].
  - change (byteZ "-"%char =? 45) with true. cbv iota.
    rewrite Hint. by cbn.
  - rewrite H45, Hint. by cbn.
Qed.

Lemma parseInt_pretty lo hi z : lo <= z <= hi -> parseInt lo hi (pretty z) = Some z.
Proof.
  intros Hz. destruct (pretty_Z_digits z) as (ds & Hbytes & Hdigits & Hne & Hvalue & _).
  unfold parseInt. rewrite Hbytes.
  destruct ds as [|d ds']; [done|].
  assert (H45 : (byteZ d =? 45) = false).
  { apply andb_prop in Hdigits as [Hd _]. unfold isDigit in Hd.
    apply andb_prop in Hd as [Hlo _]. apply Z.leb_le in Hlo. apply Z.eqb_neq. lia. }
  destruct (Z.ltb_spec z 0); cbn [app].
  - change (byteZ "-"%char =? 45) with true. cbv iota.
    rewrite Hdigits. cbn [length Nat.eqb negb andb]. rewrite Hvalue.
    assert (- Z.abs z = z) as -> by lia.
    assert ((lo <=? z) && (z <=? hi) = true) as ->; [|done].
    apply andb_true_intro. split; apply Z.leb_le; lia.
  - rewrite H45, Hdigits. cbn [length Nat.eqb negb andb]. rewrite Hvalue.
    assert (Z.abs z = z) as -> by lia.
    assert ((lo <=? z) && (z <=? hi) = true) as ->; [|done].
    apply andb_true_intro. split; apply Z.leb_le; lia.
Qed.

(** *** Go values read back from their JSON value *)

Lemma insertMember_perm {V} key (v : V) l :
  key ∉ l.*1 -> insertMember key v l ≡ₚ (key, v) :: l.
Proof.
  induction l as [|[k' v'] l IH]; simpl; [done|]. intros Hnot.
  rewrite not_elem_of_cons in Hnot. destruct Hnot as [Hne Hnot].
  destruct (String.eqb_spec key k'); [done|].
  destruct (String.ltb key k'); [done|]. rewrite IH by done. apply Permutation_swap.
Qed.

Lemma foldl_ins_perm {V} (ins : string -> V -> list (string * V) -> list (string * V)) :
  (forall key v l, key ∉ l.*1 -> ins key v l ≡ₚ (key, v) :: l) ->
  forall l acc, NoDup ((l ++ acc).*1) ->
    foldl (fun acc m => ins m.1 m.2 acc) acc l ≡ₚ l ++ acc.
Proof.
  intros Hins. induction l as [|[k v] l IH]; intros acc Hnd; [done|].
  cbn [foldl fst snd]. cbn [app fmap list_fmap fst] in Hnd.
  apply NoDup_cons in Hnd as [Hk Hnd].
  assert (k ∉ acc.*1) as Hacc.
  { intros Hin. apply Hk. rewrite fmap_app. apply elem_of_app. by right. }
  pose proof (Hins k v acc Hacc) as Hperm.
  rewrite IH.
  - rewrite Hperm. symmetry. apply Permutation_middle.
  - rewrite fmap_app, Hperm. cbn [fmap list_fmap fst].
    rewrite <- Permutation_middle. apply NoDup_cons. split; [|by rewrite <- fmap_app].
    by rewrite <- fmap_app.
Qed.

Lemma sortMembers_perm {V} (l : list (string * V)) : NoDup l.*1 -> sortMembers l ≡ₚ l.
Proof.
  intros Hnd. unfold sortMembers.
  rewrite (foldl_ins_perm insertMember insertMember_perm); by rewrite app_nil_r.
Qed.

Lemma sortedEntries_perm {V} (m : gmap string V) : sortedEntries m ≡ₚ map_to_list m.
Proof. apply sortMembers_perm, NoDup_fst_map_to_list. Qed.

(** The entries of a map, stored one by one in any order. *)
Lemma foldl_insert_union {V} (l : list (string * V)) (m0 : gmap string V) :
  NoDup l.*1 ->
  foldl (fun m e => <[e.1 := e.2]> m) m0 l = list_to_map l ∪ m0.
Proof.
  revert m0. induction l as [|[k v] l IH]; intros m0 Hnd.
  - simpl. by rewrite (left_id ∅ (∪)).
  - cbn [fmap list_fmap fst] in Hnd. apply NoDup_cons in Hnd as [Hk Hnd].
    cbn [foldl fst snd list_to_map foldr]. rewrite IH by done.
    rewrite <- insert_union_r by (by apply not_elem_of_list_to_map_1).
    by rewrite insert_union_l.
Qed.

Lemma foldl_insert_entries {V} (l : list (string * V)) (m : gmap string V) :
  l ≡ₚ map_to_list m -> foldl (fun m e => <[e.1 := e.2]> m) ∅ l = m.
Proof.
  intros Hperm.
  assert (NoDup l.*1) as Hnd by (rewrite Hperm; apply NoDup_fst_map_to_list).
  rewrite foldl_insert_union by done. rewrite (right_id ∅ (∪)).
  rewrite (list_to_map_proper l (map_to_list m)) by done.
  apply list_to_map_to_list.
Qed.

Lemma decEntries_enc {V} (dec : json -> option V) (enc : V -> json)
    (l : list (string * V)) (m0 : gmap string V) :
  Forall (fun e => dec (enc e.2) = Some e.2) l ->
  decEntries dec (map (fun e => (e.1, enc e.2)) l) m0
  = Some (foldl (fun m e => <[e.1 := e.2]> m) m0 l).
Proof.
  intros Hall. revert m0. induction Hall as [|[k v] l Hv _ IH]; intros m0; [done|].
  cbn [map decEntries fst snd foldl] in *. rewrite Hv. cbn [mbind option_bind].
  apply IH.
Qed.

Lemma decElements_enc {A} (dec : json -> A -> option A) (enc : A -> json) (zero : A)
    (l : list A) :
  Forall (fun x => dec (enc x) zero = Some x) l ->
  decElements dec zero (map enc l) [] = Some l.
Proof.
  induction 1 as [|x l Hx _ IH]; [done|].
  cbn [map decElements]. rewrite Hx. cbn [mbind option_bind]. rewrite IH. done.
Qed.

Lemma decStrings_enc l : decStrings (encStrings l) None = Some l.
Proof.
  destruct l as [l|]; [|done]. unfold decStrings, decSlice, encStrings.
  cbn [default]. rewrite decElements_enc; [done|].
  apply Forall_forall. by intros s _.
Qed.

Lemma decHeader_enc h : decHeader (encHeader h) None = Some h.
Proof.
  destruct h as [m|]; [|done]. unfold decHeader, decMap, encHeader. cbn [default].
  rewrite (decEntries_enc (fun j => decStrings j None) encStrings).
  - cbn [fmap option_fmap option_map]. do 2 f_equal.
    apply foldl_insert_entries, sortedEntries_perm.
  - apply Forall_forall. intros e _. apply decStrings_enc.
Qed.

Lemma decBytes_enc b : decBytes (encBytes b) None = Some b.
Proof.
  destruct b as [b|]; [|done]. unfold decBytes, encBytes.
  by rewrite bytes_str, Base64.DecodeString_EncodeToString.
Qed.

(** The values of the fields of a log are as the decoder leaves them. *)
Lemma decFields_enc f :
  (forall m, f = Some m -> map_Forall (fun _ v => anyOf v = v) m) ->
  decFields (encFields f) None = Some f.
Proof.
  destruct f as [m|]; [|done]. intros Hm. specialize (Hm m eq_refl).
  unfold decFields, decMap, encFields. cbn [default].
  rewrite (decEntries_enc (fun j => Some (anyOf j)) anyOf).
  - cbn [fmap option_fmap option_map]. do 2 f_equal.
    apply foldl_insert_entries, sortedEntries_perm.
  - apply Forall_forall. intros [k v] Hin. cbn [snd]. f_equal.
    assert (anyOf v = v) as Hv.
    { apply (Hm k v), elem_of_map_to_list. by rewrite <- sortedEntries_perm. }
    by rewrite !Hv.
Qed.

(** The comparisons of the keys of a struct with the names of its fields,
    evaluated. *)
Ltac names_eval :=
  repeat match goal with
         | |- context [names ?a ?b] =>
             let v := eval vm_compute in (names a b) in
             change (names a b) with v
         end.

Lemma decRequest_enc r : decRequest (encRequest r) zeroHTTPRequest = Some r.
Proof.
  destruct r as [method url headers body].
  pose proof (decHeader_enc headers) as Hh.
  unfold encRequest, decRequest, decStruct. cbn [Method URL Headers Body].
  revert Hh. generalize (encHeader headers). intros jh Hh.
  cbn [decMembers]. unfold requestField. names_eval.
  cbn -[decHeader]. by rewrite Hh.
Qed.

Lemma decExperiment_enc e : decExperiment (encExperiment e) zeroExperiment = Some e.
Proof.
  destruct e as [config request].
  pose proof (decRequest_enc request) as Hr.
  unfold encExperiment, decExperiment, decStruct. cbn [DynamicConfig Request].
  revert Hr. generalize (encRequest request). intros jr Hr.
  cbn [decMembers]. unfold experimentField. names_eval.
  cbn -[decRequest]. by rewrite Hr.
Qed.

Lemma decResponse_enc r :
  - 2 ^ 63 <= StatusCode r <= 2 ^ 63 - 1 ->
  decResponse (encResponse r) (Response zeroResult) = Some r.
Proof.
  destruct r as [proto status headers body]. cbn [StatusCode]. intros Hstatus.
  pose proof (decHeader_enc headers) as Hh.
  pose proof (decBytes_enc body) as Hb.
  pose proof (parseInt_pretty _ _ status Hstatus) as Hs.
  unfold encResponse, decResponse, decStruct.
  cbn [Proto StatusCode ResponseHeaders ResponseBody].
  revert Hh Hb Hs.
  generalize (encHeader headers) (encBytes body) (pretty status). intros jh jb literal Hh Hb Hs.
  cbn [decMembers]. unfold responseField. names_eval.
  cbn -[decHeader decBytes parseInt Z.pow Z.sub Z.opp]. rewrite Hs. 
  cbn -[decHeader decBytes]. rewrite Hh. cbn -[decBytes]. by rewrite Hb.
Qed.

Lemma decLog_enc l :
  map_Forall (fun _ v => anyOf v = v) (default ∅ (TraefikLog.Fields l)) ->
  decLog (encLog l) zeroLog = Some l.
Proof.
  destruct l as [message timestamp level error fields]. cbn [TraefikLog.Fields].
  intros Hfields.
  assert (decFields (encFields fields) None = Some fields) as Hf.
  { apply decFields_enc. by intros m ->. }
  unfold encLog, decLog, decStruct.
  cbn [TraefikLog.Message TraefikLog.Timestamp TraefikLog.Level TraefikLog.Error
       TraefikLog.Fields].
  revert Hf. generalize (encFields fields). intros jf Hf.
  cbn [decMembers]. unfold logField, zeroLog. names_eval.
  cbn -[decFields]. by rewrite Hf.
Qed.

Lemma decLogs_enc logs :
  Forall (fun l => map_Forall (fun _ v => anyOf v = v) (default ∅ (TraefikLog.Fields l)))
    (default [] logs) ->
  decLogs (encLogs logs) None = Some logs.
Proof.
  destruct logs as [logs|]; [|done]. cbn [default]. intros Hlogs.
  unfold decLogs, decSlice, encLogs. cbn [default].
  rewrite decElements_enc; [done|].
  eapply Forall_impl; [exact Hlogs|]. intros l Hl. by apply decLog_enc.
Qed.

Lemma decResult_enc r :
  - 2 ^ 63 <= StatusCode (Response r) <= 2 ^ 63 - 1 ->
  Forall (fun l => map_Forall (fun _ v => anyOf v = v) (default ∅ (TraefikLog.Fields l)))
    (default [] (Logs r)) ->
  decResult (encResult r) zeroResult = Some r.
Proof.
  destruct r as [response logs]. cbn [Response Logs]. intros Hstatus Hlogs.
  pose proof (decResponse_enc response Hstatus) as Hr.
  pose proof (decLogs_enc logs Hlogs) as Hl.
  unfold encResult, decResult, decStruct. cbn [Response Logs].
  revert Hr Hl. generalize (encResponse response) (encLogs logs). intros jr jl Hr Hl.
  cbn [decMembers]. unfold resultField. names_eval.
  cbn -[decResponse decLogs] in *. rewrite Hr. cbn -[decLogs]. by rewrite Hl.
Qed.

(** *** The experiments and the results that are written as they are *)

(** The strings of a value of Go hold any bytes, an [int] has 64 bits, and
    an [interface{}] of the fields of a log holds what the decoder has put
    there.  The predicates below say of an experiment and of a result that
    every string is well-formed UTF-8, that the status code is an [int],
    and that every value of the fields of a log is a value as the decoder
    leaves it ([anyOf] changes nothing), with finite numbers, well-formed
    strings and keys, nested no deeper than the decoder accepts once the
    [around] containers in which the value is written are counted. *)
Definition stringsOK (l : option (list string)) : Prop :=
  Forall (fun s => validString s = true) (default [] l).

Definition headerOK (h : option Header) : Prop :=
  map_Forall (fun key values => validString key = true /\ stringsOK values) (default ∅ h).

Definition requestOK (r : HTTPRequest) : Prop :=
  validString (Method r) = true /\ validString (URL r) = true /\
  headerOK (Headers r) /\ validString (Body r) = true.

Definition experimentOK (e : Experiment) : Prop :=
  validString (DynamicConfig e) = true /\ requestOK (Request e).

Definition responseOK (r : HTTPResponse) : Prop :=
  validString (Proto r) = true /\ - 2 ^ 63 <= StatusCode r <= 2 ^ 63 - 1 /\
  headerOK (ResponseHeaders r).

Definition valueOK (around : N) (v : TraefikLog.any) : Prop :=
  anyOf v = v /\ readable validString v = true /\
  (around + depthOf v <= maxNestingDepth)%N.

Definition fieldsOK (around : N) (f : option (gmap string TraefikLog.any)) : Prop :=
  map_Forall (fun key v => validString key = true /\ valueOK around v) (default ∅ f).

Definition logOK (around : N) (l : TraefikLog.Log) : Prop :=
  validString (TraefikLog.Message l) = true /\
  validString (TraefikLog.Timestamp l) = true /\
  validString (TraefikLog.Level l) = true /\
  validString (TraefikLog.Error l) = true /\
  fieldsOK around (TraefikLog.Fields l).

Definition resultOK (around : N) (r : Result) : Prop :=
  responseOK (Response r) /\ Forall (logOK around) (default [] (Logs r)).

Lemma elem_of_sortedEntries {V} (m : gmap string V) k v :
  (k, v) ∈ sortedEntries m <-> m !! k = Some v.
Proof. by rewrite sortedEntries_perm, elem_of_map_to_list. Qed.

Lemma forallb_map_elem {A B} (f : B -> bool) (g : A -> B) (l : list A) :
  (forall x, x ∈ l -> f (g x) = true) -> forallb f (map g l) = true.
Proof.
  intros H. apply forallb_forall. intros y Hy. apply in_map_iff in Hy as (x & <- & Hx).
  apply H. by apply list_elem_of_In.
Qed.

Lemma readable_encStrings l : stringsOK l -> readable validString (encStrings l) = true.
Proof.
  destruct l as [l|]; [|done]. unfold stringsOK. cbn [default encStrings readable].
  intros Hl. apply forallb_map_elem. intros s Hs. cbn [readable].
  by apply (proj1 (Forall_forall _ _) Hl).
Qed.

Lemma readable_encHeader h : headerOK h -> readable validString (encHeader h) = true.
Proof.
  destruct h as [m|]; [|done]. unfold headerOK. cbn [default encHeader readable].
  intros Hm. apply forallb_map_elem. intros [k v] Hin. cbn [fst snd].
  apply elem_of_sortedEntries in Hin. destruct (Hm k v Hin) as [Hk Hv].
  by rewrite Hk, readable_encStrings.
Qed.

Lemma readable_encBytes b : readable validString (encBytes b) = true.
Proof.
  destruct b as [b|]; [|done]. cbn [encBytes readable]. unfold validString.
  rewrite bytes_str. apply Valid_ascii, EncodeToString_ascii.
Qed.

Lemma readable_encRequest r : requestOK r -> readable validString (encRequest r) = true.
Proof.
  intros (Hm & Hu & Hh & Hb). unfold encRequest. cbn [readable forallb fst snd].
  by rewrite Hm, Hu, Hb, readable_encHeader.
Qed.

Lemma readable_encExperiment e :
  experimentOK e -> readable validString (encExperiment e) = true.
Proof.
  intros (Hc & Hr). unfold encExperiment. cbn [readable forallb fst snd].
  by rewrite Hc, readable_encRequest.
Qed.

Lemma readable_encResponse r : responseOK r -> readable validString (encResponse r) = true.
Proof.
  intros (Hp & _ & Hh). unfold encResponse. cbn [readable forallb fst snd].
  by rewrite Hp, validNumber_pretty, readable_encHeader, readable_encBytes.
Qed.

Lemma readable_encFields around f :
  fieldsOK around f -> readable validString (encFields f) = true.
Proof.
  destruct f as [m|]; [|done]. unfold fieldsOK. cbn [default encFields readable].
  intros Hm. apply forallb_map_elem. intros [k v] Hin. cbn [fst snd].
  apply elem_of_sortedEntries in Hin. destruct (Hm k v Hin) as (Hk & Hany & Hv & _).
  by rewrite Hk, Hany, Hv.
Qed.

Lemma readable_encLog around l : logOK around l -> readable validString (encLog l) = true.
Proof.
  intros (Hm & Ht & Hl & He & Hf). unfold encLog. cbn [readable forallb fst snd].
  by rewrite Hm, Ht, Hl, He, (readable_encFields around).
Qed.

Lemma readable_encResult around r :
  resultOK around r -> readable validString (encResult r) = true.
Proof.
  intros (Hr & Hl). unfold encResult. cbn [readable forallb fst snd].
  rewrite readable_encResponse by done. cbn [andb].
  destruct (Logs r) as [logs|]; [|done]. cbn [default encLogs readable] in *.
  rewrite forallb_map_elem; [done|]. intros l Hin.
  apply (readable_encLog around). by apply (proj1 (Forall_forall _ _) Hl).
Qed.

(** The depth of the values written. *)
Lemma foldr_max_le (n : N) (l : list N) :
  Forall (fun x => (x <= n)%N) l -> (foldr N.max 0 l <= n)%N.
Proof. induction 1; cbn [foldr]; lia. Qed.

Lemma depthOf_JArray_le n elements :
  Forall (fun j => (depthOf j <= n)%N) elements -> (depthOf (JArray elements) <= 1 + n)%N.
Proof.
  intros H. cbn [depthOf]. apply N.add_le_mono_l, foldr_max_le.
  by apply Forall_fmap.
Qed.

Lemma depthOf_JObject_le n (members : list (string * json)) :
  Forall (fun m => (depthOf m.2 <= n)%N) members ->
  (depthOf (JObject members) <= 1 + n)%N.
Proof.
  intros H. cbn [depthOf]. apply N.add_le_mono_l, foldr_max_le.
  by apply Forall_fmap.
Qed.

Lemma depthOf_encStrings l : (depthOf (encStrings l) <= 1)%N.
Proof.
  destruct l as [l|]; [|done]. apply (depthOf_JArray_le 0).
  apply Forall_forall. intros j Hj. apply list_elem_of_fmap in Hj as (s & -> & _). done.
Qed.

Lemma depthOf_encHeader h : (depthOf (encHeader h) <= 2)%N.
Proof.
  destruct h as [m|]; [|done]. apply (depthOf_JObject_le 1).
  apply Forall_forall. intros e He. apply list_elem_of_fmap in He as (e' & -> & _).
  apply depthOf_encStrings.
Qed.

Lemma depthOf_encBytes b : depthOf (encBytes b) = 0%N.
Proof. by destruct b. Qed.

Lemma depthOf_encRequest r : (depthOf (encRequest r) <= 3)%N.
Proof.
  apply (depthOf_JObject_le 2). repeat constructor; cbn [snd depthOf]; try lia.
  apply depthOf_encHeader.
Qed.

Lemma depthOf_encExperiment e : (depthOf (encExperiment e) <= 4)%N.
Proof.
  apply (depthOf_JObject_le 3). repeat constructor; cbn [snd depthOf]; try lia.
  apply depthOf_encRequest.
Qed.

Lemma depthOf_encResponse r : (depthOf (encResponse r) <= 3)%N.
Proof.
  apply (depthOf_JObject_le 2). repeat constructor; cbn [snd depthOf]; try lia.
  - apply depthOf_encHeader.
  - by rewrite depthOf_encBytes.
Qed.

(** The values of the fields of a log lie under two containers of the log
    (the log and its fields), under three of the logs, under four of the
    result. *)
Lemma depthOf_encFields around f :
  fieldsOK around f -> (depthOf (encFields f) <= 1 + (maxNestingDepth - around))%N.
Proof.
  destruct f as [m|]; [|cbn [encFields depthOf]; lia].
  unfold fieldsOK. cbn [default encFields]. intros Hm.
  apply depthOf_JObject_le, Forall_forall. intros e He.
  apply list_elem_of_fmap in He as ([k v] & -> & Hin). cbn [fst snd].
  apply elem_of_sortedEntries in Hin. destruct (Hm k v Hin) as (_ & Hany & _ & Hv).
  rewrite Hany. lia.
Qed.

Lemma depthOf_encLog around l :
  logOK around l -> (depthOf (encLog l) <= 2 + (maxNestingDepth - around))%N.
Proof.
  intros (_ & _ & _ & _ & Hf). apply depthOf_encFields in Hf.
  etransitivity; [apply (depthOf_JObject_le (1 + (maxNestingDepth - around)))|lia].
  repeat constructor; cbn [snd depthOf]; try lia.
Qed.

Lemma depthOf_encLogs around logs :
  Forall (logOK around) (default [] logs) ->
  (depthOf (encLogs logs) <= 3 + (maxNestingDepth - around))%N.
Proof.
  destruct logs as [logs|]; [|cbn [encLogs depthOf]; lia]. cbn [default encLogs].
  intros Hlogs.
  etransitivity; [apply (depthOf_JArray_le (2 + (maxNestingDepth - around)))|lia].
  apply Forall_forall. intros j Hj. apply list_elem_of_fmap in Hj as (l & -> & Hin).
  apply depthOf_encLog. by apply (proj1 (Forall_forall _ _) Hlogs).
Qed.

Lemma depthOf_encResult around r :
  resultOK around r -> (depthOf (encResult r) <= 4 + (maxNestingDepth - around))%N.
Proof.
  intros (_ & Hlogs). apply depthOf_encLogs in Hlogs.
  pose proof (depthOf_encResponse (Response r)).
  etransitivity; [apply (depthOf_JObject_le (3 + (maxNestingDepth - around)))|lia].
  repeat constructor; cbn [snd]; lia.
Qed.

(** The fields of the logs of a result hold values as the decoder leaves
    them. *)
Lemma resultOK_fields around r :
  resultOK around r ->
  Forall (fun l => map_Forall (fun _ v => anyOf v = v) (default ∅ (TraefikLog.Fields l)))
    (default [] (Logs r)).
Proof.
  intros (_ & Hlogs). eapply Forall_impl; [exact Hlogs|].
  intros l (_ & _ & _ & _ & Hf) k v Hkv. by destruct (Hf k v Hkv) as (_ & ? & _).
Qed.

(** [Value] and then [Scan], of a request and of a result: [Scan] of the
    bytes that [Value] returns makes the request, or the result, that was
    written, when its strings are well-formed UTF-8, the status code is an
    [int] and the fields of the logs hold values as the decoder leaves
    them, nested within the depth that the decoder accepts (in the text of
    a result they lie under four containers). *)
Theorem value_then_scan (r : HTTPRequest) (res : Result) :
  (requestOK r -> UnmarshalRequest (MarshalRequest r) zeroHTTPRequest = Some r) /\
  (resultOK 4 res -> UnmarshalResult (MarshalResult res) zeroResult = Some res).
Proof.
  split.
  - intros Hr. unfold UnmarshalRequest, MarshalRequest. rewrite parse_render.
    + cbn [mbind option_bind]. apply decRequest_enc.
    + by apply readable_encRequest.
    + pose proof (depthOf_encRequest r). unfold maxNestingDepth. lia.
  - intros Hr. unfold UnmarshalResult, MarshalResult. rewrite parse_render.
    + cbn [mbind option_bind].
      apply decResult_enc; [apply Hr|by apply (resultOK_fields 4)].
    + by apply (readable_encResult 4).
    + pose proof (depthOf_encResult 4 res Hr). unfold maxNestingDepth in *. lia.
Qed.

(** *** The order of the keys of a map *)

Definition keyLt {V} (m1 m2 : string * V) : Prop := String.ltb m1.1 m2.1 = true.

Lemma ltb_trans a b c :
  String.ltb a b = true -> String.ltb b c = true -> String.ltb a c = true.
Proof.
  unfold String.ltb. intros Hab Hbc.
  destruct (String.compare a b) eqn:H1; try done.
  destruct (String.compare b c) eqn:H2; try done.
  apply OrderedTypeEx.String_as_OT.cmp_lt in H1, H2.
  pose proof (OrderedTypeEx.String_as_OT.lt_trans _ _ _ H1 H2) as H3.
  apply OrderedTypeEx.String_as_OT.cmp_lt in H3.
  unfold OrderedTypeEx.String_as_OT.cmp in H3. by rewrite H3.
Qed.

Lemma ltb_total a b :
  String.eqb a b = false -> String.ltb a b = false -> String.ltb b a = true.
Proof.
  unfold String.ltb. intros Hne Hlt. rewrite String.compare_antisym.
  destruct (String.compare a b) eqn:H; try done.
  apply String.compare_eq_iff in H. subst. by rewrite String.eqb_refl in Hne.
Qed.

Lemma ltb_asym a b : String.ltb a b = true -> String.ltb b a = true -> False.
Proof.
  unfold String.ltb. rewrite (String.compare_antisym a b).
  by destruct (String.compare b a).
Qed.

Lemma ltb_irrefl a : String.ltb a a = false.
Proof.
  destruct (String.ltb a a) eqn:H; [|done]. by destruct (ltb_asym a a).
Qed.

Lemma elem_of_insertMember {V} key (v : V) l x :
  x ∈ insertMember key v l -> x = (key, v) \/ x ∈ l.
Proof.
  induction l as [|[k' v'] l IH]; cbn [insertMember].
  - intros H. apply list_elem_of_singleton in H. by left.
  - destruct (String.eqb key k').
    + intros H. apply elem_of_cons in H as [->|H]; [by left|].
      right. by apply list_elem_of_further.
    + destruct (String.ltb key k').
      * intros H. apply elem_of_cons in H as [->|H]; [by left|by right].
      * intros H. apply elem_of_cons in H as [->|H].
        -- right. apply list_elem_of_here.
        -- destruct (IH H) as [->|Hin]; [by left|]. right. by apply list_elem_of_further.
Qed.

Lemma insertMember_sorted {V} key (v : V) l :
  StronglySorted keyLt l -> StronglySorted keyLt (insertMember key v l).
Proof.
  induction 1 as [|[k' v'] l Hsorted IH Hall]; cbn [insertMember].
  - by repeat constructor.
  - destruct (String.eqb_spec key k') as [->|Hne].
    + constructor; [done|]. exact Hall.
    + destruct (String.ltb key k') eqn:Hlt.
      * constructor; [by constructor|]. constructor; [exact Hlt|].
        eapply Forall_impl; [exact Hall|]. intros [k2 v2] Hk2. unfold keyLt in *.
        cbn [fst] in *. by apply (ltb_trans _ k').
      * constructor; [exact IH|]. apply Forall_forall. intros x Hx.
        apply elem_of_insertMember in Hx as [->|Hx].
        -- unfold keyLt. cbn [fst]. apply ltb_total; [|done].
           by apply String.eqb_neq.
        -- by apply (proj1 (Forall_forall _ _) Hall).
Qed.

Lemma sortMembers_sorted {V} (l : list (string * V)) : StronglySorted keyLt (sortMembers l).
Proof.
  unfold sortMembers.
  assert (forall acc, StronglySorted keyLt acc ->
            StronglySorted keyLt (foldl (fun acc m => insertMember m.1 m.2 acc) acc l))
    as H.
  { induction l as [|m l IH]; intros acc Hacc; [done|].
    cbn [foldl]. by apply IH, insertMember_sorted. }
  apply H. constructor.
Qed.

Lemma sorted_NoDup {V} (l : list (string * V)) : StronglySorted keyLt l -> NoDup l.*1.
Proof.
  induction 1 as [|[k v] l _ IH Hall]; cbn [fmap list_fmap fst]; constructor; [|done].
  intros Hin. apply list_elem_of_fmap in Hin as ([k' v'] & Hk & Hin). cbn [fst] in Hk.
  subst k'. pose proof (proj1 (Forall_forall _ _) Hall _ Hin) as Hlt.
  unfold keyLt in Hlt. cbn [fst] in Hlt. by rewrite ltb_irrefl in Hlt.
Qed.

(** The members of a map in any order, sorted. *)
Lemma sortMembers_unique {V} (l sorted : list (string * V)) :
  StronglySorted keyLt sorted -> l ≡ₚ sorted -> sortMembers l = sorted.
Proof.
  intros Hsorted Hperm.
  apply (StronglySorted_unique_strong keyLt).
  - intros x1 x2 _ _ H1 H2. by destruct (ltb_asym _ _ H1 H2).
  - apply sortMembers_sorted.
  - exact Hsorted.
  - rewrite sortMembers_perm; [done|]. rewrite Hperm. by apply sorted_NoDup.
Qed.

Lemma NoDup_fst_agree {V} (l : list (string * V)) k v1 v2 :
  NoDup l.*1 -> (k, v1) ∈ l -> (k, v2) ∈ l -> v1 = v2.
Proof.
  intros Hnd H1 H2.
  apply (elem_of_list_to_map (M := gmap string)) in H1, H2; try done.
  congruence.
Qed.

(** A value as the decoder leaves it: the elements of an array and the
    members of an object are such values, and the members are sorted. *)
Lemma anyOf_fixed_elements elements :
  anyOf (JArray elements) = JArray elements -> Forall (fun j => anyOf j = j) elements.
Proof.
  cbn [anyOf]. intros [= H]. induction elements as [|j l IH]; [constructor|].
  cbn [map] in H. injection H as Hj Hl. constructor; [done|by apply IH].
Qed.

Lemma anyOf_fixed_members members :
  anyOf (JObject members) = JObject members ->
  StronglySorted keyLt members /\ Forall (fun m => anyOf m.2 = m.2) members.
Proof.
  cbn [anyOf]. intros [= H].
  assert (StronglySorted keyLt members) as Hsorted.
  { rewrite <- H. apply sortMembers_sorted. }
  split; [done|].
  pose proof (sorted_NoDup _ Hsorted) as Hnd.
  assert ((map (fun m => (m.1, anyOf m.2)) members).*1 = members.*1) as Hkeys.
  { clear. induction members as [|[k v] l IH]; [done|]. cbn. by rewrite IH. }
  assert (map (fun m => (m.1, anyOf m.2)) members ≡ₚ members) as Hperm.
  { rewrite <- H at 2. symmetry. apply sortMembers_perm. by rewrite Hkeys. }
  apply Forall_forall. intros [k v] Hin. cbn [snd].
  assert ((k, anyOf v) ∈ members) as Hin'.
  { rewrite <- Hperm. apply list_elem_of_fmap. by exists (k, v). }
  by apply (NoDup_fst_agree members k).
Qed.

End Codec.


(** ** app/app.go: the run bundle *)

Module App.
Import GoBytes Json GoJson Experiment Codec.

(** [runBundle]. *)
Record runBundle := mkRunBundle {
  bundleExperiment : Experiment;
  bundleResult : Result;
}.

Definition zeroRunBundle : runBundle := mkRunBundle zeroExperiment zeroResult.

Definition encBundle (b : runBundle) : json :=
  JObject [("experiment", encExperiment (bundleExperiment b));
           ("result", encResult (bundleResult b))].

Definition bundleField (key : string) (j : json) (b : runBundle) : option runBundle :=
  if names key "experiment" then
    v ← decExperiment j (bundleExperiment b); Some (mkRunBundle v (bundleResult b))
  else if names key "result" then
    v ← decResult j (bundleResult b); Some (mkRunBundle (bundleExperiment b) v)
  else Some b.

(** [json.Marshal] of a run bundle and [json.Unmarshal] into a zero run
    bundle.  The fields of a log hold values of the decoder (see
    [TraefikLog.any]), all of which [json.Marshal] writes; its error on a
    value without a JSON form (a NaN, an infinity, a channel, a function)
    is outside the model. *)
Definition MarshalBundle (b : runBundle) : list ascii := render (encBundle b).

Definition UnmarshalBundle (data : list ascii) : option runBundle :=
  j ← parse data; decStruct bundleField j zeroRunBundle.

(** The errors of [unmarshalRunBundle]: of the base64 decoder, of the
    comparison of the signatures, of [json.Unmarshal]. *)
Inductive error :=
| ErrCorruptInput
| ErrInvalidSignature
| ErrUnmarshal.

Section RunBundle.

(** HMAC with SHA-256 ([hmac.New(sha256.New, key)], [Write], [Sum]): the
    code of the data under the key. *)
Variable hmacSHA256 : list ascii -> list ascii -> list ascii.

(** [generateHMAC]; writing to the hash never fails. *)
Definition generateHMAC (data : list ascii) (secretKey : string) : string * option error :=
  (str (Base64.EncodeToString (hmacSHA256 (bytes secretKey) data)), None).

(** [hmac.Equal]: whether the two codes are the same bytes. *)
Definition hmacEqual (mac1 mac2 : list ascii) : bool := bool_decide (mac1 = mac2).

Definition marshalRunBundle (exp : Experiment) (res : Result) (secretKey : string)
  : string * string * option error :=
  let marshaled := MarshalBundle (mkRunBundle exp res) in
  match generateHMAC marshaled secretKey with
  | (_, Some err) => ("", "", Some err)
  | (signature, None) => (str (Base64.EncodeToString marshaled), signature, None)
  end.

Definition unmarshalRunBundle (bundle signature secretKey : string)
  : Experiment * Result * option error :=
  match Base64.DecodeString (bytes bundle) with
  | None => (zeroExperiment, zeroResult, Some ErrCorruptInput)
  | Some decoded =>
      match generateHMAC decoded secretKey with
      | (_, Some err) => (zeroExperiment, zeroResult, Some err)
      | (gotSignature, None) =>
          if negb (hmacEqual (bytes gotSignature) (bytes signature))
          then (zeroExperiment, zeroResult, Some ErrInvalidSignature)
          else match UnmarshalBundle decoded with
               | None => (zeroExperiment, zeroResult, Some ErrUnmarshal)
               | Some b => (bundleExperiment b, bundleResult b, None)
               end
      end
  end.

(** The bundle and the signature that [marshalRunBundle] returns, read back
    with the same key: the base64 and the signature let the serialized
    bytes through, so the result is what [json.Unmarshal] makes of what
    [json.Marshal] has written. *)
Lemma unmarshal_marshal exp res secretKey :
  unmarshalRunBundle (marshalRunBundle exp res secretKey).1.1
                     (marshalRunBundle exp res secretKey).1.2 secretKey
  = match UnmarshalBundle (MarshalBundle (mkRunBundle exp res)) with
    | None => (zeroExperiment, zeroResult, Some ErrUnmarshal)
    | Some b => (bundleExperiment b, bundleResult b, None)
    end.
Proof.
  unfold marshalRunBundle, unmarshalRunBundle, generateHMAC.
  cbv zeta. cbn [fst snd].
  rewrite bytes_str, Base64.DecodeString_EncodeToString.
  unfold hmacEqual. by rewrite bool_decide_eq_true_2.
Qed.

End RunBundle.

(** A request with headers, and the result of the store's test. *)
Definition sampleExperiment : Experiment :=
  mkExperiment "dynamicConfig"
    (mkHTTPRequest "POST" "https://example.com/foo"
       (Some (<["Content-Type" := Some ["application/json"]]> ∅)) "body").

Definition sampleResult : Result :=
  mkResult
    (mkHTTPResponse "HTTP/1.1" 200 (Some (<["X-Key" := Some ["value"]]> ∅))
       (Some (bytes "value")))
    (Some [TraefikLog.mkLog "message" "2025-01-01" "info" "error"
             (Some (<["key" := JString "value"]> ∅))]).

(** An experiment whose body is the single byte 0xFF, which is no UTF-8. *)
Definition binaryExperiment : Experiment :=
  mkExperiment "http: {}"
    (mkHTTPRequest "GET" "http://example.com" (Some ∅) (String (byteOf 255) "")).

(** The same with the body that comes back: U+FFFD. *)
Definition replacedExperiment : Experiment :=
  mkExperiment "http: {}"
    (mkHTTPRequest "GET" "http://example.com" (Some ∅) (str Utf8.replacement)).

Example sample_bundle_json :
  UnmarshalBundle (MarshalBundle (mkRunBundle sampleExperiment sampleResult))
  = Some (mkRunBundle sampleExperiment sampleResult).
Proof. vm_compute. reflexivity. Qed.

Example binary_bundle_json :
  UnmarshalBundle (MarshalBundle (mkRunBundle binaryExperiment zeroResult))
  = Some (mkRunBundle replacedExperiment zeroResult).
Proof. vm_compute. reflexivity. Qed.

(** What [json.Unmarshal] reads from what [json.Marshal] has written of a
    run bundle.  In the bundle the values of the fields of a log lie under
    five containers: the bundle, the result, the logs, the log and its
    fields. *)
Lemma UnmarshalBundle_MarshalBundle exp res :
  experimentOK exp -> resultOK 5 res ->
  UnmarshalBundle (MarshalBundle (mkRunBundle exp res)) = Some (mkRunBundle exp res).
Proof.
  intros Hexp Hres. unfold UnmarshalBundle, MarshalBundle.
  rewrite parse_render.
  - cbn [mbind option_bind].
    pose proof (decExperiment_enc exp) as He.
    pose proof (decResult_enc res (proj1 (proj2 (proj1 Hres))) (resultOK_fields 5 res Hres))
      as Hr.
    unfold encBundle, decStruct. cbn [bundleExperiment bundleResult].
    revert He Hr. generalize (encExperiment exp) (encResult res). intros je jr He Hr.
    cbn [decMembers]. unfold bundleField, zeroRunBundle. names_eval.
    cbn -[decExperiment decResult]. rewrite He. cbn -[decResult]. by rewrite Hr.
  - unfold encBundle. cbn [readable forallb fst snd bundleExperiment bundleResult].
    by rewrite readable_encExperiment, (readable_encResult 5).
  - pose proof (depthOf_encExperiment exp).
    pose proof (depthOf_encResult 5 res Hres).
    etransitivity; [apply (depthOf_JObject_le (maxNestingDepth - 1))|].
    + repeat constructor; cbn [snd bundleExperiment bundleResult];
        unfold maxNestingDepth in *; lia.
    + unfold maxNestingDepth. lia.
Qed.

Lemma sampleExperiment_OK : experimentOK sampleExperiment.
Proof.
  split; [done|]. split; [done|]. split; [done|]. split; [|done].
  apply map_Forall_insert_2; [|apply map_Forall_empty].
  split; [done|]. by repeat constructor.
Qed.

Lemma sampleResult_OK : resultOK 5 sampleResult.
Proof.
  split.
  - split; [done|]. split; [done|].
    apply map_Forall_insert_2; [|apply map_Forall_empty].
    split; [done|]. by repeat constructor.
  - constructor; [|constructor]. do 4 (split; [done|]).
    apply map_Forall_insert_2; [|apply map_Forall_empty].
    by repeat split.
Qed.

(** C1, for the experiments and results that [json.Marshal] writes as they
    are.  For every experiment and result whose strings are well-formed
    UTF-8, whose status code is an [int] and whose log fields hold values
    as the decoder leaves them (finite numbers, well-formed strings, maps
    with each key once) nested within the depth that the decoder accepts,
    and for every secret key and whatever the HMAC: [unmarshalRunBundle]
    applied with the same key to the bundle and the signature produced by
    [marshalRunBundle] succeeds and returns exactly the experiment and the
    result. *)
Theorem run_bundle_round_trip (hmacSHA256 : list ascii -> list ascii -> list ascii)
    (exp : Experiment) (res : Result) (secretKey : string) :
  experimentOK exp -> resultOK 5 res ->
  unmarshalRunBundle hmacSHA256
    (marshalRunBundle hmacSHA256 exp res secretKey).1.1
    (marshalRunBundle hmacSHA256 exp res secretKey).1.2 secretKey
  = (exp, res, None).
Proof.
  intros Hexp Hres. rewrite unmarshal_marshal.
  by rewrite UnmarshalBundle_MarshalBundle.
Qed.

Lemma run_bundle_round_trip_witness :
  experimentOK sampleExperiment /\ resultOK 5 sampleResult /\
  unmarshalRunBundle (fun _ data => data)
    (marshalRunBundle (fun _ data => data) sampleExperiment sampleResult "secret").1.1
    (marshalRunBundle (fun _ data => data) sampleExperiment sampleResult "secret").1.2
    "secret"
  = (sampleExperiment, sampleResult, None).
Proof.
  split; [exact sampleExperiment_OK|]. split; [exact sampleResult_OK|].
  exact (run_bundle_round_trip (fun _ data => data) sampleExperiment sampleResult "secret"
           sampleExperiment_OK sampleResult_OK).
Defined.

(** C1, the claim as stated fails: an experiment whose body is the byte
    0xFF comes back, under every key and whatever the HMAC, with the body
    U+FFFD. *)
Lemma run_bundle_binary_body :
  (forall (hmacSHA256 : list ascii -> list ascii -> list ascii) (secretKey : string),
     unmarshalRunBundle hmacSHA256
       (marshalRunBundle hmacSHA256 binaryExperiment zeroResult secretKey).1.1
       (marshalRunBundle hmacSHA256 binaryExperiment zeroResult secretKey).1.2 secretKey
     = (replacedExperiment, zeroResult, None)) /\
  replacedExperiment <> binaryExperiment.
Proof.
  split.
  - intros hmacSHA256 secretKey. rewrite unmarshal_marshal.
    by rewrite binary_bundle_json.
  - intros H. apply (f_equal (fun e => Body (Request e))) in H. by vm_compute in H.
Qed.


(** [unmarshalRunBundle] returns an experiment and a result only for the
    signature of the bytes that the bundle encodes: when it returns no
    error, the bundle is the base64 of bytes whose HMAC under the key, in
    base64, is the signature given, and the experiment and the result are
    what [json.Unmarshal] reads from these bytes.  When it returns an error,
    the experiment and the result are the zero values. *)
Theorem unmarshal_checks_signature (hmacSHA256 : list ascii -> list ascii -> list ascii)
    (bundle signature secretKey : string) :
  (forall exp res,
     unmarshalRunBundle hmacSHA256 bundle signature secretKey = (exp, res, None) ->
     exists decoded,
       Base64.DecodeString (bytes bundle) = Some decoded /\
       signature = (generateHMAC hmacSHA256 decoded secretKey).1 /\
       UnmarshalBundle decoded = Some (mkRunBundle exp res)) /\
  (is_Some (unmarshalRunBundle hmacSHA256 bundle signature secretKey).2 ->
   (unmarshalRunBundle hmacSHA256 bundle signature secretKey).1
   = (zeroExperiment, zeroResult)) /\
  (forall decoded,
     Base64.DecodeString (bytes bundle) = Some decoded ->
     signature <> (generateHMAC hmacSHA256 decoded secretKey).1 ->
     unmarshalRunBundle hmacSHA256 bundle signature secretKey
     = (zeroExperiment, zeroResult, Some ErrInvalidSignature)).
Proof.
  unfold unmarshalRunBundle, generateHMAC. cbn [fst].
  destruct (Base64.DecodeString (bytes bundle)) as [decoded|].
  2:{ split; [by intros ? ? [=]|]. split; [done|]. by intros ? [=]. }
  unfold hmacEqual.
  set (got := str (Base64.EncodeToString (hmacSHA256 (bytes secretKey) decoded))).
  destruct (bool_decide_reflect (bytes got = bytes signature)) as [Heq|Hne]; cbn [negb].
  - assert (signature = got) as ->.
    { by rewrite <- (str_bytes signature), <- Heq, str_bytes. }
    split; [|split].
    + intros exp res Hres. exists decoded. split; [done|]. split; [done|].
      destruct (UnmarshalBundle decoded) as [[e r]|]; [|done].
      cbn in Hres. by injection Hres as -> ->.
    + destruct (UnmarshalBundle decoded) as [[e r]|]; [by intros [? [=]]|done].
    + intros decoded' [= <-] Hne. done.
  - split; [by intros ? ? [=]|]. split; [done|]. done.
Qed.

End App.


(** ** internal/experiment/store.go: the store of shared experiments *)

Module Store.
Import GoBytes Utf8 Json Experiment GoJson Codec.

(** *** The values of the database *)

(** A value of type TEXT: well-formed UTF-8 (the encoding of the database)
    without the byte 0. *)
Definition validText (s : string) : bool :=
  Valid (bytes s) && forallb (fun a => negb (byteZ a =? 0)) (bytes s).

(** The order of the keys of a JSONB object: shorter keys first, keys of the
    same length by their bytes. *)
Definition keyBefore (k1 k2 : string) : bool :=
  (String.length k1 <? String.length k2)%nat
  || ((String.length k1 =? String.length k2)%nat && String.ltb k1 k2).

Fixpoint jsonbInsert (key : string) (v : json) (l : list (string * json))
  : list (string * json) :=
  match l with
  | [] => [(key, v)]
  | (key', v') :: rest =>
      if String.eqb key key' then (key, v) :: rest
      else if keyBefore key key' then (key, v) :: l
      else (key', v') :: jsonbInsert key v rest
  end.

(** A JSON value as JSONB keeps it: the members of an object in the order
    of their keys, of two members with the same key the later one. *)
Fixpoint jsonbOf (j : json) : json :=
  match j with
  | JArray elements => JArray (map jsonbOf elements)
  | JObject members =>
      JObject (foldl (fun acc m => jsonbInsert m.1 m.2 acc) []
                 (map (fun m => (m.1, jsonbOf m.2)) members))
  | _ => j
  end.

(** Whether a string or a key of the value holds the character U+0000,
    which JSONB refuses. *)
Definition nulIn (s : string) : bool := existsb (fun a => byteZ a =? 0) (bytes s).

Fixpoint hasNul (j : json) : bool :=
  match j with
  | JString s => nulIn s
  | JArray elements => existsb hasNul elements
  | JObject members => existsb (fun m => nulIn m.1 || hasNul m.2) members
  | _ => false
  end.

(** The input of a JSONB value from its text. *)
Definition jsonbIn (text : list ascii) : option json :=
  j ← parse text; if hasNul j then None else Some (jsonbOf j).

(** A byte inside a string of the output of a JSONB value. *)
Definition jsonbEscape (a : ascii) : list ascii :=
  let c := byteZ a in
  if (c =? 92) || (c =? 34) then ["\"%char; a]
  else if c =? 8 then ["\"; "b"]%char
  else if c =? 12 then ["\"; "f"]%char
  else if c =? 10 then ["\"; "n"]%char
  else if c =? 13 then ["\"; "r"]%char
  else if c =? 9 then ["\"; "t"]%char
  else if c <? 32
  then ["\"; "u"; "0"; "0"; hexDigit (c / 16); hexDigit (c mod 16)]%char
  else [a].

Definition jsonbQuote (s : string) : list ascii :=
  dquote :: flat_map jsonbEscape (bytes s) ++ [dquote].

(** The texts of a list, separated by a comma and a space. *)
Fixpoint commaSpaces (texts : list (list ascii)) : list ascii :=
  match texts with
  | [] => []
  | [text] => text
  | text :: rest => text ++ ","%char :: " "%char :: commaSpaces rest
  end.

(** The output of a JSONB value as text. *)
Fixpoint jsonbOut (j : json) : list ascii :=
  match j with
  | JNull => bytes "null"
  | JBool true => bytes "true"
  | JBool false => bytes "false"
  | JNumber literal => bytes literal
  | JString s => jsonbQuote s
  | JArray elements => "["%char :: commaSpaces (map jsonbOut elements) ++ ["]"%char]
  | JObject members =>
      "{"%char
      :: commaSpaces (map (fun m => jsonbQuote m.1 ++ ":"%char :: " "%char :: jsonbOut m.2)
                        members)
      ++ ["}"%char]
  end.

(** *** The table [shared_experiments] *)

(** A row of the table; a time is a number, [last_retrieved_at] may be
    NULL. *)
Record Row := mkRow {
  public_id : string;
  created_at : Z;
  last_retrieved_at : option Z;
  hash : string;
  client_ip : string;
  dynamic_config : string;
  request : json;
  result : json;
}.

(** What the database refuses: a parameter that is no value of the type of
    its column, and a second row with the same primary key. *)
Inductive dbError :=
| InvalidText
| InvalidJSON
| InvalidInet
| UniqueViolation.

(** The errors of the store: [ErrNotFound], an error of the database
    wrapped by [Save], an error of the database or of [Scan] returned as it
    is by [Get]. *)
Inductive error :=
| ErrNotFound
| ErrInserting (cause : dbError)
| ErrQuery (cause : dbError)
| ErrScan (column : string).

Definition hasHash (h : string) (r : Row) : bool := String.eqb (hash r) h.
Definition hasID (id : string) (r : Row) : bool := String.eqb (public_id r) id.

(** The bytes in hexadecimal: [fmt.Sprintf] with the verb [%x]. *)
Definition hexOf (b : list ascii) : list ascii :=
  flat_map (fun a => [hexDigit (byteZ a / 16); hexDigit (byteZ a mod 16)]) b.

(** [json.Marshal] of the experiment and the result, the data that [Save]
    hashes. *)
Definition hashData (exp : Experiment) (res : Result) : list ascii :=
  render (JObject [("experiment", encExperiment exp); ("result", encResult res)]).

(** [UPDATE ... SET last_retrieved_at = NOW() WHERE public_id = $1]. *)
Definition touch (now : Z) (publicID : string) (db : list Row) : list Row :=
  map (fun r =>
         if hasID publicID r
         then mkRow (public_id r) (created_at r) (Some now) (hash r) (client_ip r)
                (dynamic_config r) (request r) (result r)
         else r) db.


(** Hexadecimal digits are a text. *)
Lemma validText_ascii (b : list ascii) :
  Forall (fun a => 0 < byteZ a < 128) b -> validText (str b) = true.
Proof.
  unfold validText. rewrite bytes_str.
  induction 1 as [|a t Ha _ IH]; [done|].
  apply andb_true_iff in IH as [IH1 IH2].
  apply andb_true_iff. split.
  - cbn [Valid runeSize].
    destruct (Z.ltb_spec (byteZ a) 128); [exact IH1|lia].
  - cbn [forallb]. rewrite IH2.
    destruct (Z.eqb_spec (byteZ a) 0); [lia|done].
Qed.

Lemma hexDigit_ascii n : 0 <= n < 16 -> 0 < byteZ (hexDigit n) < 128.
Proof.
  intros Hn. unfold hexDigit.
  destruct (Z.ltb_spec n 10); rewrite byteZ_byteOf; lia.
Qed.

Lemma validText_hex (b : list ascii) : validText (str (hexOf b)) = true.
Proof.
  apply validText_ascii. unfold hexOf.
  induction b as [|a t IH]; [constructor|].
  pose proof (byteZ_range a).
  cbn [flat_map app].
  constructor; [|constructor; [|exact IH]]; apply hexDigit_ascii.
  - split; [apply Z.div_pos; lia|apply Z.div_lt_upper_bound; lia].
  - apply Z.mod_pos_bound; lia.
Qed.

(** *** What JSONB keeps of a value *)

(** The members of an object as [jsonbOf] orders them. *)
Definition jsonbMembers (l : list (string * json)) : list (string * json) :=
  foldl (fun acc m => jsonbInsert m.1 m.2 acc) [] l.

Lemma jsonbOf_JObject members :
  jsonbOf (JObject members)
  = JObject (jsonbMembers (map (fun m => (m.1, jsonbOf m.2)) members)).
Proof. reflexivity. Qed.

Lemma elem_of_jsonbInsert key v l x :
  x ∈ jsonbInsert key v l -> x = (key, v) \/ x ∈ l.
Proof.
  induction l as [|[k' v'] l IH]; cbn [jsonbInsert].
  - intros H. apply list_elem_of_singleton in H. by left.
  - destruct (String.eqb key k').
    + intros H. apply elem_of_cons in H as [->|H]; [by left|].
      right. by apply list_elem_of_further.
    + destruct (keyBefore key k').
      * intros H. apply elem_of_cons in H as [->|H]; [by left|by right].
      * intros H. apply elem_of_cons in H as [->|H].
        -- right. apply list_elem_of_here.
        -- destruct (IH H) as [->|Hin]; [by left|]. right. by apply list_elem_of_further.
Qed.

Lemma elem_of_jsonbMembers l x : x ∈ jsonbMembers l -> x ∈ l.
Proof.
  unfold jsonbMembers.
  assert (forall acc, x ∈ foldl (fun acc m => jsonbInsert m.1 m.2 acc) acc l ->
                      x ∈ l \/ x ∈ acc) as H.
  { induction l as [|[k v] l IH]; intros acc Hin; [by right|].
    cbn [foldl fst snd] in Hin. destruct (IH _ Hin) as [Hl|Hacc].
    - left. by apply list_elem_of_further.
    - apply elem_of_jsonbInsert in Hacc as [->|Hacc]; [|by right].
      left. apply list_elem_of_here. }
  intros Hin. destruct (H [] Hin) as [Hl|Hnil]; [done|]. by apply elem_of_nil in Hnil.
Qed.

Lemma jsonbInsert_perm key v l :
  key ∉ l.*1 -> jsonbInsert key v l ≡ₚ (key, v) :: l.
Proof.
  induction l as [|[k' v'] l IH]; simpl; [done|]. intros Hnot.
  rewrite not_elem_of_cons in Hnot. destruct Hnot as [Hne Hnot].
  destruct (String.eqb_spec key k'); [done|].
  destruct (keyBefore key k'); [done|]. rewrite IH by done. apply Permutation_swap.
Qed.

Lemma jsonbMembers_perm l : NoDup l.*1 -> jsonbMembers l ≡ₚ l.
Proof.
  intros Hnd. unfold jsonbMembers.
  rewrite (foldl_ins_perm jsonbInsert jsonbInsert_perm); by rewrite app_nil_r.
Qed.

(** JSONB keeps the strings, the keys and the numbers of a value, and nests
    no deeper. *)
Lemma readable_jsonbOf ok j : readable ok j = true -> readable ok (jsonbOf j) = true.
Proof.
  induction j as [| | | |elements IH|members IH] using json_ind'; try done.
  - cbn [jsonbOf readable]. intros H. apply forallb_map_elem. intros j Hj.
    apply (proj1 (Forall_forall _ _) IH _ Hj). by apply (forallb_elem _ elements).
  - rewrite jsonbOf_JObject. cbn [readable]. intros H.
    apply forallb_forall. intros m Hm. apply list_elem_of_In, elem_of_jsonbMembers in Hm.
    apply list_elem_of_fmap in Hm as ([k v] & -> & Hin). cbn [fst snd].
    pose proof (forallb_elem _ members _ H Hin) as Hkv. cbn [fst snd] in Hkv.
    apply andb_prop in Hkv as [Hk Hv]. rewrite Hk.
    by apply (proj1 (Forall_forall _ _) IH _ Hin).
Qed.

Lemma le_foldr_max {A} (f : A -> N) (l : list A) (x : A) :
  x ∈ l -> (f x <= foldr N.max 0 (map f l))%N.
Proof.
  intros Hin. apply list_elem_of_In in Hin.
  induction l as [|y l IH]; [done|]. cbn [map foldr].
  destruct Hin as [->|Hin]; [apply N.le_max_l|].
  etransitivity; [exact (IH Hin)|apply N.le_max_r].
Qed.

Lemma depthOf_jsonbOf j : (depthOf (jsonbOf j) <= depthOf j)%N.
Proof.
  induction j as [| | | |elements IH|members IH] using json_ind'; try done.
  - cbn [jsonbOf].
    etransitivity;
      [apply (depthOf_JArray_le (foldr N.max 0%N (map depthOf elements)))|done].
    apply Forall_forall. intros j Hj.
    apply list_elem_of_fmap in Hj as (j' & -> & Hin).
    pose proof (proj1 (Forall_forall _ _) IH _ Hin) as Hj'. cbv beta in Hj'.
    pose proof (le_foldr_max depthOf elements j' Hin). lia.
  - rewrite jsonbOf_JObject.
    etransitivity;
      [apply (depthOf_JObject_le
                (foldr N.max 0%N (map (fun m => depthOf m.2) members)))|done].
    apply Forall_forall. intros m Hm.
    apply elem_of_jsonbMembers, list_elem_of_fmap in Hm as ([k v] & -> & Hin).
    cbn [fst snd].
    pose proof (proj1 (Forall_forall _ _) IH _ Hin) as Hv. cbv beta in Hv.
    cbn [snd] in Hv.
    pose proof (le_foldr_max (fun m => depthOf m.2) members _ Hin) as Hle.
    cbv beta in Hle. cbn [snd] in Hle. lia.
Qed.

(** *** The text of a JSONB value, read by the decoder *)

Lemma jsonbOut_print j : jsonbOut j = print jsonbQuote [" "%char] j.
Proof. reflexivity. Qed.

Lemma unquote_jsonbEscape a rest :
  byteZ a < 128 ->
  unquoteBody (jsonbEscape a ++ rest) = prepend [a] (unquoteBody rest).
Proof.
  destruct a as [[] [] [] [] [] [] [] []]; intros H;
    try (exfalso; vm_compute in H; discriminate); reflexivity.
Qed.

Lemma jsonbEscape_high a : 128 <= byteZ a -> jsonbEscape a = [a].
Proof.
  intros H. unfold jsonbEscape. cbv zeta.
  repeat match goal with
         | |- context [byteZ a =? ?n] => destruct (Z.eqb_spec (byteZ a) n); [lia|]
         end.
  by destruct (Z.ltb_spec (byteZ a) 32); [lia|].
Qed.

Lemma unquote_jsonbBody b rest :
  Valid b = true ->
  unquoteBody (flat_map jsonbEscape b ++ dquote :: rest) = Some (b, rest).
Proof.
  induction b as [b IH] using list_length_ind. intros Hvalid.
  destruct b as [|a t]; [done|].
  destruct (Z.lt_ge_cases (byteZ a) 128) as [Hlow|Hhigh].
  - cbn [flat_map]. rewrite <- app_assoc, unquote_jsonbEscape by done.
    cbn [Valid] in Hvalid. rewrite runeSize_1 in Hvalid by done.
    rewrite IH; [done|simpl; lia|done].
  - assert (Hhead : (byteZ a =? 34) = false /\ (byteZ a =? 92) = false /\
                    (byteZ a <? 32) = false /\ (byteZ a <? 128) = false).
    { repeat split; try (apply Z.eqb_neq; lia); apply Z.ltb_ge; lia. }
    destruct Hhead as (H34 & H92 & H32 & H128).
    cbn [Valid] in Hvalid.
    destruct (runeSize_cases a t Hhigh)
      as [H0|[(a1 & t1 & -> & Ha1 & H2)|[(a1 & a2 & t2 & -> & Ha1 & Ha2 & H3)
         |(a1 & a2 & a3 & t3 & -> & Ha1 & Ha2 & Ha3 & H4)]]].
    + by rewrite H0 in Hvalid.
    + rewrite (H2 t1) in *. cbn [flat_map].
      rewrite !jsonbEscape_high by done. cbn [app]. cbn [unquoteBody].
      rewrite H34, H92, H32, H128, (H2 _).
      rewrite IH; [done|simpl; lia|done].
    + rewrite (H3 t2) in *. cbn [flat_map].
      rewrite !jsonbEscape_high by done. cbn [app]. cbn [unquoteBody].
      rewrite H34, H92, H32, H128, (H3 _).
      rewrite IH; [done|simpl; lia|done].
    + rewrite (H4 t3) in *. cbn [flat_map].
      rewrite !jsonbEscape_high by done. cbn [app]. cbn [unquoteBody].
      rewrite H34, H92, H32, H128, (H4 _).
      rewrite IH; [done|simpl; lia|done].
Qed.

Lemma jsonbQuote_read s rest :
  validString s = true ->
  exists body, jsonbQuote s = dquote :: body /\
               unquoteBody (body ++ rest) = Some (bytes s, rest).
Proof.
  intros Hs. exists (flat_map jsonbEscape (bytes s) ++ [dquote]). split; [done|].
  rewrite <- app_assoc. by apply unquote_jsonbBody.
Qed.

(** [json.Unmarshal] reads the value of which the text is the output. *)
Lemma parse_jsonbOut j :
  readable validString j = true -> (depthOf j <= maxNestingDepth)%N ->
  parse (jsonbOut j) = Some j.
Proof.
  intros Hj Hdepth. rewrite jsonbOut_print.
  by apply (parse_print jsonbQuote [" "%char] validString eq_refl jsonbQuote_read).
Qed.

(** *** The values of Go read from what JSONB keeps of them *)

Lemma map_fixed {A} (f : A -> A) (l : list A) :
  Forall (fun x => f x = x) l -> map f l = l.
Proof. induction 1 as [|x l Hx _ IH]; [done|]. cbn [map]. by rewrite Hx, IH. Qed.

Lemma fst_map_values {V W} (f : V -> W) (l : list (string * V)) :
  (map (fun m => (m.1, f m.2)) l).*1 = l.*1.
Proof. induction l as [|[k v] l IH]; [done|]. cbn. by rewrite IH. Qed.

(** A value as the decoder leaves it is read as it is from what JSONB
    keeps of it. *)
Lemma anyOf_jsonbOf v : anyOf v = v -> anyOf (jsonbOf v) = v.
Proof.
  induction v as [| | | |elements IH|members IH] using json_ind'; try done.
  - intros Hfix. pose proof (anyOf_fixed_elements _ Hfix) as Hall.
    cbn [jsonbOf anyOf]. f_equal. rewrite map_map. apply map_fixed.
    apply Forall_forall. intros j Hj.
    apply (proj1 (Forall_forall _ _) IH _ Hj).
    by apply (proj1 (Forall_forall _ _) Hall _ Hj).
  - intros Hfix. destruct (anyOf_fixed_members _ Hfix) as [Hsorted Hall].
    rewrite jsonbOf_JObject. cbn [anyOf]. f_equal.
    apply sortMembers_unique; [done|].
    transitivity (map (fun m => (m.1, anyOf m.2))
                    (map (fun m => (m.1, jsonbOf m.2)) members)).
    + apply Permutation_map, jsonbMembers_perm.
      rewrite fst_map_values. by apply sorted_NoDup.
    + rewrite map_map. cbn [fst snd]. rewrite map_fixed; [done|].
      apply Forall_forall. intros [k v] Hin. cbn [fst snd]. f_equal.
      apply (proj1 (Forall_forall _ _) IH _ Hin).
      by apply (proj1 (Forall_forall _ _) Hall _ Hin).
Qed.

(** The members of an object that holds the entries of a map, in any
    order, are decoded into the map. *)
Lemma decEntries_perm {V} (dec : json -> option V) (enc : V -> json)
    (members : list (string * json)) (m : gmap string V) :
  members ≡ₚ map (fun e => (e.1, enc e.2)) (map_to_list m) ->
  (forall k v, m !! k = Some v -> dec (enc v) = Some v) ->
  decEntries dec members ∅ = Some m.
Proof.
  intros Hperm Hdec. apply Permutation_map_inv in Hperm as (l & -> & Hl).
  rewrite decEntries_enc.
  - f_equal. by apply foldl_insert_entries.
  - apply Forall_forall. intros [k v] Hin. cbn [snd]. apply (Hdec k).
    apply elem_of_map_to_list. by rewrite Hl.
Qed.

Lemma jsonbOf_encStrings l : jsonbOf (encStrings l) = encStrings l.
Proof.
  destruct l as [l|]; [|done]. cbn [encStrings jsonbOf]. f_equal.
  rewrite map_map. done.
Qed.

Lemma jsonbOf_encBytes b : jsonbOf (encBytes b) = encBytes b.
Proof. by destruct b. Qed.

Lemma decHeader_jsonb h : decHeader (jsonbOf (encHeader h)) None = Some h.
Proof.
  destruct h as [m|]; [|done]. cbn [encHeader]. rewrite jsonbOf_JObject.
  unfold decHeader, decMap. cbn [default].
  rewrite (decEntries_perm _ encStrings _ m); [done| |].
  - rewrite map_map. cbn [fst snd].
    rewrite jsonbMembers_perm.
    + rewrite (map_ext _ (fun e => (e.1, encStrings e.2)))
        by (intros e; by rewrite jsonbOf_encStrings).
      apply Permutation_map, sortedEntries_perm.
    + rewrite (fst_map_values (fun v => jsonbOf (encStrings v))).
      rewrite sortedEntries_perm. apply NoDup_fst_map_to_list.
  - intros k v _. apply decStrings_enc.
Qed.

Lemma decFields_jsonb f :
  map_Forall (fun _ v => anyOf v = v) (default ∅ f) ->
  decFields (jsonbOf (encFields f)) None = Some f.
Proof.
  destruct f as [m|]; [|done]. cbn [default encFields]. intros Hm.
  rewrite jsonbOf_JObject. unfold decFields, decMap. cbn [default].
  rewrite (decEntries_perm _ (fun v => jsonbOf (anyOf v)) _ m); [done| |].
  - rewrite map_map. cbn [fst snd].
    rewrite jsonbMembers_perm.
    + apply Permutation_map, sortedEntries_perm.
    + rewrite (fst_map_values (fun v => jsonbOf (anyOf v))).
      rewrite sortedEntries_perm. apply NoDup_fst_map_to_list.
  - intros k v Hkv. f_equal. rewrite (Hm k v Hkv). by apply anyOf_jsonbOf, (Hm k v).
Qed.

(** JSONB orders the keys of the structs by their length first. *)
Lemma jsonbOf_encRequest r :
  jsonbOf (encRequest r)
  = JObject [("url", JString (URL r)); ("body", JString (Body r));
             ("method", JString (Method r));
             ("headers", jsonbOf (encHeader (Headers r)))].
Proof. reflexivity. Qed.

Lemma jsonbOf_encResponse r :
  jsonbOf (encResponse r)
  = JObject [("body", jsonbOf (encBytes (ResponseBody r)));
             ("proto", JString (Proto r));
             ("headers", jsonbOf (encHeader (ResponseHeaders r)));
             ("statusCode", JNumber (pretty (StatusCode r)))].
Proof. reflexivity. Qed.

Lemma jsonbOf_encLog l :
  jsonbOf (encLog l)
  = JObject [("error", JString (TraefikLog.Error l));
             ("level", JString (TraefikLog.Level l));
             ("fields", jsonbOf (encFields (TraefikLog.Fields l)));
             ("message", JString (TraefikLog.Message l));
             ("timestamp", JString (TraefikLog.Timestamp l))].
Proof. reflexivity. Qed.

Lemma jsonbOf_encResult r :
  jsonbOf (encResult r)
  = JObject [("logs", jsonbOf (encLogs (Logs r)));
             ("response", jsonbOf (encResponse (Response r)))].
Proof. reflexivity. Qed.

Lemma decRequest_jsonb r : decRequest (jsonbOf (encRequest r)) zeroHTTPRequest = Some r.
Proof.
  rewrite jsonbOf_encRequest. destruct r as [method url headers body].
  pose proof (decHeader_jsonb headers) as Hh.
  unfold decRequest, decStruct. cbn [Method URL Headers Body].
  revert Hh. generalize (jsonbOf (encHeader headers)). intros jh Hh.
  cbn [decMembers]. unfold requestField. names_eval.
  cbn -[decHeader]. by rewrite Hh.
Qed.

Lemma decResponse_jsonb r :
  - 2 ^ 63 <= StatusCode r <= 2 ^ 63 - 1 ->
  decResponse (jsonbOf (encResponse r)) (Response zeroResult) = Some r.
Proof.
  rewrite jsonbOf_encResponse, jsonbOf_encBytes.
  destruct r as [proto status headers body]. cbn [StatusCode]. intros Hstatus.
  pose proof (decHeader_jsonb headers) as Hh.
  pose proof (decBytes_enc body) as Hb.
  pose proof (parseInt_pretty _ _ status Hstatus) as Hs.
  unfold decResponse, decStruct.
  cbn [Proto StatusCode ResponseHeaders ResponseBody].
  revert Hh Hb Hs.
  generalize (jsonbOf (encHeader headers)) (encBytes body) (pretty status).
  intros jh jb literal Hh Hb Hs.
  cbn [decMembers]. unfold responseField. names_eval.
  cbn -[decHeader decBytes parseInt Z.pow Z.sub Z.opp]. rewrite Hb.
  cbn -[decHeader parseInt Z.pow Z.sub Z.opp]. rewrite Hh.
  cbn -[parseInt Z.pow Z.sub Z.opp]. by rewrite Hs.
Qed.

Lemma decLog_jsonb l :
  map_Forall (fun _ v => anyOf v = v) (default ∅ (TraefikLog.Fields l)) ->
  decLog (jsonbOf (encLog l)) zeroLog = Some l.
Proof.
  rewrite jsonbOf_encLog.
  destruct l as [message timestamp level error fields]. cbn [TraefikLog.Fields].
  intros Hfields. pose proof (decFields_jsonb fields Hfields) as Hf.
  unfold decLog, decStruct.
  cbn [TraefikLog.Message TraefikLog.Timestamp TraefikLog.Level TraefikLog.Error
       TraefikLog.Fields].
  revert Hf. generalize (jsonbOf (encFields fields)). intros jf Hf.
  cbn [decMembers]. unfold logField, zeroLog. names_eval.
  cbn -[decFields]. by rewrite Hf.
Qed.

Lemma decLogs_jsonb logs :
  Forall (fun l => map_Forall (fun _ v => anyOf v = v) (default ∅ (TraefikLog.Fields l)))
    (default [] logs) ->
  decLogs (jsonbOf (encLogs logs)) None = Some logs.
Proof.
  destruct logs as [logs|]; [|done]. cbn [default]. intros Hlogs.
  unfold decLogs, decSlice. cbn [encLogs jsonbOf default]. rewrite map_map.
  rewrite (decElements_enc decLog (fun l => jsonbOf (encLog l))); [done|].
  eapply Forall_impl; [exact Hlogs|]. intros l Hl. by apply decLog_jsonb.
Qed.

Lemma decResult_jsonb r :
  - 2 ^ 63 <= StatusCode (Response r) <= 2 ^ 63 - 1 ->
  Forall (fun l => map_Forall (fun _ v => anyOf v = v) (default ∅ (TraefikLog.Fields l)))
    (default [] (Logs r)) ->
  decResult (jsonbOf (encResult r)) zeroResult = Some r.
Proof.
  rewrite jsonbOf_encResult.
  destruct r as [response logs]. cbn [Response Logs]. intros Hstatus Hlogs.
  pose proof (decResponse_jsonb response Hstatus) as Hr.
  pose proof (decLogs_jsonb logs Hlogs) as Hl.
  unfold decResult, decStruct.
  revert Hr Hl. generalize (jsonbOf (encResponse response)) (jsonbOf (encLogs logs)).
  intros jr jl Hr Hl.
  cbn [decMembers]. unfold resultField. names_eval.
  cbn -[decResponse decLogs] in *. rewrite Hl. cbn -[decResponse]. by rewrite Hr.
Qed.

(** What [Scan] reads from the column into which [Value] was written. *)
Lemma scan_request r column :
  requestOK r -> jsonbIn (MarshalRequest r) = Some column ->
  UnmarshalRequest (jsonbOut column) zeroHTTPRequest = Some r.
Proof.
  intros Hr. pose proof (depthOf_encRequest r) as Hdepth.
  unfold jsonbIn, MarshalRequest. rewrite parse_render;
    [|by apply readable_encRequest|unfold maxNestingDepth; lia].
  cbn [mbind option_bind]. destruct (hasNul (encRequest r)); [done|].
  intros Heq. apply (inj Some) in Heq. subst column.
  unfold UnmarshalRequest. rewrite parse_jsonbOut.
  - cbn [mbind option_bind]. apply decRequest_jsonb.
  - by apply readable_jsonbOf, readable_encRequest.
  - pose proof (depthOf_jsonbOf (encRequest r)). unfold maxNestingDepth. lia.
Qed.

Lemma scan_result r column :
  resultOK 4 r -> jsonbIn (MarshalResult r) = Some column ->
  UnmarshalResult (jsonbOut column) zeroResult = Some r.
Proof.
  intros Hr. pose proof (depthOf_encResult 4 r Hr) as Hdepth.
  unfold jsonbIn, MarshalResult. rewrite parse_render;
    [|by apply (readable_encResult 4)|unfold maxNestingDepth in *; lia].
  cbn [mbind option_bind]. destruct (hasNul (encResult r)); [done|].
  intros Heq. apply (inj Some) in Heq. subst column.
  unfold UnmarshalResult. rewrite parse_jsonbOut.
  - cbn [mbind option_bind].
    apply decResult_jsonb; [apply Hr|by apply (resultOK_fields 4)].
  - by apply readable_jsonbOf, (readable_encResult 4).
  - pose proof (depthOf_jsonbOf (encResult r)). unfold maxNestingDepth in *. lia.
Qed.

Section Store.

(** [sha256.Sum256], and whether the database reads a text as an INET
    value. *)
Variable sha256 : list ascii -> list ascii.
Variable validInet : string -> bool.

Definition hashOf (exp : Experiment) (res : Result) : string :=
  str (hexOf (sha256 (hashData exp res))).

(** [Save] on the table [db] at the time [now], when [shortuuid.New]
    returns [newID]: the table afterwards, the public ID and the error.
    The database first reads the six parameters; a row with the same hash
    makes the statement return the ID of that row, which is left as it
    is. *)
Definition Save (db : list Row) (now : Z) (newID : string)
    (exp : Experiment) (res : Result) (clientIP : string)
  : list Row * string * option error :=
  let publicID := newID in
  let hash := hashOf exp res in
  if negb (validText publicID && validText hash && validText (DynamicConfig exp))
  then (db, "", Some (ErrInserting InvalidText))
  else
    match jsonbIn (MarshalRequest (Request exp)), jsonbIn (MarshalResult res) with
    | Some requestValue, Some resultValue =>
        if negb (validInet clientIP) then (db, "", Some (ErrInserting InvalidInet))
        else
          match find (hasHash hash) db with
          | Some r => (db, public_id r, None)
          | None =>
              if existsb (hasID publicID) db
              then (db, "", Some (ErrInserting UniqueViolation))
              else (db ++ [mkRow publicID now None hash clientIP (DynamicConfig exp)
                             requestValue resultValue],
                    publicID, None)
          end
    | _, _ => (db, "", Some (ErrInserting InvalidJSON))
    end.

(** The row read into an experiment and a result by [Scan]. *)
Definition scanRow (r : Row) : Experiment * Result * option error :=
  match UnmarshalRequest (jsonbOut (request r)) zeroHTTPRequest with
  | None => (zeroExperiment, zeroResult, Some (ErrScan "request"))
  | Some req =>
      match UnmarshalResult (jsonbOut (result r)) zeroResult with
      | None => (zeroExperiment, zeroResult, Some (ErrScan "result"))
      | Some res => (mkExperiment (dynamic_config r) req, res, None)
      end
  end.

(** [Get] on the table [db] at the time [now]: the table afterwards, the
    experiment, the result and the error. *)
Definition Get (db : list Row) (now : Z) (publicID : string)
  : list Row * Experiment * Result * option error :=
  if negb (validText publicID)
  then (db, zeroExperiment, zeroResult, Some (ErrQuery InvalidText))
  else
    match find (hasID publicID) db with
    | None => (db, zeroExperiment, zeroResult, Some ErrNotFound)
    | Some r => let '(exp, res, err) := scanRow r in (touch now publicID db, exp, res, err)
    end.

Lemma find_app_None {A} (f : A -> bool) (l : list A) (x : A) :
  find f l = None -> find f (l ++ [x]) = if f x then Some x else None.
Proof.
  induction l as [|a l IH]; simpl; [done|].
  destruct (f a); [done|]. exact IH.
Qed.

Lemma find_existsb_false {A} (f : A -> bool) (l : list A) :
  existsb f l = false -> find f l = None.
Proof.
  induction l as [|a l IH]; simpl; [done|].
  destruct (f a); [done|]. exact IH.
Qed.

Lemma find_hasHash h db r : find (hasHash h) db = Some r -> hash r = h.
Proof.
  intros H. apply find_some in H as [_ H]. by apply String.eqb_eq in H.
Qed.

Lemma hasID_refl id r : public_id r = id -> hasID id r = true.
Proof. intros <-. apply String.eqb_refl. Qed.

Lemma hasHash_refl h r : hash r = h -> hasHash h r = true.
Proof. intros <-. apply String.eqb_refl. Qed.

(** What a successful [Save] has done: the parameters were accepted, and
    either the table held a row with the hash, whose ID is returned, or the
    new row was added under the new ID. *)
Lemma Save_success db now newID exp res clientIP db' id :
  Save db now newID exp res clientIP = (db', id, None) ->
  validText newID = true /\ validText (hashOf exp res) = true /\
  validText (DynamicConfig exp) = true /\ validInet clientIP = true /\
  exists request result,
    jsonbIn (MarshalRequest (Request exp)) = Some request /\
    jsonbIn (MarshalResult res) = Some result /\
    ((exists r, find (hasHash (hashOf exp res)) db = Some r /\
                db' = db /\ id = public_id r) \/
     (find (hasHash (hashOf exp res)) db = None /\
      existsb (hasID newID) db = false /\ id = newID /\
      db' = db ++ [mkRow newID now None (hashOf exp res) clientIP (DynamicConfig exp)
                     request result])).
Proof.
  unfold Save. cbv zeta.
  destruct (validText newID) eqn:H1; [|by intros [=]].
  destruct (validText (hashOf exp res)) eqn:H2; [|by intros [=]].
  destruct (validText (DynamicConfig exp)) eqn:H3; [|by intros [=]].
  cbn [andb negb].
  destruct (jsonbIn (MarshalRequest (Request exp))) as [request|]; [|by intros [=]].
  destruct (jsonbIn (MarshalResult res)) as [result|]; [|by intros [=]].
  destruct (validInet clientIP) eqn:H4; [|by intros [=]].
  cbn [negb].
  destruct (find (hasHash (hashOf exp res)) db) as [r|] eqn:Hfind.
  - intros [= <- <-]. repeat split; try done.
    exists request, result. repeat split; try done. left. by exists r.
  - destruct (existsb (hasID newID) db) eqn:Hex; [by intros [=]|].
    intros [= <- <-]. repeat split; try done.
    exists request, result. repeat split; try done. by right.
Qed.

(** A [Save] of the content of a row of the table returns the ID of the
    first row with its hash and leaves the table as it is. *)
Lemma Save_again db now newID exp res clientIP r :
  validText newID = true -> validText (hashOf exp res) = true ->
  validText (DynamicConfig exp) = true -> validInet clientIP = true ->
  is_Some (jsonbIn (MarshalRequest (Request exp))) ->
  is_Some (jsonbIn (MarshalResult res)) ->
  find (hasHash (hashOf exp res)) db = Some r ->
  Save db now newID exp res clientIP = (db, public_id r, None).
Proof.
  intros H1 H2 H3 H4 [request Hreq] [result Hres] Hfind.
  unfold Save. cbv zeta.
  by rewrite H1, H2, H3, Hreq, Hres, H4, Hfind.
Qed.


(** [Get] of the ID of the row that [Save] has added, when the request and
    the result are written as they are. *)
Lemma Get_saved db now newID h ip exp res reqJ resJ now' :
  validText newID = true ->
  existsb (hasID newID) db = false ->
  jsonbIn (MarshalRequest (Request exp)) = Some reqJ ->
  jsonbIn (MarshalResult res) = Some resJ ->
  let row := mkRow newID now None h ip (DynamicConfig exp) reqJ resJ in
  find (hasID newID) (db ++ [row]) = Some row /\
  (requestOK (Request exp) -> resultOK 4 res ->
   Get (db ++ [row]) now' newID = (touch now' newID (db ++ [row]), exp, res, None)).
Proof.
  intros Hid Hfresh Hreq Hres row.
  assert (Hfind : find (hasID newID) (db ++ [row]) = Some row).
  { rewrite find_app_None by by apply find_existsb_false.
    by rewrite hasID_refl. }
  split; [done|]. intros Hrequest Hresult.
  unfold Get. rewrite Hid, Hfind. cbn [negb].
  unfold scanRow. subst row. cbn [request result dynamic_config].
  rewrite (scan_request _ _ Hrequest Hreq), (scan_result _ _ Hresult Hres).
  by destruct exp.
Qed.

(** C6, for the experiments and results that are stored as they are.  When
    [Save] of an experiment and a result succeeds, every later [Save] of
    the same experiment and result, under any new ID and from any client IP
    that the database accepts, returns the same public ID and leaves the
    table as it is: no second row, the row unchanged.  When the table held
    no row with the hash of the content, the ID is the new one, the row
    added holds the client IP of that first call, and, when the strings of
    the request and of the result are well-formed UTF-8, the status code is
    an [int] and the log fields hold values as the decoder leaves them,
    nested within the depth that the decoder accepts, [Get] of the ID marks
    the row as retrieved and returns exactly the experiment and the
    result. *)
Theorem save_idempotent_get (db : list Row) (now1 : Z) (id1 ip1 : string)
    (exp : Experiment) (res : Result) (db1 : list Row) (id : string) :
  Save db now1 id1 exp res ip1 = (db1, id, None) ->
  (forall now2 id2 ip2,
     validText id2 = true -> validInet ip2 = true ->
     Save db1 now2 id2 exp res ip2 = (db1, id, None)) /\
  (find (hasHash (hashOf exp res)) db = None ->
   id = id1 /\
   (exists row,
      db1 = db ++ [row] /\ find (hasID id) db1 = Some row /\
      client_ip row = ip1 /\ created_at row = now1 /\
      hash row = hashOf exp res /\ dynamic_config row = DynamicConfig exp) /\
   (requestOK (Request exp) -> resultOK 4 res ->
    forall now3, Get db1 now3 id = (touch now3 id db1, exp, res, None))).
Proof.
  intros Hsave.
  destruct (Save_success _ _ _ _ _ _ _ _ Hsave)
    as (Hid & Hhash & Hcfg & Hip & request & result & Hreq & Hres & Hcase).
  split.
  - intros now2 id2 ip2 Hid2 Hip2.
    destruct Hcase as [(r & Hfind & -> & ->)|(Hnone & Hfresh & -> & ->)].
    + by apply Save_again.
    + set (row := mkRow id1 now1 None (hashOf exp res) ip1 (DynamicConfig exp)
                    request result).
      apply (Save_again _ _ _ _ _ _ row); try done.
      rewrite find_app_None by done. by rewrite hasHash_refl.
  - intros Hnone.
    destruct Hcase as [(r & Hfind & _)|(_ & Hfresh & -> & ->)]; [congruence|].
    split; [done|].
    set (row := mkRow id1 now1 None (hashOf exp res) ip1 (DynamicConfig exp)
                  request result).
    split.
    + exists row. repeat split; try done.
      exact (proj1 (Get_saved db now1 id1 (hashOf exp res) ip1 exp res request result 0
                      Hid Hfresh Hreq Hres)).
    + intros Hrequest Hresult now3.
      exact (proj2 (Get_saved db now1 id1 (hashOf exp res) ip1 exp res request result now3
                      Hid Hfresh Hreq Hres) Hrequest Hresult).
Qed.

End Store.


(** A stand-in for SHA-256 (the data itself) and a database that reads the
    two addresses of the store's test as INET values. *)
Definition sampleHash (data : list ascii) : list ascii := data.
Definition sampleInet (ip : string) : bool :=
  String.eqb ip "127.0.0.1" || String.eqb ip "127.0.0.2".

Definition sampleTable : list Row :=
  (Save sampleHash sampleInet [] 1 "first" App.sampleExperiment App.sampleResult
     "127.0.0.1").1.1.

Lemma sampleResult_stored : resultOK 4 App.sampleResult.
Proof.
  split.
  - split; [done|]. split; [done|].
    apply map_Forall_insert_2; [|apply map_Forall_empty].
    split; [done|]. by repeat constructor.
  - constructor; [|constructor]. do 4 (split; [done|]).
    apply map_Forall_insert_2; [|apply map_Forall_empty].
    by repeat split.
Qed.

Lemma save_idempotent_get_witness :
  Save sampleHash sampleInet [] 1 "first" App.sampleExperiment App.sampleResult "127.0.0.1"
  = (sampleTable, "first", None) /\
  Save sampleHash sampleInet sampleTable 2 "second" App.sampleExperiment App.sampleResult
    "127.0.0.2"
  = (sampleTable, "first", None) /\
  Get sampleTable 3 "first"
  = (touch 3 "first" sampleTable, App.sampleExperiment, App.sampleResult, None).
Proof.
  assert (Hsave : Save sampleHash sampleInet [] 1 "first" App.sampleExperiment
                    App.sampleResult "127.0.0.1" = (sampleTable, "first", None))
    by (vm_compute; reflexivity).
  destruct (save_idempotent_get sampleHash sampleInet [] 1 "first" "127.0.0.1"
              App.sampleExperiment App.sampleResult sampleTable "first" Hsave)
    as [Hagain Hfirst].
  split; [exact Hsave|]. split.
  - apply Hagain; vm_compute; reflexivity.
  - destruct (Hfirst eq_refl) as (_ & _ & Hget).
    apply Hget; [apply (proj2 App.sampleExperiment_OK)|apply sampleResult_stored].
Defined.

(** C6, the claim as stated fails: the experiment whose body is the byte
    0xFF is saved without error, whatever the hash function, and [Get]
    returns it with the body U+FFFD. *)
Lemma get_returns_other_body :
  (forall (sha256 : list ascii -> list ascii) (validInet : string -> bool),
     validInet "127.0.0.1" = true ->
     let saved := Save sha256 validInet [] 1 "first" App.binaryExperiment zeroResult
                    "127.0.0.1" in
     saved.2 = None /\ saved.1.2 = "first" /\
     Get saved.1.1 2 "first"
     = (touch 2 "first" saved.1.1, App.replacedExperiment, zeroResult, None)) /\
  App.replacedExperiment <> App.binaryExperiment.
Proof.
  split.
  - intros sha256 validInet Hip. unfold Save. cbv zeta.
    unfold hashOf. rewrite validText_hex, Hip. vm_compute. done.
  - intros H. apply (f_equal (fun e => Body (Request e))) in H. by vm_compute in H.
Qed.


(** *** The table under [Save] and [Get] *)

(** The constraints of the table: [public_id] is the primary key and [hash]
    is unique. *)
Definition wellFormed (db : list Row) : Prop :=
  NoDup (public_id <$> db) /\ NoDup (hash <$> db).

(** The columns of a row that [Get] leaves alone: all but
    [last_retrieved_at]. *)
Definition content (r : Row) : string * Z * string * string * string * json * json :=
  (public_id r, created_at r, hash r, client_ip r, dynamic_config r, request r, result r).

Lemma existsb_hasID_false id db :
  existsb (hasID id) db = false -> id ∉ public_id <$> db.
Proof.
  induction db as [|r db IH]; simpl; [intros _; apply not_elem_of_nil|].
  intros H. apply orb_false_elim in H as [Hr Hdb].
  rewrite not_elem_of_cons. split; [|by apply IH].
  intros ->. unfold hasID in Hr. by rewrite String.eqb_refl in Hr.
Qed.

Lemma find_hasHash_None h db :
  find (hasHash h) db = None -> h ∉ hash <$> db.
Proof.
  induction db as [|r db IH]; simpl; [intros _; apply not_elem_of_nil|].
  destruct (hasHash h r) eqn:Hr; [done|]. intros H.
  rewrite not_elem_of_cons. split; [|by apply IH].
  intros ->. unfold hasHash in Hr. by rewrite String.eqb_refl in Hr.
Qed.

Lemma find_hasID_None id db :
  find (hasID id) db = None <-> id ∉ public_id <$> db.
Proof.
  induction db as [|r db IH]; simpl.
  - split; [intros _; apply not_elem_of_nil|done].
  - unfold hasID at 1. destruct (String.eqb_spec (public_id r) id) as [->|Hne].
    + split; [done|]. intros H. destruct H. apply elem_of_cons. by left.
    + rewrite IH, not_elem_of_cons. split; [by intros H; split; [congruence|]|by intros [_ H]].
Qed.

Lemma wellFormed_snoc db r :
  wellFormed db -> public_id r ∉ public_id <$> db -> hash r ∉ hash <$> db ->
  wellFormed (db ++ [r]).
Proof.
  intros [Hid Hhash] Hr1 Hr2. unfold wellFormed. rewrite !fmap_app. simpl.
  split; apply NoDup_app; (split; [done|]);
    (split; [|apply NoDup_singleton]); intros x Hx Hx';
    apply list_elem_of_singleton in Hx'; by subst.
Qed.

Section Table.

Variable sha256 : list ascii -> list ascii.
Variable validInet : string -> bool.

(** [Save] keeps the constraints of the table and every row it finds: it
    leaves the table as it is or adds one row at its end, under the new ID
    and with the hash, the client IP and the time of the call, never
    retrieved; when it returns an error, the table is as before and the ID
    is empty. *)
Theorem Save_keeps_rows (db : list Row) (now : Z) (newID : string)
    (exp : Experiment) (res : Result) (clientIP : string) :
  wellFormed db ->
  wellFormed (Save sha256 validInet db now newID exp res clientIP).1.1 /\
  ((Save sha256 validInet db now newID exp res clientIP).1.1 = db \/
   (exists row,
      Save sha256 validInet db now newID exp res clientIP = (db ++ [row], newID, None) /\
      public_id row = newID /\ hash row = hashOf sha256 exp res /\
      client_ip row = clientIP /\ created_at row = now /\
      last_retrieved_at row = None /\ dynamic_config row = DynamicConfig exp)) /\
  (is_Some (Save sha256 validInet db now newID exp res clientIP).2 ->
   (Save sha256 validInet db now newID exp res clientIP).1 = (db, "")).
Proof.
  intros Hwf. unfold Save. cbv zeta.
  destruct (negb _); [by split; [|split; [left|]]|].
  destruct (jsonbIn (MarshalRequest (Request exp))) as [requestValue|];
    [|by split; [|split; [left|]]].
  destruct (jsonbIn (MarshalResult res)) as [resultValue|];
    [|by split; [|split; [left|]]].
  destruct (negb _); [by split; [|split; [left|]]|].
  destruct (find (hasHash (hashOf sha256 exp res)) db) as [r|] eqn:Hfind.
  { split; [done|]. split; [by left|]. by intros [? ?]. }
  destruct (existsb (hasID newID) db) eqn:Hex; [by split; [|split; [left|]]|].
  cbn [fst snd]. split; [|split].
  - apply wellFormed_snoc; [done|by apply existsb_hasID_false|by apply find_hasHash_None].
  - right. by eexists.
  - by intros [? ?].
Qed.

(** [Get] answers [ErrNotFound] exactly for a text that is the ID of no
    row, and then leaves the table as it is. *)
Theorem Get_not_found (db : list Row) (now : Z) (publicID : string) :
  ((Get db now publicID).2 = Some ErrNotFound
   <-> validText publicID = true /\ publicID ∉ public_id <$> db) /\
  ((Get db now publicID).2 = Some ErrNotFound ->
   Get db now publicID = (db, zeroExperiment, zeroResult, Some ErrNotFound)).
Proof.
  unfold Get. destruct (validText publicID); cbn [negb].
  2:{ split; [|done]. split; [done|]. by intros [? _]. }
  destruct (find (hasID publicID) db) as [r|] eqn:Hfind.
  - assert (Hscan : (scanRow r).2 <> Some ErrNotFound).
    { unfold scanRow.
      destruct (UnmarshalRequest _ _); [|done]. by destruct (UnmarshalResult _ _). }
    destruct (scanRow r) as [[e r'] err]. cbn [snd] in *.
    split; [|done]. split; [done|].
    intros [_ Hnot]. apply find_hasID_None in Hnot. congruence.
  - split; [|done]. split; [|done]. intros _. split; [done|].
    by apply find_hasID_None.
Qed.

(** The row as [Get] leaves it. *)
Definition mark (now : Z) (id : string) (r : Row) : Row :=
  if hasID id r
  then mkRow (public_id r) (created_at r) (Some now) (hash r) (client_ip r)
         (dynamic_config r) (request r) (result r)
  else r.

Lemma touch_mark now id db : touch now id db = map (mark now id) db.
Proof. reflexivity. Qed.

Lemma content_mark now id r : content (mark now id r) = content r.
Proof. unfold mark. by destruct (hasID id r). Qed.

Lemma find_map_same {A} (f : A -> bool) (g : A -> A) (l : list A) :
  (forall x, f (g x) = f x) -> find f (map g l) = g <$> find f l.
Proof.
  intros Hf. induction l as [|x l IH]; [done|]. cbn [map find].
  rewrite Hf. by destruct (f x).
Qed.

Lemma hasID_mark now id id' r : hasID id' (mark now id r) = hasID id' r.
Proof. unfold mark. by destruct (hasID id r). Qed.

Lemma hasHash_mark now id h r : hasHash h (mark now id r) = hasHash h r.
Proof. unfold mark. by destruct (hasID id r). Qed.

Lemma scanRow_mark now id r : scanRow (mark now id r) = scanRow r.
Proof. unfold mark. by destruct (hasID id r). Qed.

Lemma content_touch now id db : content <$> touch now id db = content <$> db.
Proof.
  rewrite touch_mark. induction db as [|r db IH]; [done|].
  cbn [map fmap list_fmap]. rewrite content_mark. f_equal. exact IH.
Qed.

Lemma existsb_hasID_touch now id id' db :
  existsb (hasID id') (touch now id db) = existsb (hasID id') db.
Proof.
  rewrite touch_mark. induction db as [|r db IH]; [done|].
  cbn [map existsb]. by rewrite hasID_mark, IH.
Qed.

(** [Get] changes nothing but the time of retrieval of the row it reads:
    the other columns of every row are as before, so a second [Get] of the
    same ID returns the same experiment, result and error, and a [Save]
    returns the same ID and the same error as it would have before. *)
Theorem Get_only_marks (db : list Row) (now : Z) (publicID : string) :
  content <$> (Get db now publicID).1.1.1 = content <$> db /\
  (forall now',
     let again := Get (Get db now publicID).1.1.1 now' publicID in
     (again.1.1.2, again.1.2, again.2)
     = ((Get db now publicID).1.1.2, (Get db now publicID).1.2, (Get db now publicID).2)) /\
  (forall now' newID exp res clientIP,
     let after := Save sha256 validInet (Get db now publicID).1.1.1 now' newID exp res
                    clientIP in
     (after.1.2, after.2)
     = ((Save sha256 validInet db now' newID exp res clientIP).1.2,
        (Save sha256 validInet db now' newID exp res clientIP).2)).
Proof.
  assert (Htable : (Get db now publicID).1.1.1 = db \/
                   (validText publicID = true /\
                    (Get db now publicID).1.1.1 = touch now publicID db)).
  { unfold Get. destruct (validText publicID); [|by left].
    cbn [negb]. destruct (find (hasID publicID) db) as [r|]; [|by left].
    right. by destruct (scanRow r) as [[? ?] ?]. }
  split; [|split].
  - destruct Htable as [->|[_ ->]]; [done|apply content_touch].
  - intros now'. cbv zeta.
    destruct Htable as [Hsame|[Hvalid Htouch]].
    + rewrite Hsame. unfold Get. destruct (negb (validText publicID)); [done|].
      destruct (find (hasID publicID) db) as [r|]; [|done].
      by destruct (scanRow r) as [[? ?] ?].
    + rewrite Htouch. unfold Get. rewrite Hvalid. cbn [negb].
      rewrite touch_mark, find_map_same by (intros; apply hasID_mark).
      destruct (find (hasID publicID) db) as [r|]; [|done].
      cbn [fmap option_fmap option_map]. rewrite scanRow_mark.
      by destruct (scanRow r) as [[? ?] ?].
  - intros now' newID exp res clientIP. cbv zeta.
    destruct Htable as [->|[_ ->]]; [done|].
    unfold Save. cbv zeta.
    destruct (negb _); [done|].
    destruct (jsonbIn (MarshalRequest (Request exp))); [|done].
    destruct (jsonbIn (MarshalResult res)); [|done].
    destruct (negb _); [done|].
    rewrite existsb_hasID_touch.
    rewrite touch_mark, find_map_same by (intros; apply hasHash_mark).
    destruct (find (hasHash (hashOf sha256 exp res)) db) as [r|];
      cbn [fmap option_fmap option_map].
    + cbn [fst snd]. f_equal. unfold mark. by destruct (hasID publicID r).
    + by destruct (existsb (hasID newID) db).
Qed.

End Table.

Lemma Save_keeps_rows_witness :
  wellFormed sampleTable /\
  wellFormed (Save sampleHash sampleInet sampleTable 2 "second" App.binaryExperiment
                zeroResult "127.0.0.2").1.1.
Proof.
  assert (Hwf : wellFormed sampleTable)
    by (split; vm_compute; apply NoDup_singleton).
  split; [exact Hwf|].
  apply (Save_keeps_rows sampleHash sampleInet sampleTable 2 "second"
           App.binaryExperiment zeroResult "127.0.0.2" Hwf).
Defined.

End Store.
